(** * ESC/POS raster pipeline: a shallow embedding of [escpos-printer.js]
    and of the printing half of [script.js].

    The two files carry the same pipeline functions ([grayscaleImageData],
    [floydSteinbergDither], [packBitsMonochrome], [buildGsV0Raster],
    [openUsbDevice], [sendViaWebSocket]); they are embedded once.

    Conventions.
    - Array indices and the widths and heights that bound loops are [nat];
      byte values and the other integers are [Z]; JavaScript numbers that
      carry fractions are IEEE 754 binary64 values, Rocq's primitive
      [float].
    - A typed array is a [list]: [l !! i] reads ([None] is JavaScript's
      [undefined]), [<[i:=v]> l] writes and, as a typed array does, leaves
      the array alone when [i] is out of range.
    - A function that can throw returns an [outcome]. *)

From Stdlib Require Import ZArith Floats String Reals Lra.
From stdpp Require Import base list.

Open Scope Z_scope.
#[local] Set Warnings "-inexact-float".

(** ** JavaScript primitives *)

Module Js.

(** What a [throw] carries: [new Error(msg)], the built-in [RangeError],
    or the DOMException a platform call raises. *)
Inductive js_error : Type :=
| JsError (msg : string)
| RangeError
| DOMException (name : string).

Inductive outcome (A : Type) : Type :=
| Returns (a : A)
| Throws (e : js_error).
Arguments Returns {A} a.
Arguments Throws {A} e.

Definition bind {A B : Type} (m : outcome A) (k : A -> outcome B) : outcome B :=
  match m with
  | Returns a => k a
  | Throws e => Throws e
  end.

(** ToInt32: the operand conversion of the bitwise operators. *)
Definition to_int32 (z : Z) : Z := (z + 2 ^ 31) mod 2 ^ 32 - 2 ^ 31.

(** [a & b] *)
Definition band (a b : Z) : Z := Z.land (to_int32 a) (to_int32 b).

(** [a >> n] (sign-propagating; the shift count is taken modulo 32) *)
Definition shr (a n : Z) : Z := Z.shiftr (to_int32 a) (n mod 32).

(** [a | b] *)
Definition bor (a b : Z) : Z := Z.lor (to_int32 a) (to_int32 b).

(** ToUint8: the conversion applied by every store into a [Uint8Array]. *)
Definition to_uint8 (z : Z) : Z := z mod 256.

(** Truthiness of an array element: [undefined] and [0] are falsy. *)
Definition truthy (v : option Z) : bool :=
  match v with
  | Some z => negb (z =? 0)
  | None => false
  end.

(** [new Uint8Array(n)]: [n] zero bytes. *)
Definition new_Uint8Array (n : nat) : list Z := replicate n 0.

(** [new Uint8Array([v0, v1, ...])] *)
Definition Uint8Array_of (vs : list Z) : list Z := to_uint8 <$> vs.

(** [out.set(src, offset)]: copies [src] into [out] from [offset] on,
    converting each element; a source that does not fit is a RangeError. *)
Definition Uint8Array_set (out src : list Z) (offset : nat) : outcome (list Z) :=
  if decide (offset + length src <= length out)%nat
  then Returns (take offset out ++ (to_uint8 <$> src) ++ drop (offset + length src) out)
  else Throws RangeError.

(** [Math.ceil(a / b)] on non-negative integers. *)
Definition Math_ceil_div (a b : nat) : nat := ((a + (b - 1)) / b)%nat.

(** *** Numbers.  A JavaScript number is an IEEE 754 binary64 value. *)

(** The number an integer denotes (rounded to nearest when it needs more
    than 53 bits). *)
Definition number_of_Z (z : Z) : float :=
  SF2Prim (binary_normalize prec emax z 0 false).

(** [Math.fround]: rounding to the nearest binary32 value, as every store
    into a [Float32Array] does. *)
Definition Math_fround (x : float) : float :=
  match Prim2SF x with
  | S754_finite s m e =>
      SF2Prim (binary_normalize 24 128 (if s then Z.neg m else Z.pos m) e s)
  | _ => x
  end.

(** The number read from an array slot: [undefined] behaves as NaN in
    arithmetic and in comparisons. *)
Definition number_of_slot (v : option float) : float := default nan v.

Definition number_of_byte_slot (v : option Z) : float :=
  match v with
  | Some z => number_of_Z z
  | None => nan
  end.

(** [new Float32Array(n)] *)
Definition new_Float32Array (n : nat) : list float := replicate n 0%float.

(** [arr[i] = v] on a [Float32Array] *)
Definition Float32Array_store (arr : list float) (i : nat) (v : float) : list float :=
  <[i := Math_fround v]> arr.

(** [arr[i] += v] on a [Float32Array]: read, add in binary64, store. *)
Definition Float32Array_add (arr : list float) (i : nat) (v : float) : list float :=
  Float32Array_store arr i (number_of_slot (arr !! i) + v)%float.

(** An integer-valued number or one of the three non-finite ones: what
    [Math.round] yields and what a canvas dimension is set from.  (The
    sign of zero, which neither [Math.max(1, _)] nor a canvas
    distinguishes, is not kept.) *)
Inductive jsint : Type :=
| Finite (z : Z)
| PosInfinity
| NegInfinity
| NotANumber.

(** [Math.round(x)]: the integer nearest to [x], halves going up,
    that is [floor(x + 1/2)] computed exactly. *)
Definition Math_round (x : float) : jsint :=
  match Prim2SF x with
  | S754_zero _ => Finite 0
  | S754_infinity false => PosInfinity
  | S754_infinity true => NegInfinity
  | S754_nan => NotANumber
  | S754_finite s m e =>
      let z := if s then Z.neg m else Z.pos m in
      Finite (if 0 <=? e then z * 2 ^ e else (z + 2 ^ (- e - 1)) / 2 ^ (- e))
  end.

(** [Math.max(a, b)] *)
Definition Math_max (a b : jsint) : jsint :=
  match a, b with
  | NotANumber, _ | _, NotANumber => NotANumber
  | PosInfinity, _ | _, PosInfinity => PosInfinity
  | NegInfinity, x | x, NegInfinity => x
  | Finite x, Finite y => Finite (Z.max x y)
  end.

End Js.

Import Js.

(** ** Framer *)

(** [buildGsV0Raster(bytesPerRow, height, bitmapData, mode = 0)].
    The body holds no [throw] and no validation of its arguments. *)
Definition buildGsV0Raster (bytesPerRow height : Z) (bitmapData : list Z) (mode : Z)
  : outcome (list Z) :=
  let xL := band bytesPerRow 0xFF in
  let xH := band (shr bytesPerRow 8) 0xFF in
  let yL := band height 0xFF in
  let yH := band (shr height 8) 0xFF in
  let header := Uint8Array_of [0x1D; 0x76; 0x30; mode; xL; xH; yL; yH] in
  let out := new_Uint8Array (length header + length bitmapData) in
  bind (Uint8Array_set out header 0) (fun out =>
  bind (Uint8Array_set out bitmapData (length header)) (fun out =>
  Returns out)).

(** A byte, as a [Uint8Array] holds it. *)
Definition is_byte (z : Z) : Prop := 0 <= z < 256.

(** The claim of C4, as the specification words it: the framer throws
    whenever a 16-bit field would overflow. *)
Definition framer_rejects_overflow : Prop :=
  forall (bytesPerRow height : Z) (bitmapData : list Z) (mode : Z),
    bytesPerRow > 0xFFFF \/ height > 0xFFFF ->
    exists e, buildGsV0Raster bytesPerRow height bitmapData mode = Throws e.

(** ** Luminance converter *)

(** [ImageData]: [data] is a [Uint8ClampedArray] of RGBA samples. *)
Record ImageData : Type := mkImageData {
  data : list Z;
  width : nat;
  height : nat
}.

(** What [grayscaleImageData] returns: [{ gray, width, height }]. *)
Record GrayImage : Type := mkGrayImage {
  gray : list float;
  gray_width : nat;
  gray_height : nat
}.

(** The body of the loop of [grayscaleImageData] for one pixel: composite
    over white with [alpha = a / 255], then weigh the channels. *)
Definition luminance (r g b a : float) : float :=
  let alpha := (a / 255)%float in
  let rr := (r * alpha + 255 * (1 - alpha))%float in
  let gg := (g * alpha + 255 * (1 - alpha))%float in
  let bb := (b * alpha + 255 * (1 - alpha))%float in
  (0.299 * rr + 0.587 * gg + 0.114 * bb)%float.

(** [grayscaleImageData(imgData)].  The loop
    [for (i = 0, p = 0; i < data.length; i += 4, p++)] runs for
    [p = 0 .. ceil(data.length / 4) - 1] with [i = 4 * p]. *)
Definition grayscaleImageData (imgData : ImageData) : GrayImage :=
  let data := data imgData in
  let width := width imgData in
  let height := height imgData in
  let gray := new_Float32Array (width * height) in
  let gray :=
    fold_left
      (fun gray p =>
         let i := (4 * p)%nat in
         let r := number_of_byte_slot (data !! i) in
         let g := number_of_byte_slot (data !! (i + 1)%nat) in
         let b := number_of_byte_slot (data !! (i + 2)%nat) in
         let a := number_of_byte_slot (data !! (i + 3)%nat) in
         Float32Array_store gray p (luminance r g b a))
      (seq 0 (Math_ceil_div (length data) 4)) gray in
  mkGrayImage gray width height.

(** An image all of whose pixels are the same RGBA sample. *)
Definition uniform_image (imgData : ImageData) (r g b a : Z) : Prop :=
  forall p, (p < width imgData * height imgData)%nat ->
    data imgData !! (4 * p)%nat = Some r /\
    data imgData !! (4 * p + 1)%nat = Some g /\
    data imgData !! (4 * p + 2)%nat = Some b /\
    data imgData !! (4 * p + 3)%nat = Some a.

(** ** Disperser *)

(** One iteration of the inner loop of [floydSteinbergDither], at column
    [x] of row [y], on the pair of arrays [(grayArray, bw)]. *)
Definition dither_pixel (width height : nat) (st : list float * list Z) (y x : nat)
  : list float * list Z :=
  let '(grayArray, bw) := st in
  let idx := (y * width + x)%nat in
  let oldVal := number_of_slot (grayArray !! idx) in
  let newVal := if (oldVal <? 128)%float then 0%float else 255%float in
  let err := (oldVal - newVal)%float in
  let bw := <[idx := to_uint8 (if (newVal =? 0)%float then 1 else 0)]> bw in
  let grayArray :=
    if (x + 1 <? width)%nat
    then Float32Array_add grayArray (idx + 1) ((err * 7) / 16)%float
    else grayArray in
  let grayArray :=
    if (Z.of_nat x - 1 >=? 0) && (y + 1 <? height)%nat
    then Float32Array_add grayArray (idx + width - 1) ((err * 3) / 16)%float
    else grayArray in
  let grayArray :=
    if (y + 1 <? height)%nat
    then Float32Array_add grayArray (idx + width) ((err * 5) / 16)%float
    else grayArray in
  let grayArray :=
    if (x + 1 <? width)%nat && (y + 1 <? height)%nat
    then Float32Array_add grayArray (idx + width + 1) ((err * 1) / 16)%float
    else grayArray in
  (grayArray, bw).

(** [floydSteinbergDither(grayArray, width, height)].  The function
    returns [bw]; it also leaves [grayArray] modified, so the embedding
    returns the pair [(grayArray, bw)]. *)
Definition floydSteinbergDither (grayArray : list float) (width height : nat)
  : list float * list Z :=
  let bw := new_Uint8Array (width * height) in
  fold_left
    (fun st y => fold_left (fun st x => dither_pixel width height st y x) (seq 0 width) st)
    (seq 0 height) (grayArray, bw).

(** *** The disperser as the specification describes it *)

(** Pixels in raster scan order: rows top to bottom, each left to right. *)
Definition raster_scan (width height : nat) : list (nat * nat) :=
  y ← seq 0 height; (fun x => (x, y)) <$> seq 0 width.

(** The share, in sixteenths, that the neighbour at offset [(dx, dy)]
    receives. *)
Definition diffusion_weight (dx dy : Z) : option float :=
  if (dx =? 1) && (dy =? 0) then Some 7%float
  else if (dx =? -1) && (dy =? 1) then Some 3%float
  else if (dx =? 0) && (dy =? 1) then Some 5%float
  else if (dx =? 1) && (dy =? 1) then Some 1%float
  else None.

(** Threshold the pixel at [(x, y)], emit its bit, and hand its error to
    the neighbours inside the buffer: cell [j] is the pixel in column
    [j mod width] of row [j / width]. *)
Definition diffuse_pixel (width : nat) (st : list float * list Z) (xy : nat * nat)
  : list float * list Z :=
  let '(buf, bits) := st in
  let '(x, y) := xy in
  let value := number_of_slot (buf !! (y * width + x)%nat) in
  let mark := (value <? 128)%float in
  let error := if mark then (value - 0)%float else (value - 255)%float in
  let buf :=
    imap
      (fun j v =>
         match diffusion_weight (Z.of_nat (j mod width) - Z.of_nat x)
                                (Z.of_nat (j / width) - Z.of_nat y) with
         | Some k => Math_fround (v + (error * k) / 16)%float
         | None => v
         end)
      buf in
  (buf, <[(y * width + x)%nat := if mark then 1 else 0]> bits).

Definition dither_by_diffusion (buf : list float) (width height : nat)
  : list float * list Z :=
  fold_left (diffuse_pixel width) (raster_scan width height)
            (buf, replicate (width * height) 0).

(** ** Packer *)

(** The innermost loop of [packBitsMonochrome]: the byte for columns
    [bx*8 .. bx*8+7] of row [y].  A column at or beyond [width] is skipped
    ([continue]); a truthy pixel sets bit [0x80 >> bit]. *)
Definition pack_byte (bitArray : list Z) (width y bx : nat) : Z :=
  fold_left
    (fun byte bit =>
       let x := (bx * 8 + bit)%nat in
       if (width <=? x)%nat then byte
       else
         let pix := bitArray !! (y * width + x)%nat in
         if truthy pix then bor byte (shr 0x80 (Z.of_nat bit)) else byte)
    (seq 0 8) 0x00.

(** [packBitsMonochrome(bitArray, width, height)], returning
    [{ data, bytesPerRow }]. *)
Definition packBitsMonochrome (bitArray : list Z) (width height : nat)
  : list Z * nat :=
  let bytesPerRow := Math_ceil_div width 8 in
  let out := new_Uint8Array (bytesPerRow * height) in
  let out :=
    fold_left
      (fun out y =>
         fold_left
           (fun out bx =>
              <[(y * bytesPerRow + bx)%nat := to_uint8 (pack_byte bitArray width y bx)]> out)
           (seq 0 bytesPerRow) out)
      (seq 0 height) out in
  (out, bytesPerRow).

(** A single-bit pixel value. *)
Definition is_bit (z : Z) : Prop := z = 0 \/ z = 1.

(** Bit inspection as the specification writes it:
    [(packed[y*bytesPerRow + x/8] >> (7 - x%8)) & 1]. *)
Definition inspect_bit (data : list Z) (bytesPerRow x y : nat) : option Z :=
  byte ← data !! (y * bytesPerRow + x / 8)%nat;
  Some (band (shr byte (7 - Z.of_nat (x mod 8))) 1).

(** Whether column [x] of row [y] contributes a set bit. *)
Definition pixel_on (bitArray : list Z) (width y x : nat) : bool :=
  (x <? width)%nat && truthy (bitArray !! (y * width + x)%nat).

(** ** USB endpoint discovery *)

(** The parts of WebUSB's [USBEndpoint], [USBAlternateInterface] and
    [USBInterface] that [openUsbDevice] reads.  [endpoints] is optional
    because the source guards it with [if (!alt.endpoints) continue]. *)
Record USBEndpoint : Type := mkEndpoint {
  endpointNumber : Z;
  direction : string
}.

Record USBAlternateInterface : Type := mkAlternate {
  endpoints : option (list USBEndpoint)
}.

Record USBInterface : Type := mkInterface {
  interfaceNumber : Z;
  alternates : list USBAlternateInterface
}.

(** The two loop variables [ifaceNumber] and [endpointNumber]; [None] is
    [null]. *)
Record discovery : Type := mkDiscovery {
  ifaceNumber : option Z;
  found_endpointNumber : option Z
}.

(** [for (const ep of alt.endpoints) { if (ep.direction === 'out') { ...; break; } }] *)
Fixpoint scan_endpoints (cfg : USBInterface) (eps : list USBEndpoint) (st : discovery)
  : discovery :=
  match eps with
  | [] => st
  | ep :: eps =>
      if String.eqb (direction ep) "out"
      then mkDiscovery (Some (interfaceNumber cfg)) (Some (endpointNumber ep))
      else scan_endpoints cfg eps st
  end.

(** [for (const alt of cfg.alternates) { if (!alt.endpoints) continue; ...;
    if (endpointNumber !== null) break; }] *)
Fixpoint scan_alternates (cfg : USBInterface) (alts : list USBAlternateInterface)
         (st : discovery) : discovery :=
  match alts with
  | [] => st
  | alt :: alts =>
      match endpoints alt with
      | None => scan_alternates cfg alts st
      | Some eps =>
          let st := scan_endpoints cfg eps st in
          if bool_decide (found_endpointNumber st <> None) then st
          else scan_alternates cfg alts st
      end
  end.

(** [for (const cfg of device.configuration.interfaces) { ...;
    if (endpointNumber !== null) break; }] *)
Fixpoint scan_interfaces (interfaces : list USBInterface) (st : discovery) : discovery :=
  match interfaces with
  | [] => st
  | cfg :: interfaces =>
      let st := scan_alternates cfg (alternates cfg) st in
      if bool_decide (found_endpointNumber st <> None) then st
      else scan_interfaces interfaces st
  end.

(** The error of a device without OUT endpoint ([DeviceUnsupported] in
    the specification's taxonomy); [script.js] words the message
    "Could not find OUT endpoint on USB device". *)
Definition DeviceUnsupported : js_error :=
  JsError "Could not find an OUT endpoint on the selected USB device.".

(** The handle [{ device, ifaceNumber, endpointNumber }] without its
    device reference. *)
Record UsbHandle : Type := mkUsbHandle {
  handle_ifaceNumber : Z;
  handle_endpointNumber : option Z
}.

(** The endpoint discovery of [openUsbDevice], from
    [let ifaceNumber = null] to the [throw], on
    [device.configuration.interfaces].  The calls around it (choosing and
    opening the device, [claimInterface]) belong to the platform. *)
Definition openUsbDevice (interfaces : list USBInterface) : outcome UsbHandle :=
  let st := scan_interfaces interfaces (mkDiscovery None None) in
  match ifaceNumber st with
  | None => Throws DeviceUnsupported
  | Some i => Returns (mkUsbHandle i (found_endpointNumber st))
  end.

(** The endpoints of a device in declared order, interface by interface,
    alternate by alternate, each with the number of its interface. *)
Definition declared_endpoints (interfaces : list USBInterface) : list (Z * USBEndpoint) :=
  cfg ← interfaces;
  alt ← alternates cfg;
  (fun ep => (interfaceNumber cfg, ep)) <$> default [] (endpoints alt).

Definition is_out (p : Z * USBEndpoint) : Prop := direction p.2 = "out"%string.

(** The outcome of a scan, from the first OUT endpoint of a list of
    declared endpoints. *)
Definition scan_result (eps : list (Z * USBEndpoint)) (st : discovery) : discovery :=
  match find (fun p => String.eqb (direction p.2) "out") eps with
  | Some p => mkDiscovery (Some p.1) (Some (endpointNumber p.2))
  | None => st
  end.

(** A printer-like device: interface 0 with an IN-only alternate,
    interface 1 whose second endpoint is the first OUT one. *)
Definition sample_device : list USBInterface :=
  [ mkInterface 0 [ mkAlternate (Some [ mkEndpoint 1 "in" ]); mkAlternate None ];
    mkInterface 1 [ mkAlternate (Some [ mkEndpoint 2 "in"; mkEndpoint 3 "out";
                                        mkEndpoint 4 "out" ]) ];
    mkInterface 2 [ mkAlternate (Some [ mkEndpoint 5 "out" ]) ] ].

(** ** Relay socket *)

(** [WebSocket.readyState] *)
Inductive ReadyState : Type := CONNECTING | OPEN | CLOSING | CLOSED.

(** What the event loop can deliver to the code of [sendViaWebSocket]:
    the four socket events and the expiry of the [setTimeout] timer. *)
Inductive ws_event : Type := EvOpen | EvMessage | EvError | EvClose | EvTimeout.

(** The promise [sendViaWebSocket] returns. *)
Inductive promise : Type :=
| Pending
| Resolved
| Rejected (reason : ws_event).

(** The state the handlers share: the socket, the promise, and the
    buffers handed to [ws.send]. *)
Record relay : Type := mkRelay {
  readyState : ReadyState;
  settled : promise;
  sent : list (list Z)
}.

(** [resolve()] and [reject(e)]: only the first settlement counts. *)
Definition resolve (st : relay) : relay :=
  match settled st with
  | Pending => mkRelay (readyState st) Resolved (sent st)
  | _ => st
  end.

Definition reject (e : ws_event) (st : relay) : relay :=
  match settled st with
  | Pending => mkRelay (readyState st) (Rejected e) (sent st)
  | _ => st
  end.

(** [ws.close()] *)
Definition ws_close (st : relay) : relay :=
  match readyState st with
  | CLOSED => st
  | _ => mkRelay CLOSING (settled st) (sent st)
  end.

(** [ws.send(data)]: queued when the socket is open, dropped once it is
    closing or closed.  (While connecting it would throw; the source calls
    it from the [open] listener only.) *)
Definition ws_send (data : list Z) (st : relay) : relay :=
  match readyState st with
  | OPEN => mkRelay (readyState st) (settled st) (sent st ++ [data])
  | _ => st
  end.

(** The state of the socket when an event's listeners run: [open] is
    fired with the socket open; [error] and [close] are fired once the
    connection is closed. *)
Definition platform_transition (ev : ws_event) (st : relay) : relay :=
  match ev with
  | EvOpen => mkRelay OPEN (settled st) (sent st)
  | EvError | EvClose => mkRelay CLOSED (settled st) (sent st)
  | EvMessage | EvTimeout => st
  end.

(** The listeners and the timer callback of [sendViaWebSocket]. *)
Definition listener (data : list Z) (ev : ws_event) (st : relay) : relay :=
  match ev with
  | EvOpen => ws_send data st
  | EvClose => resolve st
  | EvError => reject EvError st
  | EvMessage => st
  | EvTimeout =>
      match readyState st with
      | OPEN => resolve (ws_close st)
      | _ => st
      end
  end.

Definition deliver (data : list Z) (st : relay) (ev : ws_event) : relay :=
  listener data ev (platform_transition ev st).

(** [sendViaWebSocket(wsUrl, data)] after the events [evs]: the socket
    starts connecting, the promise pending. *)
Definition sendViaWebSocket (data : list Z) (evs : list ws_event) : relay :=
  fold_left (deliver data) evs (mkRelay CONNECTING Pending []).


(** ** Rasterizer *)

(** The canvas operations [resizeCanvasNearest] calls.  They belong to
    the browser, not to the repository, and are a parameter of the
    embedding: [drawImage dest src sx sy sw sh dx dy dw dh] is the call
    [dest.getContext('2d').drawImage(src, ...)] with smoothing off, which
    returns the destination canvas or throws. *)
Record CanvasPlatform : Type := mkCanvasPlatform {
  canvas : Type;
  canvas_width : canvas -> Z;
  canvas_height : canvas -> Z;
  createElement_canvas : canvas;
  set_width : canvas -> jsint -> canvas;
  set_height : canvas -> jsint -> canvas;
  drawImage : canvas -> canvas ->
              jsint -> jsint -> jsint -> jsint ->
              jsint -> jsint -> jsint -> jsint -> outcome canvas
}.

(** [resizeCanvasNearest(srcCanvas, targetWidth, targetHeight)].  The
    body checks none of its arguments. *)
Definition resizeCanvasNearest (P : CanvasPlatform)
           (srcCanvas : canvas P) (targetWidth targetHeight : jsint)
  : outcome (canvas P) :=
  let dest := createElement_canvas P in
  let dest := set_width P dest targetWidth in
  let dest := set_height P dest targetHeight in
  drawImage P dest srcCanvas
            (Finite 0) (Finite 0)
            (Finite (canvas_width P srcCanvas)) (Finite (canvas_height P srcCanvas))
            (Finite 0) (Finite 0) targetWidth targetHeight.

(** [opts.widthDots || 384]: a missing or zero width gives 384. *)
Definition widthDots_or_default (widthDots : option Z) : Z :=
  match widthDots with
  | None | Some 0 => 384
  | Some w => w
  end.

(** The height [printElementToPrinter] and [printPaperToThermal] ask
    for: [scale = targetWidth / baseCanvas.width] and
    [targetHeight = Math.max(1, Math.round(baseCanvas.height * scale))],
    in binary64. *)
Definition targetHeight_of (baseWidth baseHeight targetWidth : Z) : jsint :=
  let scale := (number_of_Z targetWidth / number_of_Z baseWidth)%float in
  Math_max (Finite 1) (Math_round (number_of_Z baseHeight * scale)%float).

(** Steps 2 of [printElementToPrinter]: from the captured canvas to the
    resized one. *)
Definition printElementToPrinter_resize (P : CanvasPlatform)
           (widthDots : option Z) (baseCanvas : canvas P) : outcome (canvas P) :=
  let widthDots := widthDots_or_default widthDots in
  let targetWidth := widthDots in
  let targetHeight :=
    targetHeight_of (canvas_width P baseCanvas) (canvas_height P baseCanvas) targetWidth in
  resizeCanvasNearest P baseCanvas (Finite targetWidth) targetHeight.

(** The same steps of [printPaperToThermal] in [script.js], which first
    rejects a captured canvas with a zero dimension. *)
Definition printPaperToThermal_resize (P : CanvasPlatform)
           (widthDots : option Z) (baseCanvas : canvas P) : outcome (canvas P) :=
  let widthDots := widthDots_or_default widthDots in
  if (canvas_width P baseCanvas =? 0) || (canvas_height P baseCanvas =? 0)
  then Throws (JsError "Captured canvas invalid (zero width/height). Cannot print.")
  else
    let targetWidth := widthDots in
    let targetHeight :=
      targetHeight_of (canvas_width P baseCanvas) (canvas_height P baseCanvas) targetWidth in
    resizeCanvasNearest P baseCanvas (Finite targetWidth) targetHeight.

(** *** The canvas of the HTML Standard, as far as its size goes *)

Record html_canvas : Type := mkCanvas {
  width_attr : Z;
  height_attr : Z
}.

(** Conversion to [unsigned long]: non-finite values give 0, integers
    wrap modulo 2^32. *)
Definition to_unsigned_long (v : jsint) : Z :=
  match v with
  | Finite z => z mod 2 ^ 32
  | _ => 0
  end.

(** Setting a reflected dimension: a value above [2^31 - 1] is replaced
    by the attribute's default. *)
Definition reflect_dimension (v : jsint) (default : Z) : Z :=
  let u := to_unsigned_long v in
  if u <=? 2147483647 then u else default.

(** [drawImage] throws [InvalidStateError] for a source canvas with a
    zero dimension and draws otherwise. *)
Definition html_drawImage (dest src : html_canvas)
           (sx sy sw sh dx dy dw dh : jsint) : outcome html_canvas :=
  if (width_attr src =? 0) || (height_attr src =? 0)
  then Throws (DOMException "InvalidStateError")
  else Returns dest.

Definition html : CanvasPlatform :=
  mkCanvasPlatform html_canvas width_attr height_attr
    (mkCanvas 300 150)
    (fun c v => mkCanvas (reflect_dimension v 300) (height_attr c))
    (fun c v => mkCanvas (width_attr c) (reflect_dimension v 150))
    html_drawImage.

(** The specification's input check: [InvalidInput] is raised whenever the
    source width or the target width is not positive, and a canvas is
    produced otherwise. *)
Definition resize_validates_input (P : CanvasPlatform) : Prop :=
  forall (src : canvas P) (targetWidth targetHeight : Z),
    (canvas_width P src <= 0 \/ targetWidth <= 0 ->
     exists e, resizeCanvasNearest P src (Finite targetWidth) (Finite targetHeight) = Throws e) /\
    (~ (canvas_width P src <= 0 \/ targetWidth <= 0) ->
     exists c, resizeCanvasNearest P src (Finite targetWidth) (Finite targetHeight) = Returns c).

(** The specification's height: [round(height * target / width)] on the
    exact quotient, halves going up, and at least 1. *)
Definition exact_targetHeight (baseWidth baseHeight targetWidth : Z) : Z :=
  Z.max 1 ((2 * (baseHeight * targetWidth) + baseWidth) / (2 * baseWidth)).

(** ** The real value of a binary64 number

    Used to state how far the computed height is from the exact
    quotient. *)

(** [2^e] as a real number, for any integer [e]. *)
Definition bpow (e : Z) : R := powerRZ 2 e.

(** The value of a finite binary64 number. *)
Definition F2R (m : positive) (e : Z) : R := (IZR (Z.pos m) * bpow e)%R.


(** ** The encoding steps of the two print functions *)

(** [(typeof opts.mode === 'number') ? opts.mode : 0] *)
Definition mode_or_default (mode : option Z) : Z := default 0 mode.

(** Steps 3 to 6 of [printElementToPrinter], from the image data of the
    resized canvas to [finalData]: grayscale, dither, pack, frame. *)
Definition printElementToPrinter_encode (imgData : ImageData) (mode : option Z)
  : outcome (list Z) :=
  let mode := mode_or_default mode in
  let g := grayscaleImageData imgData in
  let bitArray := (floydSteinbergDither (gray g) (gray_width g) (gray_height g)).2 in
  let '(packed, bytesPerRow) := packBitsMonochrome bitArray (gray_width g) (gray_height g) in
  let escposData :=
    buildGsV0Raster (Z.of_nat bytesPerRow) (Z.of_nat (gray_height g)) packed mode in
  escposData.

(** The same steps of [printPaperToThermal], which appends three line
    feeds. *)
Definition printPaperToThermal_encode (imgData : ImageData) (mode : option Z)
  : outcome (list Z) :=
  let mode := mode_or_default mode in
  let g := grayscaleImageData imgData in
  let bitArray := (floydSteinbergDither (gray g) (gray_width g) (gray_height g)).2 in
  let '(packed, bytesPerRow) := packBitsMonochrome bitArray (gray_width g) (gray_height g) in
  bind (buildGsV0Raster (Z.of_nat bytesPerRow) (Z.of_nat (gray_height g)) packed mode)
       (fun escposData =>
  let feed := Uint8Array_of [0x0A; 0x0A; 0x0A] in
  let finalData := new_Uint8Array (length escposData + length feed) in
  bind (Uint8Array_set finalData escposData 0) (fun finalData =>
  bind (Uint8Array_set finalData feed (length escposData)) (fun finalData =>
  Returns finalData))).

(** The bit [floydSteinbergDither] writes for a buffer slot: 1 when the
    value read is below 128, 0 otherwise (also for a missing slot, which
    reads as NaN). *)
Definition threshold_bit (slot : option float) : Z :=
  if (number_of_slot slot <? 128)%float then 1 else 0.

(** A two-level value: black (0) or white (255). *)
Definition is_two_level (v : float) : Prop := v = 0%float \/ v = 255%float.

(** The compositing of one channel over white in [grayscaleImageData]:
    [c * alpha + 255 * (1 - alpha)] with [alpha = a / 255]. *)
Definition composite (c a : float) : float :=
  (c * (a / 255) + 255 * (1 - a / 255))%float.

(** The RGBA sample of pixel [p]. *)
Definition pixel_at (imgData : ImageData) (p : nat) : option (Z * Z * Z * Z) :=
  r ← data imgData !! (4 * p)%nat;
  g ← data imgData !! (4 * p + 1)%nat;
  b ← data imgData !! (4 * p + 2)%nat;
  a ← data imgData !! (4 * p + 3)%nat;
  Some (r, g, b, a).

(** The 256 byte values. *)
Definition all_bytes : list Z := Z.of_nat <$> seq 0 256.

(** The bitmap and the raster the encoding steps compute on the way. *)
Definition dithered_bits (imgData : ImageData) : list Z :=
  let g := grayscaleImageData imgData in
  (floydSteinbergDither (gray g) (gray_width g) (gray_height g)).2.

Definition raster_of (imgData : ImageData) : list Z :=
  (packBitsMonochrome (dithered_bits imgData) (width imgData) (height imgData)).1.

(** The header [1D 76 30 m xL xH yL yH] as the framer fills it. *)
Definition gs_header (mode bytesPerRow rows : Z) : list Z :=
  [0x1D; 0x76; 0x30; mode mod 256;
   bytesPerRow mod 256; bytesPerRow / 256 mod 256;
   rows mod 256; rows / 256 mod 256].

(** The raster size a printer reads back from a command:
    [xL + 256 * xH] bytes per row and [yL + 256 * yH] rows. *)
Definition declared_size (cmd : list Z) : option (Z * Z) :=
  xL ← cmd !! 4%nat; xH ← cmd !! 5%nat;
  yL ← cmd !! 6%nat; yH ← cmd !! 7%nat;
  Some (xL + 256 * xH, yL + 256 * yH).

(** An opaque black sample, and a sample that is white once composited:
    opaque white, or fully transparent whatever its colour. *)
Definition is_black_sample (px : Z * Z * Z * Z) : Prop := px = (0, 0, 0, 255).

Definition is_blank_sample (px : Z * Z * Z * Z) : Prop :=
  let '(r, g, b, a) := px in
  is_byte r /\ is_byte g /\ is_byte b /\
  (a = 0 \/ (r = 255 /\ g = 255 /\ b = 255 /\ a = 255)).


(** ** The poster text (script.js) *)

(** A string: its UTF-16 code units. *)
Definition jsstring : Type := list Z.

Definition SPACE : Z := 0x20.

(** White space and line terminators: what [String.prototype.trim]
    strips and what [\s] matches. *)
Definition is_space (c : Z) : bool :=
  existsb (Z.eqb c)
    [0x9; 0xA; 0xB; 0xC; 0xD; 0x20; 0xA0; 0x1680; 0x2028; 0x2029; 0x202F; 0x205F;
     0x3000; 0xFEFF]
  || ((0x2000 <=? c) && (c <=? 0x200A)).

Fixpoint trimStart (s : jsstring) : jsstring :=
  match s with
  | c :: s' => if is_space c then trimStart s' else s
  | [] => []
  end.

Definition trimEnd (s : jsstring) : jsstring := reverse (trimStart (reverse s)).

Definition trim (s : jsstring) : jsstring := trimEnd (trimStart s).

(** [s.split(/\s+/)]: the pieces between the maximal runs of white space;
    a run at either end leaves an empty piece there, and the empty string
    is one empty piece. *)
Fixpoint split_spaces (s : jsstring) : list jsstring :=
  match s with
  | [] => [[]]
  | c :: s' =>
      let pieces := split_spaces s' in
      if is_space c then
        match s' with
        | c' :: _ => if is_space c' then pieces else [] :: pieces
        | [] => [] :: pieces
        end
      else
        match pieces with
        | p :: rest => (c :: p) :: rest
        | [] => [[c]]
        end
  end.

(** [rnd()]: the 32-bit word [crypto.getRandomValues] delivers, over
    4294967295. *)
Definition rnd (word : Z) : float := (number_of_Z word / 4294967295)%float.

(** One turn of the [forEach] of [generate], on the lines pushed so far
    and the line being filled. *)
Definition wrap_step (st : list jsstring * jsstring) (w : jsstring)
  : list jsstring * jsstring :=
  let '(lines, line) := st in
  if (length (line ++ [SPACE] ++ w) <? 20)%nat then (lines, line ++ [SPACE] ++ w)
  else (lines ++ [trim line], w).

(** The lines [generate] cuts the words into. *)
Definition wrap_lines (words : list jsstring) : list jsstring :=
  let '(lines, line) := fold_left wrap_step words ([], []) in
  match line with
  | [] => lines
  | _ :: _ => lines ++ [trim line]
  end.

Section Generate.
(** [String.prototype.toUpperCase], and the random words in the order
    [rnd] draws them. *)
Variable toUpperCase : jsstring -> jsstring.
Variable draw : nat -> Z.

(** The words of [generate]: those of the trimmed input, some of them
    upper-cased; nothing when the input is blank. *)
Definition generate_words (value : jsstring) : option (list jsstring) :=
  let txt := trim value in
  match txt with
  | [] => None
  | _ :: _ =>
      let words := split_spaces txt in
      Some (if (rnd (draw 0) <? 0.35)%float && (3 <? length words)%nat
            then imap (fun i w => if (rnd (draw (S i)) <? 0.3)%float
                                  then toUpperCase w else w) words
            else words)
  end.

Definition generate_lines (value : jsstring) : option (list jsstring) :=
  wrap_lines <$> generate_words value.
End Generate.

(** The rule by which [generate] upper-cases the word of index [i] among
    [n] words: the first number drawn is below 0.35, there are more than
    three words, and the number drawn for the word is below 0.3. *)
Definition is_upper_cased (draw : nat -> Z) (n i : nat) : bool :=
  (rnd (draw 0%nat) <? 0.35)%float && (3 <? n)%nat && (rnd (draw (S i)) <? 0.3)%float.

(** A word: not empty and free of white space. *)
Definition is_word (w : jsstring) : Prop :=
  w <> [] /\ Forall (fun c => is_space c = false) w.

(** A blank string holds white space only; a gap is a blank string that
    is not empty. *)
Definition is_blank (s : jsstring) : Prop := Forall (fun c => is_space c = true) s.

Definition is_gap (g : jsstring) : Prop := g <> [] /\ is_blank g.

(** A first piece followed by gaps and pieces in turn. *)
Definition weave (first : jsstring) (rest : list (jsstring * jsstring)) : jsstring :=
  first ++ (rest ≫= fun gp => gp.1 ++ gp.2).

(** [pieces] are the words of the text [value]: the text is white space,
    then the words with a gap between each two, then white space. *)
Definition are_words_of (value : jsstring) (pieces : list jsstring) : Prop :=
  exists lead trail first rest,
    value = lead ++ weave first rest ++ trail /\
    is_blank lead /\ is_blank trail /\
    Forall (fun gp => is_gap gp.1) rest /\
    pieces = first :: rest.*2 /\
    Forall is_word pieces.

(** Words joined by single spaces. *)
Definition join_spaces (ws : list jsstring) : jsstring :=
  match ws with
  | [] => []
  | w :: rest => w ++ (rest ≫= fun v => SPACE :: v)
  end.

(** A string with no white space at either end. *)
Definition is_tight (s : jsstring) : Prop :=
  (exists c, head s = Some c /\ is_space c = false) /\
  (exists d, last s = Some d /\ is_space d = false).

(** The empty line [generate] pushes before a first word of 19 code
    units or more. *)
Definition leading_lines (words : list jsstring) : list jsstring :=
  match words with
  | w :: _ => if (19 <=? length w)%nat then [[]] else []
  | [] => []
  end.

(** A group of words that [generate] puts on one line: a single word, or
    words that joined by spaces take fewer than 20 code units. *)
Definition is_line_group (g : list jsstring) : Prop :=
  g <> [] /\ ((length (join_spaces g) < 20)%nat \/ exists w, g = [w]).

(** ** Random choices (script.js) *)

(** [Math.floor] *)
Definition Math_floor (x : float) : jsint :=
  match Prim2SF x with
  | S754_zero _ => Finite 0
  | S754_infinity false => PosInfinity
  | S754_infinity true => NegInfinity
  | S754_nan => NotANumber
  | S754_finite s m e =>
      let z := if s then Z.neg m else Z.pos m in
      Finite (if 0 <=? e then z * 2 ^ e else z / 2 ^ (- e))
  end.

(** [a[k]] for a number [k]: the element when [k] is an index of the
    array, [undefined] otherwise. *)
Definition element_at {A : Type} (a : list A) (k : jsint) : option A :=
  match k with
  | Finite z => if 0 <=? z then a !! Z.to_nat z else None
  | _ => None
  end.

(** [pick(a)], on the random word drawn. *)
Definition pick {A : Type} (a : list A) (word : Z) : option A :=
  element_at a (Math_floor (rnd word * number_of_Z (Z.of_nat (length a)))).

(** ** Relay socket: counting the [open] events *)

Definition is_open_event (ev : ws_event) : bool :=
  match ev with
  | EvOpen => true
  | _ => false
  end.

Definition opens (evs : list ws_event) : nat := length (List.filter is_open_event evs).

(** ** Serial transport *)

(** What a call into the Web Serial API can throw or reject with. *)
Inductive io_error : Type :=
| TypeError
| DomError (name : string).

Inductive io_result (A : Type) : Type :=
| Done (a : A)
| Failed (e : io_error).

Arguments Done {A} a.
Arguments Failed {A} e.

(** A computation on a port: it changes the port and returns or
    throws. *)
Definition io (S A : Type) : Type := S -> S * io_result A.

Definition io_ret {S A : Type} (a : A) : io S A := fun s => (s, Done a).

Definition io_bind {S A B : Type} (m : io S A) (k : A -> io S B) : io S B :=
  fun s =>
    match m s with
    | (s', Done a) => k a s'
    | (s', Failed e) => (s', Failed e)
    end.

Definition io_throw {S A : Type} (e : io_error) : io S A := fun s => (s, Failed e).

(** [try { body } finally { fin }]: [fin] runs however [body] ends, and
    what it throws replaces the completion of [body]. *)
Definition try_finally {S A : Type} (body : io S A) (fin : io S unit) : io S A :=
  fun s =>
    let '(s1, r) := body s in
    match fin s1 with
    | (s2, Done _) => (s2, r)
    | (s2, Failed e) => (s2, Failed e)
    end.

Notation "'do' x <- m ; k" := (io_bind m (fun x => k))
  (at level 10, x name, m at level 100, k at level 200).

(** The operations of a [SerialPort] the print functions call.  They
    belong to the browser and are a parameter of the embedding:
    [port_readable] and [port_writable] tell whether [port.readable] and
    [port.writable] are not null. *)
Record SerialPlatform : Type := mkSerialPlatform {
  port : Type;
  port_readable : port -> bool;
  port_writable : port -> bool;
  port_open : Z -> io port unit;
  writable_getWriter : io port unit;
  writer_write : list Z -> io port unit;
  writer_releaseLock : io port unit;
  port_close : io port unit
}.

(** [port.writable.getWriter()]: reading a property of [null] throws a
    [TypeError]. *)
Definition getWriter_of_writable (P : SerialPlatform) : io (port P) unit :=
  fun p => if port_writable P p then writable_getWriter P p else (p, Failed TypeError).

(** [sendToSerial(port, data)] of [script.js] *)
Definition sendToSerial (P : SerialPlatform) (data : list Z) : io (port P) unit :=
  fun p =>
    let openOptions := 19200 in
    (do _ <- (if negb (port_readable P p) || negb (port_writable P p)
              then port_open P openOptions else io_ret tt);
     do _ <- getWriter_of_writable P;
     try_finally (writer_write P data) (writer_releaseLock P)) p.

(** The serial branch of [printElementToPrinter] in [escpos-printer.js],
    from the port on: [serialOptions] is the baud rate of
    [opts.serialOptions].  The test of [port.readable] and
    [port.writable] guards an empty block, so the port is opened in any
    case. *)
Definition printElementToPrinter_serial (P : SerialPlatform)
           (serialOptions : option Z) (closeSerialAfterPrint : bool) (finalData : list Z)
  : io (port P) unit :=
  let openOptions := default 19200 serialOptions in
  do _ <- port_open P openOptions;
  do _ <- getWriter_of_writable P;
  try_finally (writer_write P finalData)
              (do _ <- writer_releaseLock P;
               if closeSerialAfterPrint then port_close P else io_ret tt).

(** Print jobs sent one after the other to the same port, each when the
    one before has settled, with what each of them returned. *)
Fixpoint run_jobs {S : Type} (print : list Z -> io S unit) (jobs : list (list Z)) (s : S)
  : S * list (io_result unit) :=
  match jobs with
  | [] => (s, [])
  | job :: rest =>
      let '(s1, r) := print job s in
      let '(s2, rs) := run_jobs print rest s1 in
      (s2, r :: rs)
  end.

(** *** The port of the Web Serial API, with a device that stays
    connected *)

Record web_port : Type := mkWebPort {
  port_opened : bool;
  writer_locked : bool;
  received : list (list Z)
}.

(** [open] rejects with [InvalidStateError] unless the port is closed,
    and with a [TypeError] for a baud rate of 0. *)
Definition web_open (baudRate : Z) : io web_port unit :=
  fun p =>
    if port_opened p then (p, Failed (DomError "InvalidStateError"))
    else if baudRate =? 0 then (p, Failed TypeError)
    else (mkWebPort true false (received p), Done tt).

(** [getWriter] throws a [TypeError] on a locked stream. *)
Definition web_getWriter : io web_port unit :=
  fun p =>
    if writer_locked p then (p, Failed TypeError)
    else (mkWebPort (port_opened p) true (received p), Done tt).

Definition web_write (data : list Z) : io web_port unit :=
  fun p => (mkWebPort (port_opened p) (writer_locked p) (received p ++ [data]), Done tt).

Definition web_releaseLock : io web_port unit :=
  fun p => (mkWebPort (port_opened p) false (received p), Done tt).

(** [close] rejects with [InvalidStateError] unless the port is opened,
    and with a [TypeError] while a stream is locked. *)
Definition web_close : io web_port unit :=
  fun p =>
    if negb (port_opened p) then (p, Failed (DomError "InvalidStateError"))
    else if writer_locked p then (p, Failed TypeError)
    else (mkWebPort false false (received p), Done tt).

Definition web_serial : SerialPlatform :=
  mkSerialPlatform web_port port_opened port_opened
                   web_open web_getWriter web_write web_releaseLock web_close.
(* ===================================================================== *)
(** * Theorems *)
(* ===================================================================== *)

Lemma to_int32_testbit (z i : Z) :
  0 <= i < 32 -> Z.testbit (to_int32 z) i = Z.testbit z i.
Proof.
  intros Hi. unfold to_int32.
  replace ((z + 2 ^ 31) mod 2 ^ 32 - 2 ^ 31)
    with (z - 2 ^ 32 * ((z + 2 ^ 31) / 2 ^ 32)).
  2:{ pose proof (Z.div_mod (z + 2 ^ 31) (2 ^ 32) ltac:(lia)). lia. }
  replace (z - 2 ^ 32 * ((z + 2 ^ 31) / 2 ^ 32))
    with (z + (- ((z + 2 ^ 31) / 2 ^ 32)) * 2 ^ 32) by ring.
  rewrite <- (Z.mod_pow2_bits_low _ 32 i) by lia.
  rewrite Z.mod_add by lia.
  apply Z.mod_pow2_bits_low. lia.
Qed.

Lemma band_low_byte (z : Z) : band z 0xFF = Z.land z 0xFF.
Proof.
  unfold band. apply Z.bits_inj'. intros i Hi.
  rewrite !Z.land_spec.
  destruct (Z_lt_dec i 32).
  - rewrite !to_int32_testbit by lia. reflexivity.
  - replace (to_int32 255) with 255 by reflexivity.
    replace (Z.testbit 255 i) with false; [now rewrite !andb_false_r |].
    symmetry. apply (Z.bits_above_log2 255 i); [lia |].
    change (Z.log2 255) with 7. lia.
Qed.

Lemma band_shr_byte (z : Z) : band (shr z 8) 0xFF = Z.land (Z.shiftr z 8) 0xFF.
Proof.
  rewrite band_low_byte. unfold shr. change (8 mod 32) with 8.
  apply Z.bits_inj'. intros i Hi.
  rewrite !Z.land_spec, !Z.shiftr_spec by lia.
  destruct (Z_lt_dec i 8).
  - rewrite to_int32_testbit by lia. reflexivity.
  - replace (Z.testbit 255 i) with false; [now rewrite !andb_false_r |].
    symmetry. apply (Z.bits_above_log2 255 i); [lia |].
    change (Z.log2 255) with 7. lia.
Qed.

Lemma land_255_byte (z : Z) : is_byte (Z.land z 0xFF).
Proof.
  unfold is_byte. change 0xFF with (Z.ones 8). rewrite Z.land_ones by lia.
  apply Z.mod_pos_bound. lia.
Qed.

Lemma to_uint8_byte (z : Z) : is_byte z -> to_uint8 z = z.
Proof. unfold is_byte, to_uint8. intros. apply Z.mod_small. lia. Qed.

Lemma fmap_to_uint8_bytes (l : list Z) : Forall is_byte l -> to_uint8 <$> l = l.
Proof.
  induction 1 as [|z l Hz _ IH]; [reflexivity |].
  cbn. rewrite to_uint8_byte by assumption. now rewrite IH.
Qed.

Lemma to_uint8_idemp (z : Z) : to_uint8 (to_uint8 z) = to_uint8 z.
Proof. unfold to_uint8. apply Z.mod_mod. lia. Qed.

(** The two [set] calls never overflow the freshly sized buffer: the
    framer returns the converted header followed by the converted data. *)
Lemma buildGsV0Raster_eq (bytesPerRow height : Z) (bitmapData : list Z) (mode : Z) :
  buildGsV0Raster bytesPerRow height bitmapData mode =
  Returns (Uint8Array_of [0x1D; 0x76; 0x30; mode;
                          band bytesPerRow 0xFF; band (shr bytesPerRow 8) 0xFF;
                          band height 0xFF; band (shr height 8) 0xFF]
           ++ (to_uint8 <$> bitmapData)).
Proof.
  unfold buildGsV0Raster, Uint8Array_of, new_Uint8Array.
  set (header := to_uint8 <$> _).
  assert (Hh : to_uint8 <$> header = header).
  { unfold header. rewrite <- list_fmap_compose.
    apply list_fmap_ext. intros _ z _. apply to_uint8_idemp. }
  change (length header) with 8%nat.
  unfold Uint8Array_set at 1.
  change (length header) with 8%nat. rewrite length_replicate.
  destruct (decide _) as [_|Hn]; [| exfalso; lia].
  cbn [bind]. rewrite take_0, app_nil_l, Hh, drop_replicate.
  replace (8 + length bitmapData - (0 + 8))%nat with (length bitmapData) by lia.
  unfold Uint8Array_set.
  rewrite length_app, length_replicate.
  change (length header) with 8%nat.
  destruct (decide _) as [_|Hn]; [| exfalso; lia].
  cbn [bind]. f_equal.
  rewrite (take_app_length' header) by reflexivity.
  rewrite (drop_app_add' header) by reflexivity.
  rewrite drop_replicate, Nat.sub_diag. cbn [replicate].
  now rewrite app_nil_r.
Qed.

(** C1. For a mode byte and packed bytes, [buildGsV0Raster] returns
    exactly the eight header bytes
    [1D 76 30 mode xL xH yL yH], where [xL], [xH] are the low and high byte
    of [bytesPerRow] and [yL], [yH] those of [height], followed by the
    packed bytes unchanged; with [bytesPerRow = 48], [height = 100] and
    [mode = 0] the header is [1D 76 30 00 30 00 64 00]. *)
Theorem buildGsV0Raster_header_and_payload
  (bytesPerRow height mode : Z) (bitmapData : list Z) :
  is_byte mode ->
  Forall is_byte bitmapData ->
  buildGsV0Raster bytesPerRow height bitmapData mode =
    Returns ([0x1D; 0x76; 0x30; mode;
              Z.land bytesPerRow 0xFF; Z.land (Z.shiftr bytesPerRow 8) 0xFF;
              Z.land height 0xFF; Z.land (Z.shiftr height 8) 0xFF]
             ++ bitmapData)
  /\ (bytesPerRow = 48 -> height = 100 -> mode = 0 ->
      exists out,
        buildGsV0Raster bytesPerRow height bitmapData mode = Returns out /\
        take 8 out = [0x1D; 0x76; 0x30; 0x00; 0x30; 0x00; 0x64; 0x00] /\
        drop 8 out = bitmapData).
Proof.
  intros Hmode Hdata.
  assert (Heq : buildGsV0Raster bytesPerRow height bitmapData mode =
    Returns ([0x1D; 0x76; 0x30; mode;
              Z.land bytesPerRow 0xFF; Z.land (Z.shiftr bytesPerRow 8) 0xFF;
              Z.land height 0xFF; Z.land (Z.shiftr height 8) 0xFF]
             ++ bitmapData)).
  { rewrite buildGsV0Raster_eq, !band_shr_byte, !band_low_byte.
    rewrite (fmap_to_uint8_bytes bitmapData) by assumption.
    unfold Uint8Array_of. rewrite fmap_to_uint8_bytes; [reflexivity |].
    repeat (apply Forall_cons; split);
      try apply land_255_byte; try assumption; try (unfold is_byte; lia).
    apply Forall_nil_2. }
  split; [exact Heq |].
  intros -> -> ->. eexists. split; [exact Heq |].
  split; reflexivity.
Qed.

Lemma buildGsV0Raster_header_and_payload_witness :
  buildGsV0Raster 48 100 [0xFF; 0x00; 0x81] 0 =
    Returns [0x1D; 0x76; 0x30; 0x00; 0x30; 0x00; 0x64; 0x00; 0xFF; 0x00; 0x81].
Proof.
  refine (proj1 (buildGsV0Raster_header_and_payload 48 100 0 [0xFF; 0x00; 0x81] _ _)).
  - unfold is_byte. lia.
  - repeat constructor; lia.
Defined.

(** C4, counterexample.  With [bytesPerRow = 0x10000] the framer returns a
    command buffer whose width field reads zero: nothing is thrown. *)
Lemma buildGsV0Raster_overflow_not_rejected :
  buildGsV0Raster 0x10000 1 [] 0 = Returns [0x1D; 0x76; 0x30; 0; 0; 0; 1; 0]
  /\ ~ framer_rejects_overflow.
Proof.
  split; [reflexivity |].
  intros H. destruct (H 0x10000 1 [] 0) as [e He]; [left; lia |].
  discriminate He.
Qed.

(** C4, amended.  [buildGsV0Raster] never throws: for every
    [bytesPerRow] and [height], also above [0xFFFF], it returns the header
    followed by the data, and the two size fields keep only
    [bytesPerRow mod 65536] and [height mod 65536], low byte first. *)
Theorem buildGsV0Raster_total_truncating
  (bytesPerRow height mode : Z) (bitmapData : list Z) :
  buildGsV0Raster bytesPerRow height bitmapData mode =
    Returns ([0x1D; 0x76; 0x30; mode mod 256;
              bytesPerRow mod 256; bytesPerRow / 256 mod 256;
              height mod 256; height / 256 mod 256]
             ++ ((fun z => z mod 256) <$> bitmapData))
  /\ bytesPerRow mod 256 + 256 * (bytesPerRow / 256 mod 256) = bytesPerRow mod 65536
  /\ height mod 256 + 256 * (height / 256 mod 256) = height mod 65536.
Proof.
  assert (Hsplit : forall z, z mod 256 + 256 * (z / 256 mod 256) = z mod 65536).
  { intros z. rewrite (Z.mod_eq z 65536) by lia.
    pose proof (Z.div_mod z 256 ltac:(lia)).
    pose proof (Z.div_mod (z / 256) 256 ltac:(lia)).
    rewrite Z.div_div in * by lia. change (256 * 256) with 65536 in *. lia. }
  split; [| split; apply Hsplit].
  rewrite buildGsV0Raster_eq, !band_shr_byte, !band_low_byte.
  unfold Uint8Array_of. cbn [fmap list_fmap].
  rewrite !(to_uint8_byte _ (land_255_byte _)).
  change 0xFF with (Z.ones 8). rewrite !Z.land_ones, !Z.shiftr_div_pow2 by lia.
  reflexivity.
Qed.

(** *** Packer *)

Lemma fold_left_ext_eq {A B : Type} (f g : A -> B -> A) (l : list B) (a : A) :
  (forall a b, f a b = g a b) -> fold_left f l a = fold_left g l a.
Proof.
  intros Hfg. revert a. induction l as [|b l IH]; intros a; [reflexivity |].
  cbn. rewrite Hfg. apply IH.
Qed.

Lemma pack_byte_unfold (bitArray : list Z) (width y bx : nat) :
  pack_byte bitArray width y bx =
  fold_left
    (fun byte bit =>
       if pixel_on bitArray width y (bx * 8 + bit)
       then bor byte (shr 0x80 (Z.of_nat bit)) else byte)
    (seq 0 8) 0.
Proof.
  unfold pack_byte. apply fold_left_ext_eq. intros byte bit. unfold pixel_on.
  destruct (Nat.leb_spec width (bx * 8 + bit)) as [Hle|Hlt].
  - destruct (Nat.ltb_spec (bx * 8 + bit) width); [lia | reflexivity].
  - destruct (Nat.ltb_spec (bx * 8 + bit) width); [reflexivity | lia].
Qed.

Lemma to_int32_small (z : Z) : - 2 ^ 31 <= z < 2 ^ 31 -> to_int32 z = z.
Proof. intros Hz. unfold to_int32. rewrite Z.mod_small; lia. Qed.

Lemma shr_0x80 (bit : nat) :
  (bit < 8)%nat -> shr 0x80 (Z.of_nat bit) = 2 ^ (7 - Z.of_nat bit).
Proof. intros Hb. do 8 (destruct bit as [|bit]; [reflexivity |]). lia. Qed.

Lemma bor_bytes (a b : Z) : is_byte a -> is_byte b -> bor a b = Z.lor a b /\ is_byte (Z.lor a b).
Proof.
  unfold is_byte. intros Ha Hb. unfold bor.
  rewrite !to_int32_small by lia. split; [reflexivity |].
  split; [apply Z.lor_nonneg; lia |].
  destruct (Z.eq_dec (Z.lor a b) 0) as [->|Hne]; [lia |].
  assert (0 <= Z.lor a b) by (apply Z.lor_nonneg; lia).
  apply (Z.log2_lt_pow2 _ 8); [lia |].
  rewrite Z.log2_lor by lia.
  apply Z.max_lub_lt.
  - destruct (Z.eq_dec a 0) as [->|]; [cbn; lia |]. apply Z.log2_lt_pow2; lia.
  - destruct (Z.eq_dec b 0) as [->|]; [cbn; lia |]. apply Z.log2_lt_pow2; lia.
Qed.

(** The accumulation loop sets exactly the bits of the flagged columns:
    bit [7 - bit] for column offset [bit]. *)
Lemma pack_fold_testbit (P : nat -> bool) (l : list nat) (acc : Z) :
  is_byte acc ->
  Forall (fun bit => (bit < 8)%nat) l ->
  let r := fold_left
             (fun byte bit => if P bit then bor byte (shr 0x80 (Z.of_nat bit)) else byte)
             l acc in
  is_byte r /\
  forall j, 0 <= j ->
    Z.testbit r j =
    Z.testbit acc j || existsb (fun bit => P bit && (j =? 7 - Z.of_nat bit)) l.
Proof.
  intros Hacc Hl. revert acc Hacc.
  induction Hl as [|bit l Hbit _ IH]; intros acc Hacc; cbn.
  - split; [assumption |]. intros j _. now rewrite orb_false_r.
  - assert (Hpow : is_byte (2 ^ (7 - Z.of_nat bit))).
    { unfold is_byte. split; [apply Z.pow_nonneg; lia |].
      change 256 with (2 ^ 8). apply Z.pow_lt_mono_r; lia. }
    destruct (P bit) eqn:HP; cbn.
    + rewrite shr_0x80 by assumption.
      destruct (bor_bytes acc _ Hacc Hpow) as [-> Hb].
      destruct (IH _ Hb) as [Hr Hbits]. split; [exact Hr |].
      intros j Hj. rewrite Hbits by assumption.
      rewrite Z.lor_spec, Z.pow2_bits_eqb by lia.
      rewrite (Z.eqb_sym (7 - Z.of_nat bit) j). now rewrite orb_assoc.
    + apply IH. assumption.
Qed.

Lemma pack_byte_spec (bitArray : list Z) (width y bx : nat) :
  is_byte (pack_byte bitArray width y bx) /\
  forall k, (k < 8)%nat ->
    Z.testbit (pack_byte bitArray width y bx) (7 - Z.of_nat k) =
    pixel_on bitArray width y (bx * 8 + k).
Proof.
  rewrite pack_byte_unfold.
  destruct (pack_fold_testbit (fun bit => pixel_on bitArray width y (bx * 8 + bit))
              (seq 0 8) 0) as [Hb Hbits].
  { unfold is_byte. lia. }
  { apply Forall_forall. intros bit Hin. apply elem_of_seq in Hin. lia. }
  split; [exact Hb |].
  intros k Hk. rewrite Hbits by lia. rewrite Z.bits_0, orb_false_l.
  do 8 (destruct k as [|k];
        [cbn [seq existsb]; cbn [Z.of_nat Z.sub Z.eqb Z.opp Z.add Z.pos_sub Pos.of_succ_nat
                                 Pos.succ Pos.pred_double Pos.eqb Z.succ_double Z.pred_double Z.double];
         rewrite ?andb_false_r, ?andb_true_r, ?orb_false_r, ?orb_false_l; reflexivity |]).
  lia.
Qed.

(** A loop of stores at consecutive indices [base .. base+n-1]. *)
Lemma store_loop_length {A : Type} (g : nat -> A) (base : nat) (ks : list nat) (out : list A) :
  length (fold_left (fun out k => <[(base + k)%nat := g k]> out) ks out) = length out.
Proof.
  revert out. induction ks as [|k ks IH]; intros out; cbn; [reflexivity |].
  now rewrite IH, length_insert.
Qed.

Lemma store_loop_lookup {A : Type} (g : nat -> A) (base n : nat) (out : list A) (i : nat) :
  fold_left (fun out k => <[(base + k)%nat := g k]> out) (seq 0 n) out !! i =
  if decide (base <= i < base + n /\ i < length out)%nat
  then Some (g (i - base)%nat) else out !! i.
Proof.
  induction n as [|n IH].
  - cbn. destruct (decide _) as [H|_]; [exfalso; lia | reflexivity].
  - rewrite seq_S, fold_left_app. cbn [fold_left Nat.add].
    rewrite Nat.add_succ_r.
    destruct (decide (i = base + n)%nat) as [->|Hne].
    + destruct (decide (base + n < length out)%nat) as [Hlt|Hge].
      * rewrite list_lookup_insert_eq by (rewrite store_loop_length; lia).
        clear IH. destruct (decide _) as [_|Hn]; [| exfalso; lia].
        f_equal. f_equal. lia.
      * rewrite list_insert_ge by (rewrite store_loop_length; lia).
        rewrite IH. clear IH. repeat destruct (decide _); try (exfalso; lia); reflexivity.
    + rewrite list_lookup_insert_ne by lia. rewrite IH. clear IH.
      repeat destruct (decide _); try (exfalso; lia); reflexivity.
Qed.

(** The two nested store loops of the packer, over any cell function. *)
Lemma raster_loop_length {A : Type} (g : nat -> nat -> A) (bpr : nat) (ys : list nat) (out : list A) :
  length (fold_left
            (fun out y =>
               fold_left (fun out bx => <[(y * bpr + bx)%nat := g y bx]> out) (seq 0 bpr) out)
            ys out) = length out.
Proof.
  revert out. induction ys as [|y ys IH]; intros out; cbn; [reflexivity |].
  now rewrite IH, store_loop_length.
Qed.

Lemma raster_loop_lookup {A : Type} (g : nat -> nat -> A) (bpr h : nat) (out : list A) (i : nat) :
  fold_left
    (fun out y =>
       fold_left (fun out bx => <[(y * bpr + bx)%nat := g y bx]> out) (seq 0 bpr) out)
    (seq 0 h) out !! i =
  if decide (i < bpr * h /\ i < length out)%nat
  then Some (g (i / bpr)%nat (i mod bpr)%nat) else out !! i.
Proof.
  induction h as [|h IH].
  - cbn. destruct (decide _) as [H|_]; [exfalso; lia | reflexivity].
  - rewrite seq_S, fold_left_app. cbn [fold_left Nat.add].
    rewrite store_loop_lookup, raster_loop_length, IH. clear IH.
    rewrite Nat.mul_succ_r, (Nat.mul_comm bpr h).
    destruct (decide (h * bpr <= i < h * bpr + bpr /\ i < length out)%nat) as [[Hi Hlen]|Hn].
    + destruct (decide _) as [_|Hn]; [| exfalso; lia].
      assert (Hb : (0 < bpr)%nat) by lia.
      assert (Hdiv : (i / bpr = h)%nat).
      { symmetry. apply (Nat.div_unique i bpr h (i - h * bpr)); lia. }
      assert (Hmod : (i mod bpr = i - h * bpr)%nat).
      { symmetry. apply (Nat.mod_unique i bpr h (i - h * bpr)); lia. }
      now rewrite Hdiv, Hmod.
    + repeat destruct (decide _); try (exfalso; lia); reflexivity.
Qed.

Lemma packBitsMonochrome_length (bitArray : list Z) (width height : nat) :
  length (packBitsMonochrome bitArray width height).1 =
  ((packBitsMonochrome bitArray width height).2 * height)%nat.
Proof.
  unfold packBitsMonochrome. cbn [fst snd].
  rewrite raster_loop_length. unfold new_Uint8Array. now rewrite length_replicate.
Qed.

Lemma packBitsMonochrome_lookup (bitArray : list Z) (width height y bx : nat) :
  (y < height)%nat -> (bx < Math_ceil_div width 8)%nat ->
  (packBitsMonochrome bitArray width height).1 !! (y * Math_ceil_div width 8 + bx)%nat =
  Some (pack_byte bitArray width y bx).
Proof.
  intros Hy Hbx. unfold packBitsMonochrome. cbn [fst].
  set (bpr := Math_ceil_div width 8) in *.
  rewrite (raster_loop_lookup (fun y bx => to_uint8 (pack_byte bitArray width y bx))).
  unfold new_Uint8Array. rewrite length_replicate.
  assert (Hdiv : ((y * bpr + bx) / bpr = y)%nat).
  { symmetry. apply (Nat.div_unique _ bpr y bx); lia. }
  assert (Hmod : ((y * bpr + bx) mod bpr = bx)%nat).
  { symmetry. apply (Nat.mod_unique _ bpr y bx); lia. }
  destruct (decide _) as [_|Hn]; [| exfalso; nia].
  rewrite Hdiv, Hmod. f_equal.
  apply to_uint8_byte, pack_byte_spec.
Qed.

Lemma Math_ceil_div_8 (width : nat) :
  (width <= 8 * Math_ceil_div width 8 < width + 8)%nat.
Proof.
  unfold Math_ceil_div. cbn [Nat.sub].
  pose proof (Nat.div_mod (width + 7) 8 ltac:(lia)).
  pose proof (Nat.mod_upper_bound (width + 7) 8 ltac:(lia)).
  lia.
Qed.

(** Bit inspection of the packed raster reads the pixel flag back, for
    every column below [8 * bytesPerRow]. *)
Lemma inspect_bit_packed (bitArray : list Z) (width height x y : nat) :
  (y < height)%nat -> (x < 8 * Math_ceil_div width 8)%nat ->
  inspect_bit (packBitsMonochrome bitArray width height).1
              (Math_ceil_div width 8) x y =
  Some (if pixel_on bitArray width y x then 1 else 0).
Proof.
  intros Hy Hx. unfold inspect_bit.
  pose proof (Nat.div_mod x 8 ltac:(lia)) as Hdm.
  pose proof (Nat.mod_upper_bound x 8 ltac:(lia)) as Hm.
  rewrite packBitsMonochrome_lookup by (try assumption; lia).
  cbn [mbind option_bind]. f_equal.
  destruct (pack_byte_spec bitArray width y (x / 8)) as [Hb Hbits].
  specialize (Hbits (x mod 8)%nat Hm).
  replace (x / 8 * 8 + x mod 8)%nat with x in Hbits by lia.
  rewrite <- Hbits.
  set (byte := pack_byte bitArray width y (x / 8)) in *.
  set (s := 7 - Z.of_nat (x mod 8)).
  assert (Hs : 0 <= s < 8) by (unfold s; lia).
  unfold band, shr. unfold is_byte in Hb.
  rewrite (to_int32_small byte) by lia.
  rewrite (Z.mod_small s 32) by lia.
  assert (Hsh : 0 <= Z.shiftr byte s < 256).
  { rewrite Z.shiftr_div_pow2 by lia. split.
    - apply Z.div_pos; [lia | apply Z.pow_pos_nonneg; lia].
    - apply Z.div_lt_upper_bound; [apply Z.pow_pos_nonneg; lia |].
      assert (0 < 2 ^ s) by (apply Z.pow_pos_nonneg; lia). nia. }
  rewrite (to_int32_small (Z.shiftr byte s)) by lia.
  change (to_int32 1) with (Z.ones 1).
  rewrite Z.land_ones by lia. change (2 ^ 1) with 2.
  rewrite <- Z.bit0_mod, Z.shiftr_spec by lia.
  rewrite Z.add_0_l. now destruct (Z.testbit byte s).
Qed.

(** C3. For a bitmap of [width * height] entries, each 0 or 1, with
    [width >= 1] and [height >= 1], [packBitsMonochrome] yields
    [bytesPerRow = ceil(width / 8)] bytes per row, [bytesPerRow * height]
    bytes in all; inspecting bit [7 - x mod 8] of byte
    [y * bytesPerRow + x / 8] gives back the entry of row [y], column [x]
    for every [x < width], and gives 0 for the padding columns
    [width <= x < 8 * bytesPerRow]. *)
Theorem packBitsMonochrome_roundtrip (bitArray : list Z) (width height : nat) :
  (1 <= width)%nat -> (1 <= height)%nat ->
  length bitArray = (width * height)%nat ->
  Forall is_bit bitArray ->
  let data := (packBitsMonochrome bitArray width height).1 in
  let bytesPerRow := (packBitsMonochrome bitArray width height).2 in
  (width <= 8 * bytesPerRow < width + 8)%nat /\
  length data = (bytesPerRow * height)%nat /\
  (forall x y, (x < width)%nat -> (y < height)%nat ->
     inspect_bit data bytesPerRow x y = bitArray !! (y * width + x)%nat) /\
  (forall x y, (width <= x < 8 * bytesPerRow)%nat -> (y < height)%nat ->
     inspect_bit data bytesPerRow x y = Some 0).
Proof.
  intros Hw Hh Hlen Hbits data bytesPerRow.
  assert (Hbpr : bytesPerRow = Math_ceil_div width 8) by reflexivity.
  pose proof (Math_ceil_div_8 width) as Hceil. rewrite <- Hbpr in Hceil.
  split; [exact Hceil |].
  split; [apply packBitsMonochrome_length |].
  split.
  - intros x y Hx Hy. unfold data. rewrite Hbpr.
    rewrite inspect_bit_packed by (try assumption; rewrite <- Hbpr; lia).
    unfold pixel_on.
    destruct (Nat.ltb_spec x width) as [_|?]; [| lia]. cbn [andb].
    assert (Hidx : (y * width + x < length bitArray)%nat) by nia.
    destruct (lookup_lt_is_Some_2 _ _ Hidx) as [b Hb].
    rewrite Hb. cbn [truthy]. f_equal.
    rewrite Forall_lookup in Hbits.
    destruct (Hbits _ _ Hb) as [-> | ->]; reflexivity.
  - intros x y Hx Hy. unfold data. rewrite Hbpr.
    rewrite inspect_bit_packed by (try assumption; rewrite <- Hbpr; lia).
    unfold pixel_on.
    destruct (Nat.ltb_spec x width) as [?|_]; [lia | reflexivity].
Qed.

Lemma packBitsMonochrome_roundtrip_witness :
  inspect_bit (packBitsMonochrome [1; 0; 1; 1; 0; 0; 0; 1; 1; 1] 10 1).1 2 9 0 = Some 1
  /\ inspect_bit (packBitsMonochrome [1; 0; 1; 1; 0; 0; 0; 1; 1; 1] 10 1).1 2 13 0 = Some 0.
Proof.
  assert (Hbits : Forall is_bit [1; 0; 1; 1; 0; 0; 0; 1; 1; 1]).
  { repeat constructor; unfold is_bit; lia. }
  destruct (packBitsMonochrome_roundtrip [1; 0; 1; 1; 0; 0; 0; 1; 1; 1] 10 1
              ltac:(lia) ltac:(lia) eq_refl Hbits) as (_ & _ & Hin & Hpad).
  split.
  - exact (Hin 9%nat 0%nat ltac:(lia) ltac:(lia)).
  - apply (Hpad 13%nat 0%nat); cbn; lia.
Defined.

(** C10. [packBitsMonochrome] takes any array: for every column
    [x < width] of every row [y < height] the packed bit is 1 exactly when
    the entry at index [y * width + x] exists and is nonzero, and 0
    otherwise; an entry such as 2 or 255 marks the pixel like 1 does. *)
Theorem packBitsMonochrome_nonzero_is_mark (bitArray : list Z) (width height x y : nat) :
  (x < width)%nat -> (y < height)%nat ->
  let data := (packBitsMonochrome bitArray width height).1 in
  let bytesPerRow := (packBitsMonochrome bitArray width height).2 in
  (inspect_bit data bytesPerRow x y = Some 1 <->
   exists v, bitArray !! (y * width + x)%nat = Some v /\ v <> 0) /\
  (inspect_bit data bytesPerRow x y = Some 0 <->
   bitArray !! (y * width + x)%nat = None \/ bitArray !! (y * width + x)%nat = Some 0).
Proof.
  intros Hx Hy data bytesPerRow.
  assert (Hbpr : bytesPerRow = Math_ceil_div width 8) by reflexivity.
  pose proof (Math_ceil_div_8 width) as Hceil.
  unfold data. rewrite Hbpr.
  rewrite inspect_bit_packed by (try assumption; lia).
  unfold pixel_on.
  destruct (Nat.ltb_spec x width) as [_|?]; [| lia]. cbn [andb].
  destruct (bitArray !! (y * width + x)%nat) as [v|]; cbn [truthy].
  - destruct (Z.eqb_spec v 0) as [->|Hv]; cbn [negb].
    + split; split; try discriminate; try (intros _; now right).
      * intros (v & [= <-] & Hv). now contradiction Hv.
      * reflexivity.
    + split; split; try discriminate.
      * intros _. now exists v.
      * reflexivity.
      * intros [H|[= H]]; [discriminate | contradiction].
  - split; split; try discriminate.
    + intros (v & H & _). discriminate.
    + intros _. now left.
    + reflexivity.
Qed.

Lemma packBitsMonochrome_nonzero_is_mark_witness :
  inspect_bit (packBitsMonochrome [0; 2; 255; 0; 1; 0; 0; 7] 8 1).1 1 2 0 = Some 1.
Proof.
  apply (packBitsMonochrome_nonzero_is_mark [0; 2; 255; 0; 1; 0; 0; 7] 8 1 2 0
           ltac:(lia) ltac:(lia)).
  exists 255. split; [reflexivity | lia].
Defined.

(** The scenarios of the specification: an 8x1 all-black row packs to
    [0xFF], an all-white one to [0x00], and a 10x1 row packs to two bytes
    whose last six bits are clear. *)
Example pack_8x1_black :
  packBitsMonochrome [1; 1; 1; 1; 1; 1; 1; 1] 8 1 = ([0xFF], 1%nat).
Proof. reflexivity. Qed.

Example pack_8x1_white :
  packBitsMonochrome [0; 0; 0; 0; 0; 0; 0; 0] 8 1 = ([0x00], 1%nat).
Proof. reflexivity. Qed.

Example pack_10x1 :
  packBitsMonochrome [1; 1; 1; 1; 1; 1; 1; 1; 1; 1] 10 1 = ([0xFF; 0xC0], 2%nat).
Proof. reflexivity. Qed.

(** *** Luminance converter *)

Lemma Math_ceil_div_4 (n : nat) : Math_ceil_div (4 * n) 4 = n.
Proof.
  unfold Math_ceil_div. cbn [Nat.sub].
  symmetry. apply (Nat.div_unique (4 * n + 3) 4 n 3); lia.
Qed.

Lemma grayscaleImageData_lookup (imgData : ImageData) (p : nat) :
  length (data imgData) = (4 * (width imgData * height imgData))%nat ->
  (p < width imgData * height imgData)%nat ->
  gray (grayscaleImageData imgData) !! p =
  Some (Math_fround
          (luminance (number_of_byte_slot (data imgData !! (4 * p)%nat))
                     (number_of_byte_slot (data imgData !! (4 * p + 1)%nat))
                     (number_of_byte_slot (data imgData !! (4 * p + 2)%nat))
                     (number_of_byte_slot (data imgData !! (4 * p + 3)%nat)))).
Proof.
  intros Hlen Hp. unfold grayscaleImageData. cbn [gray].
  rewrite Hlen, Math_ceil_div_4. unfold Float32Array_store.
  rewrite (fold_left_ext_eq _
             (fun out k =>
                <[(0 + k)%nat :=
                    Math_fround
                      (luminance (number_of_byte_slot (data imgData !! (4 * k)%nat))
                                 (number_of_byte_slot (data imgData !! (4 * k + 1)%nat))
                                 (number_of_byte_slot (data imgData !! (4 * k + 2)%nat))
                                 (number_of_byte_slot (data imgData !! (4 * k + 3)%nat)))]> out))
    by reflexivity.
  rewrite store_loop_lookup. unfold new_Float32Array. rewrite length_replicate.
  destruct (decide _) as [_|Hn]; [| exfalso; lia].
  now rewrite Nat.sub_0_r.
Qed.

Lemma grayscaleImageData_length (imgData : ImageData) :
  length (gray (grayscaleImageData imgData)) = (width imgData * height imgData)%nat.
Proof.
  unfold grayscaleImageData. cbn [gray]. unfold Float32Array_store.
  rewrite (fold_left_ext_eq _
             (fun out k =>
                <[(0 + k)%nat :=
                    Math_fround
                      (luminance (number_of_byte_slot (data imgData !! (4 * k)%nat))
                                 (number_of_byte_slot (data imgData !! (4 * k + 1)%nat))
                                 (number_of_byte_slot (data imgData !! (4 * k + 2)%nat))
                                 (number_of_byte_slot (data imgData !! (4 * k + 3)%nat)))]> out))
    by reflexivity.
  rewrite store_loop_length. unfold new_Float32Array. apply length_replicate.
Qed.

Lemma grayscaleImageData_uniform (imgData : ImageData) (r g b a : Z) :
  length (data imgData) = (4 * (width imgData * height imgData))%nat ->
  uniform_image imgData r g b a ->
  gray (grayscaleImageData imgData) =
  replicate (width imgData * height imgData)
    (Math_fround (luminance (number_of_Z r) (number_of_Z g) (number_of_Z b) (number_of_Z a))).
Proof.
  intros Hlen Hu. apply list_eq. intros p.
  destruct (decide (p < width imgData * height imgData)%nat) as [Hp|Hp].
  - rewrite grayscaleImageData_lookup by assumption.
    destruct (Hu p Hp) as (-> & -> & -> & ->).
    now rewrite lookup_replicate_2.
  - rewrite !lookup_ge_None_2; [reflexivity | |].
    + rewrite length_replicate. lia.
    + rewrite grayscaleImageData_length. lia.
Qed.

(** C5. For an image of [width * height] RGBA byte samples,
    [grayscaleImageData] keeps the dimensions and stores, for every pixel
    [p], the binary32 rounding of [0.299*R' + 0.587*G' + 0.114*B'], where
    each channel is first composited over white,
    [C' = C*alpha + 255*(1 - alpha)] with [alpha = A/255].  An image that is
    opaque white throughout gives 255.0 everywhere, an opaque black one 0.0
    everywhere, and a black one at half alpha (A = 127 or A = 128, the two
    bytes next to 127.5) gives 128.0, respectively 127.0, everywhere: within
    one half of 127.5. *)
Theorem grayscaleImageData_composites_then_weighs (imgData : ImageData) :
  Forall is_byte (data imgData) ->
  length (data imgData) = (4 * (width imgData * height imgData))%nat ->
  let out := grayscaleImageData imgData in
  gray_width out = width imgData /\
  gray_height out = height imgData /\
  length (gray out) = (width imgData * height imgData)%nat /\
  (forall p R G B A,
      data imgData !! (4 * p)%nat = Some R ->
      data imgData !! (4 * p + 1)%nat = Some G ->
      data imgData !! (4 * p + 2)%nat = Some B ->
      data imgData !! (4 * p + 3)%nat = Some A ->
      let alpha := (number_of_Z A / 255)%float in
      let R' := (number_of_Z R * alpha + 255 * (1 - alpha))%float in
      let G' := (number_of_Z G * alpha + 255 * (1 - alpha))%float in
      let B' := (number_of_Z B * alpha + 255 * (1 - alpha))%float in
      gray out !! p = Some (Math_fround (0.299 * R' + 0.587 * G' + 0.114 * B')%float)) /\
  (uniform_image imgData 255 255 255 255 ->
   gray out = replicate (width imgData * height imgData) 255%float) /\
  (uniform_image imgData 0 0 0 255 ->
   gray out = replicate (width imgData * height imgData) 0%float) /\
  (uniform_image imgData 0 0 0 127 ->
   gray out = replicate (width imgData * height imgData) 128%float) /\
  (uniform_image imgData 0 0 0 128 ->
   gray out = replicate (width imgData * height imgData) 127%float).
Proof.
  intros _ Hlen out.
  split; [reflexivity |]. split; [reflexivity |].
  split; [apply grayscaleImageData_length |].
  split.
  - intros p R G B A HR HG HB HA alpha R' G' B'.
    assert (Hp : (p < width imgData * height imgData)%nat).
    { apply lookup_lt_Some in HA. lia. }
    unfold out. rewrite grayscaleImageData_lookup by assumption.
    rewrite HR, HG, HB, HA. reflexivity.
  - repeat split; intros Hu; unfold out;
      rewrite (grayscaleImageData_uniform _ _ _ _ _ Hlen Hu); reflexivity.
Qed.

Lemma grayscaleImageData_composites_then_weighs_witness :
  gray (grayscaleImageData (mkImageData [255; 255; 255; 255; 255; 255; 255; 255] 2 1)) =
  [255%float; 255%float].
Proof.
  refine (proj1 (proj2 (proj2 (proj2 (proj2
    (grayscaleImageData_composites_then_weighs
       (mkImageData [255; 255; 255; 255; 255; 255; 255; 255] 2 1) _ eq_refl))))) _).
  - repeat constructor; lia.
  - intros p Hp. cbn in Hp.
    destruct p as [|[|p]]; [repeat split .. | lia].
Defined.

(** *** Disperser *)

Lemma Float32Array_add_length (arr : list float) (i : nat) (v : float) :
  length (Float32Array_add arr i v) = length arr.
Proof. unfold Float32Array_add, Float32Array_store. apply length_insert. Qed.

(** Reading after a guarded [+=]: only slot [i] changes, and an
    out-of-range [i] changes nothing. *)
Lemma guarded_add_lookup (c : bool) (arr : list float) (i : nat) (v : float) (j : nat) :
  (if c then Float32Array_add arr i v else arr) !! j =
  if c && bool_decide (j = i)
  then (fun old => Math_fround (old + v)%float) <$> arr !! j
  else arr !! j.
Proof.
  destruct c; cbn [andb]; [| reflexivity].
  unfold Float32Array_add, Float32Array_store.
  case_bool_decide as Hj.
  - subst j. destruct (arr !! i) as [old|] eqn:Hi.
    + rewrite list_lookup_insert_eq by (eapply lookup_lt_Some; eassumption).
      reflexivity.
    + rewrite list_insert_ge by (apply lookup_ge_None; assumption).
      rewrite Hi. reflexivity.
  - now rewrite list_lookup_insert_ne by congruence.
Qed.

Lemma dither_pixel_length (width height : nat) (st : list float * list Z) (y x : nat) :
  length (dither_pixel width height st y x).1 = length st.1 /\
  length (dither_pixel width height st y x).2 = length st.2.
Proof.
  destruct st as [g bw]. unfold dither_pixel. cbn [fst snd].
  split; [| apply length_insert].
  repeat match goal with
         | |- context [if ?c then _ else _] => destruct c
         end;
    rewrite ?Float32Array_add_length; reflexivity.
Qed.

(** The guarded index arithmetic of the source selects exactly the
    neighbours that lie inside the buffer. *)
Lemma dither_pixel_diffuses (width height : nat) (g : list float) (bw : list Z) (x y : nat) :
  (x < width)%nat -> (y < height)%nat ->
  length g = (width * height)%nat ->
  dither_pixel width height (g, bw) y x = diffuse_pixel width (g, bw) (x, y).
Proof.
  intros Hx Hy Hlen. unfold dither_pixel, diffuse_pixel.
  set (idx := (y * width + x)%nat).
  set (oldVal := number_of_slot (g !! idx)).
  f_equal.
  2:{ destruct (oldVal <? 128)%float; reflexivity. }
  assert (Herr : (oldVal - (if (oldVal <? 128)%float then 0 else 255))%float =
                 if (oldVal <? 128)%float then (oldVal - 0)%float else (oldVal - 255)%float).
  { destruct (oldVal <? 128)%float; reflexivity. }
  rewrite Herr. set (err := if (oldVal <? 128)%float then _ else _). clearbody err.
  apply list_eq. intros j.
  rewrite !guarded_add_lookup, list_lookup_imap.
  destruct (g !! j) as [v|] eqn:Hj.
  2:{ repeat match goal with
             | |- context [if ?c then _ else _] => destruct c
             end; reflexivity. }
  apply lookup_lt_Some in Hj. rewrite Hlen in Hj.
  pose proof (Nat.div_mod j width ltac:(lia)) as Hdm.
  pose proof (Nat.mod_upper_bound j width ltac:(lia)) as Hm.
  set (jx := (j mod width)%nat) in *. set (jy := (j / width)%nat) in *.
  assert (Hjy : (jy < height)%nat).
  { destruct (decide (jy < height)%nat); [assumption | exfalso; nia]. }
  assert (H0 : jy = y -> (width * jy = y * width)%nat) by (intros ->; lia).
  assert (H1 : jy = S y -> (width * jy = y * width + width)%nat) by (intros ->; lia).
  assert (U0 : (j < y * width + width)%nat -> (y * width <= j)%nat -> jy = y).
  { intros. destruct (decide (jy = y)); [assumption | exfalso; nia]. }
  assert (U1 : (j < y * width + width + width)%nat -> (y * width + width <= j)%nat -> jy = S y).
  { intros. destruct (decide (jy = S y)); [assumption | exfalso; nia]. }
  set (dx := Z.of_nat jx - Z.of_nat x). set (dy := Z.of_nat jy - Z.of_nat y).
  assert (B1 : (x + 1 <? width)%nat && bool_decide (j = (idx + 1)%nat) =
               (dx =? 1) && (dy =? 0)).
  { apply Bool.eq_iff_eq_true.
    rewrite !andb_true_iff, Nat.ltb_lt, bool_decide_eq_true, !Z.eqb_eq.
    unfold dx, dy, idx. split.
    - intros [Hg ->]. assert (jy = y) by (apply U0; lia).
      specialize (H0 ltac:(assumption)). lia.
    - intros [Hdx Hdy]. assert (jy = y) by lia.
      specialize (H0 ltac:(assumption)). lia. }
  assert (B2 : (Z.of_nat x - 1 >=? 0) && (y + 1 <? height)%nat &&
               bool_decide (j = (idx + width - 1)%nat) =
               (dx =? -1) && (dy =? 1)).
  { apply Bool.eq_iff_eq_true.
    rewrite !andb_true_iff, Z.geb_le, Nat.ltb_lt, bool_decide_eq_true, !Z.eqb_eq.
    unfold dx, dy, idx. split.
    - intros [[Hg1 Hg2] ->]. assert (jy = S y) by (apply U1; lia).
      specialize (H1 ltac:(assumption)). lia.
    - intros [Hdx Hdy]. assert (jy = S y) by lia.
      specialize (H1 ltac:(assumption)). lia. }
  assert (B3 : (y + 1 <? height)%nat && bool_decide (j = (idx + width)%nat) =
               (dx =? 0) && (dy =? 1)).
  { apply Bool.eq_iff_eq_true.
    rewrite !andb_true_iff, Nat.ltb_lt, bool_decide_eq_true, !Z.eqb_eq.
    unfold dx, dy, idx. split.
    - intros [Hg ->]. assert (jy = S y) by (apply U1; lia).
      specialize (H1 ltac:(assumption)). lia.
    - intros [Hdx Hdy]. assert (jy = S y) by lia.
      specialize (H1 ltac:(assumption)). lia. }
  assert (B4 : (x + 1 <? width)%nat && (y + 1 <? height)%nat &&
               bool_decide (j = (idx + width + 1)%nat) =
               (dx =? 1) && (dy =? 1)).
  { apply Bool.eq_iff_eq_true.
    rewrite !andb_true_iff, !Nat.ltb_lt, bool_decide_eq_true, !Z.eqb_eq.
    unfold dx, dy, idx. split.
    - intros [[Hg1 Hg2] ->]. assert (jy = S y) by (apply U1; lia).
      specialize (H1 ltac:(assumption)). lia.
    - intros [Hdx Hdy]. assert (jy = S y) by lia.
      specialize (H1 ltac:(assumption)). lia. }
  rewrite B1, B2, B3, B4. unfold diffusion_weight.
  clear. 
  destruct (Z.eqb_spec dx 1), (Z.eqb_spec dy 0), (Z.eqb_spec dx (-1)),
    (Z.eqb_spec dy 1), (Z.eqb_spec dx 0); cbn [andb fmap option_fmap option_map];
    first [reflexivity | exfalso; lia].
Qed.

(** Two loop bodies that agree on every state satisfying an invariant
    the first one preserves give the same loop. *)
Lemma fold_left_inv_ext {A B : Type} (Inv : A -> Prop) (f g : A -> B -> A)
      (l : list B) (a : A) :
  Inv a ->
  (forall a b, Inv a -> b ∈ l -> f a b = g a b /\ Inv (f a b)) ->
  fold_left f l a = fold_left g l a /\ Inv (fold_left f l a).
Proof.
  revert a. induction l as [|b l IH]; intros a Ha Hstep; cbn; [now split |].
  destruct (Hstep a b Ha ltac:(left)) as [Heq Hinv].
  rewrite <- Heq. apply IH; [assumption |].
  intros a' b' Ha' Hb'. apply Hstep; [assumption | now right].
Qed.

Lemma fold_left_bind {A B C : Type} (f : A -> C -> A) (k : B -> list C)
      (l : list B) (a : A) :
  fold_left f (l ≫= k) a = fold_left (fun a b => fold_left f (k b) a) l a.
Proof.
  revert a. induction l as [|b l IH]; intros a; [reflexivity |].
  cbn. rewrite fold_left_app. apply IH.
Qed.

Lemma fold_left_fmap {A B C : Type} (f : A -> C -> A) (k : B -> C)
      (l : list B) (a : A) :
  fold_left f (k <$> l) a = fold_left (fun a b => f a (k b)) l a.
Proof.
  revert a. induction l as [|b l IH]; intros a; [reflexivity |]. cbn. apply IH.
Qed.

(** The nested loops of the source are the raster scan of
    [diffuse_pixel]. *)
Lemma floydSteinbergDither_scan (grayArray : list float) (width height : nat) :
  length grayArray = (width * height)%nat ->
  floydSteinbergDither grayArray width height =
  dither_by_diffusion grayArray width height.
Proof.
  intros Hlen. unfold floydSteinbergDither, dither_by_diffusion, raster_scan.
  rewrite fold_left_bind. unfold new_Uint8Array.
  set (Inv := fun st : list float * list Z => length st.1 = (width * height)%nat).
  apply (fold_left_inv_ext Inv); [exact Hlen |].
  intros st y Hst Hy. apply elem_of_seq in Hy.
  rewrite fold_left_fmap.
  apply (fold_left_inv_ext Inv); [assumption |].
  intros [g bw] x Hg Hx. apply elem_of_seq in Hx. unfold Inv in *. cbn [fst] in Hg.
  split.
  - apply dither_pixel_diffuses; [lia | lia | assumption].
  - rewrite (proj1 (dither_pixel_length _ _ _ _ _)). assumption.
Qed.

(** Every store into [bw] writes 0 or 1, whatever the input. *)
Lemma floydSteinbergDither_bits (grayArray : list float) (width height : nat) :
  length (floydSteinbergDither grayArray width height).2 = (width * height)%nat /\
  Forall is_bit (floydSteinbergDither grayArray width height).2.
Proof.
  unfold floydSteinbergDither.
  set (Inv := fun st : list float * list Z =>
                length st.2 = (width * height)%nat /\ Forall is_bit st.2).
  assert (Hstep : forall st y x, Inv st -> Inv (dither_pixel width height st y x)).
  { intros [g bw] y x [Hl Hb]. split.
    - rewrite (proj2 (dither_pixel_length _ _ _ _ _)). assumption.
    - unfold dither_pixel. cbn [snd] in *. apply Forall_insert; [assumption |].
      destruct (_ <? _)%float; [right | left]; reflexivity. }
  assert (Hrow : forall xs st y, Inv st ->
             Inv (fold_left (fun st x => dither_pixel width height st y x) xs st)).
  { induction xs as [|x xs IH]; intros st y Hst; cbn; [assumption |].
    apply IH, Hstep, Hst. }
  assert (Hall : forall ys st, Inv st ->
             Inv (fold_left
                    (fun st y =>
                       fold_left (fun st x => dither_pixel width height st y x)
                                 (seq 0 width) st) ys st)).
  { induction ys as [|y ys IH]; intros st Hst; cbn; [assumption |].
    apply IH, Hrow, Hst. }
  apply Hall. split; cbn [snd]; unfold new_Uint8Array.
  - apply length_replicate.
  - apply Forall_replicate. now left.
Qed.

(** For a number (anything but NaN), "not below 128" is "at least
    128". *)
Lemma not_below_128 (v : float) :
  Prim2SF v <> S754_nan ->
  ((v <? 128)%float = false <-> (128 <=? v)%float = true).
Proof.
  intros Hnan. rewrite ltb_spec, leb_spec.
  assert (H128 : Prim2SF 128 = S754_finite false 4503599627370496 (-45))
    by (vm_compute; reflexivity).
  rewrite H128. clear H128.
  destruct (Prim2SF v) as [s|s| |s m e]; try contradiction;
    unfold SFltb, SFleb, SFcompare.
  - destruct s; split; congruence.
  - destruct s; split; congruence.
  - destruct s; [split; congruence |].
    rewrite (Z.compare_antisym e (-45)).
    destruct (e ?= -45); cbn [CompOpp]; try (split; congruence).
    pose proof (Pos.compare_cont_antisym m 4503599627370496 Eq) as Ha.
    change (CompOpp Eq) with Eq in Ha. rewrite <- Ha. clear Ha.
    destruct (PosDef.Pos.compare_cont Eq m 4503599627370496); cbv [CompOpp];
      split; intros H; first [reflexivity | discriminate H].
Qed.

(** C2. [floydSteinbergDither] visits the pixels in raster order (rows top
    to bottom, each left to right); at each pixel it emits 1 when the
    current, error-adjusted value is below 128 and 0 otherwise (for a
    number: when it is at least 128), takes the error [value - 0],
    respectively [value - 255], and adds [error*7/16] to the right
    neighbour, [error*3/16] to the below-left one, [error*5/16] to the one
    below and [error*1/16] to the below-right one, for those neighbours
    that lie inside the buffer and no others: on a buffer of
    [width * height] values it computes what [dither_by_diffusion] does.
    Every output entry is 0 or 1, for any input. *)
Theorem floydSteinbergDither_diffusion (grayArray : list float) (width height : nat) :
  length (floydSteinbergDither grayArray width height).2 = (width * height)%nat /\
  Forall is_bit (floydSteinbergDither grayArray width height).2 /\
  ((1 <= width)%nat -> (1 <= height)%nat ->
   length grayArray = (width * height)%nat ->
   floydSteinbergDither grayArray width height =
   dither_by_diffusion grayArray width height) /\
  (forall v : float, Prim2SF v <> S754_nan ->
     ((v <? 128)%float = false <-> (128 <=? v)%float = true)).
Proof.
  split; [apply floydSteinbergDither_bits |].
  split; [apply floydSteinbergDither_bits |].
  split; [| exact not_below_128].
  intros _ _. apply floydSteinbergDither_scan.
Qed.

Lemma floydSteinbergDither_diffusion_witness :
  floydSteinbergDither [100; 100; 100; 200; 50; 130]%float 3 2 =
  dither_by_diffusion [100; 100; 100; 200; 50; 130]%float 3 2.
Proof.
  apply (proj1 (proj2 (proj2
           (floydSteinbergDither_diffusion [100; 100; 100; 200; 50; 130]%float 3 2))));
    [lia | lia | reflexivity].
Defined.

(** The disperser on a 3x2 sample, by evaluation: the bits and the
    buffer as the run leaves it. *)
Example floydSteinbergDither_3x2 :
  floydSteinbergDither [100; 100; 100; 200; 50; 130]%float 3 2 =
  ([100; 143.75; 51.328125; 210.390625; 11.591796875; 144.1583251953125]%float,
   [1; 0; 1; 0; 1; 0]).
Proof. vm_compute. reflexivity. Qed.

(** *** USB endpoint discovery *)

Lemma scan_result_app (l1 l2 : list (Z * USBEndpoint)) (st : discovery) :
  scan_result (l1 ++ l2) st = scan_result l1 (scan_result l2 st).
Proof.
  unfold scan_result. induction l1 as [|p l1 IH]; cbn; [reflexivity |].
  destruct (String.eqb _ _); [reflexivity | exact IH].
Qed.

Lemma scan_endpoints_result (cfg : USBInterface) (eps : list USBEndpoint) (st : discovery) :
  scan_endpoints cfg eps st =
  scan_result ((fun ep => (interfaceNumber cfg, ep)) <$> eps) st.
Proof.
  unfold scan_result. induction eps as [|ep eps IH]; cbn; [reflexivity |].
  destruct (String.eqb _ _); [reflexivity | exact IH].
Qed.

(** A scan that starts with [endpointNumber = null] stops at its first
    OUT endpoint and otherwise leaves the variables alone. *)
Lemma scan_result_break (eps : list (Z * USBEndpoint)) (st : discovery) :
  found_endpointNumber st = None ->
  (found_endpointNumber (scan_result eps st) <> None /\
   forall st', scan_result eps st' = scan_result eps st) \/
  (found_endpointNumber (scan_result eps st) = None /\
   forall st', scan_result eps st' = st').
Proof.
  intros Hst. unfold scan_result. destruct (find _ eps).
  - left. split; [discriminate | reflexivity].
  - right. split; [assumption | reflexivity].
Qed.

Lemma scan_alternates_result (cfg : USBInterface) (alts : list USBAlternateInterface)
      (st : discovery) :
  found_endpointNumber st = None ->
  scan_alternates cfg alts st =
  scan_result (alt ← alts; (fun ep => (interfaceNumber cfg, ep)) <$> default [] (endpoints alt)) st.
Proof.
  intros Hst. induction alts as [|alt alts IH]; cbn; [reflexivity |].
  destruct (endpoints alt) as [eps|]; cbn; [| exact IH].
  rewrite scan_endpoints_result, scan_result_app.
  destruct (scan_result_break ((fun ep => (interfaceNumber cfg, ep)) <$> eps) st Hst)
    as [[Hf Heq] | [Hf Heq]].
  - rewrite bool_decide_eq_true_2 by assumption. symmetry. apply Heq.
  - rewrite bool_decide_eq_false_2 by (rewrite Hf; congruence).
    rewrite !Heq. exact IH.
Qed.

Lemma scan_interfaces_result (interfaces : list USBInterface) (st : discovery) :
  found_endpointNumber st = None ->
  scan_interfaces interfaces st = scan_result (declared_endpoints interfaces) st.
Proof.
  intros Hst. unfold declared_endpoints.
  induction interfaces as [|cfg interfaces IH]; cbn; [reflexivity |].
  rewrite scan_alternates_result by assumption. rewrite scan_result_app.
  destruct (scan_result_break
              (alt ← alternates cfg;
               (fun ep => (interfaceNumber cfg, ep)) <$> default [] (endpoints alt)) st Hst)
    as [[Hf Heq] | [Hf Heq]].
  - rewrite bool_decide_eq_true_2 by assumption. symmetry. apply Heq.
  - rewrite bool_decide_eq_false_2 by (rewrite Hf; congruence).
    rewrite !Heq. exact IH.
Qed.

Lemma find_first (eps pre post : list (Z * USBEndpoint)) (p : Z * USBEndpoint) :
  eps = pre ++ p :: post ->
  Forall (fun q => ~ is_out q) pre -> is_out p ->
  find (fun p => String.eqb (direction p.2) "out") eps = Some p.
Proof.
  intros -> Hpre Hp. induction Hpre as [|q pre Hq _ IH]; cbn.
  - unfold is_out in Hp. rewrite Hp. reflexivity.
  - destruct (String.eqb_spec (direction q.2) "out") as [Heq|_]; [| exact IH].
    now contradiction Hq.
Qed.

Lemma find_none (eps : list (Z * USBEndpoint)) :
  Forall (fun q => ~ is_out q) eps ->
  find (fun p => String.eqb (direction p.2) "out") eps = None.
Proof.
  induction 1 as [|q eps Hq _ IH]; cbn; [reflexivity |].
  destruct (String.eqb_spec (direction q.2) "out") as [Heq|_]; [| exact IH].
  now contradiction Hq.
Qed.

(** C6. With the endpoints of the device taken in declared order
    (interfaces, then alternates, then endpoints), [openUsbDevice] returns
    the number of the first endpoint whose direction is ["out"] together
    with the number of the interface that owns it; when no endpoint has
    direction ["out"] it throws the "could not find an OUT endpoint"
    error. *)
Theorem openUsbDevice_first_out_endpoint (interfaces : list USBInterface) :
  (forall pre iface ep post,
      declared_endpoints interfaces = pre ++ (iface, ep) :: post ->
      Forall (fun q => ~ is_out q) pre ->
      is_out (iface, ep) ->
      openUsbDevice interfaces = Returns (mkUsbHandle iface (Some (endpointNumber ep)))) /\
  (Forall (fun q => ~ is_out q) (declared_endpoints interfaces) ->
   openUsbDevice interfaces = Throws DeviceUnsupported).
Proof.
  unfold openUsbDevice. rewrite scan_interfaces_result by reflexivity.
  unfold scan_result. split.
  - intros pre iface ep post Hdecl Hpre Hout.
    rewrite (find_first _ _ _ _ Hdecl Hpre Hout). reflexivity.
  - intros Hnone. rewrite (find_none _ Hnone). reflexivity.
Qed.

Lemma openUsbDevice_first_out_endpoint_witness :
  openUsbDevice sample_device = Returns (mkUsbHandle 1 (Some 3))
  /\ openUsbDevice [ mkInterface 0 [ mkAlternate (Some [ mkEndpoint 1 "in" ]) ] ]
     = Throws DeviceUnsupported.
Proof.
  split.
  - apply (proj1 (openUsbDevice_first_out_endpoint sample_device)
             [(0, mkEndpoint 1 "in"); (1, mkEndpoint 2 "in")] 1 (mkEndpoint 3 "out")
             [(1, mkEndpoint 4 "out"); (2, mkEndpoint 5 "out")]).
    + reflexivity.
    + repeat constructor; unfold is_out; cbn; discriminate.
    + reflexivity.
  - apply (proj2 (openUsbDevice_first_out_endpoint _)).
    repeat constructor. unfold is_out; cbn; discriminate.
Defined.

(** *** Relay socket *)








(** *** Binary64 rounding: what [binary_round_aux] does to a mantissa *)

Lemma digits2_pos_size (p : positive) : digits2_pos p = Pos.size p.
Proof. induction p; cbn; congruence. Qed.

Lemma Zdigits2_bounds (m : positive) :
  2 ^ (Zdigits2 (Z.pos m) - 1) <= Z.pos m < 2 ^ Zdigits2 (Z.pos m).
Proof.
  cbn [Zdigits2]. rewrite digits2_pos_size.
  pose proof (Pos.size_gt m) as Hgt. pose proof (Pos.size_le m) as Hle.
  apply Pos2Z.pos_lt_pos in Hgt. apply Pos2Z.pos_le_pos in Hle.
  rewrite Pos2Z.inj_pow in Hgt, Hle.
  change (Z.pos m~0) with (2 * Z.pos m) in Hle.
  replace (2 ^ Z.pos (Pos.size m)) with (2 * 2 ^ (Z.pos (Pos.size m) - 1)) in Hle.
  2:{ rewrite <- Z.pow_succ_r by lia. f_equal. lia. }
  lia.
Qed.

Lemma Zdigits2_unique (m : positive) (d : Z) :
  2 ^ (d - 1) <= Z.pos m < 2 ^ d -> Zdigits2 (Z.pos m) = d.
Proof.
  intros [Hlo Hhi]. pose proof (Zdigits2_bounds m) as [Hlo' Hhi'].
  set (d' := Zdigits2 (Z.pos m)) in *.
  assert (0 < d') by (unfold d'; cbn; lia).
  assert (0 < d).
  { destruct (Z_lt_le_dec 0 d) as [|Hd]; [assumption | exfalso].
    destruct (Z.eq_dec d 0) as [->|Hne]; [cbn in Hhi; lia |].
    rewrite Z.pow_neg_r in Hhi by lia. lia. }
  destruct (Z.lt_trichotomy d' d) as [Hlt | [Heq | Hgt]]; [| assumption |].
  - assert (2 ^ d' <= 2 ^ (d - 1)) by (apply Z.pow_le_mono_r; lia). lia.
  - assert (2 ^ d <= 2 ^ (d' - 1)) by (apply Z.pow_le_mono_r; lia). lia.
Qed.

Lemma shr_1_m (mrs : shr_record) :
  0 <= shr_m mrs -> shr_m (shr_1 mrs) = shr_m mrs / 2.
Proof.
  destruct mrs as [m r s]. cbn [shr_m]. intros Hm.
  destruct m as [|[p|p|]|p]; cbn [shr_1 shr_m]; try lia; try reflexivity.
  - apply (Z.div_unique _ 2 _ 1); lia.
  - apply (Z.div_unique _ 2 _ 0); lia.
Qed.

Lemma shr_m_iter (n : positive) (mrs : shr_record) :
  0 <= shr_m mrs ->
  shr_m (SpecFloat.iter_pos shr_1 n mrs) = shr_m mrs / 2 ^ Z.pos n.
Proof.
  revert mrs. induction n as [n IH | n IH |]; intros mrs Hm; cbn [SpecFloat.iter_pos].
  - assert (H1 : 0 <= shr_m (shr_1 mrs)).
    { rewrite shr_1_m by assumption. apply Z.div_pos; lia. }
    assert (H2 : 0 <= shr_m (SpecFloat.iter_pos shr_1 n (shr_1 mrs))).
    { rewrite IH by assumption. apply Z.div_pos; [assumption |]. apply Z.pow_pos_nonneg; lia. }
    rewrite IH, IH, shr_1_m by assumption.
    rewrite !Z.div_div by (try apply Z.pow_pos_nonneg; lia).
    f_equal. rewrite <- Z.pow_add_r, <- (Z.pow_succ_r 2) by lia. f_equal. lia.
  - assert (H2 : 0 <= shr_m (SpecFloat.iter_pos shr_1 n mrs)).
    { rewrite IH by assumption. apply Z.div_pos; [assumption |]. apply Z.pow_pos_nonneg; lia. }
    rewrite IH, IH by assumption.
    rewrite !Z.div_div by (try apply Z.pow_pos_nonneg; lia).
    f_equal. rewrite <- Z.pow_add_r by lia. f_equal. lia.
  - rewrite shr_1_m by assumption. reflexivity.
Qed.

Lemma shr_record_of_loc_m (m : Z) (l : location) : shr_m (shr_record_of_loc m l) = m.
Proof. destruct l as [|[]]; reflexivity. Qed.

Lemma round_nearest_even_step (m : Z) (l : location) :
  round_nearest_even m l = m \/ round_nearest_even m l = m + 1.
Proof.
  destruct l as [|[]]; cbn; auto. destruct (Z.even m); auto.
Qed.

Lemma fexp_normal (k : Z) : -1074 <= k - 53 -> fexp prec emax k = k - 53.
Proof. intros Hk. unfold fexp, SpecFloat.emin. change prec with 53. change emax with 1024. lia. Qed.

(** The first shift of [binary_round_aux]: a mantissa of [53 + n] bits
    loses its [n] low bits. *)
Lemma shr_fexp_normal (m : positive) (e : Z) (l : location) :
  let n := Zdigits2 (Z.pos m) - 53 in
  0 <= n -> -1074 <= e + n ->
  exists mrs,
    shr_fexp prec emax (Z.pos m) e l = (mrs, e + n) /\
    shr_m mrs = Z.pos m / 2 ^ n /\
    (n = 0 -> mrs = shr_record_of_loc (Z.pos m) l).
Proof.
  intros n Hn He. unfold shr_fexp.
  rewrite fexp_normal by (fold n; lia).
  replace (Zdigits2 (Z.pos m) + e - 53 - e) with n by (unfold n; lia).
  destruct n as [|p|p] eqn:Hp; [| | lia].
  - exists (shr_record_of_loc (Z.pos m) l). cbn [shr].
    rewrite Z.add_0_r, shr_record_of_loc_m, Z.div_1_r. auto.
  - exists (SpecFloat.iter_pos shr_1 p (shr_record_of_loc (Z.pos m) l)). cbn [shr].
    split; [reflexivity |]. split; [| discriminate].
    rewrite shr_m_iter by (rewrite shr_record_of_loc_m; lia).
    now rewrite shr_record_of_loc_m.
Qed.

Lemma loc_of_shr_record_of_loc (m : Z) (l : location) :
  loc_of_shr_record (shr_record_of_loc m l) = l.
Proof. destruct l as [|[]]; reflexivity. Qed.

(** Rounding a mantissa of at least 53 bits in the normal range: the
    result is a normal number whose mantissa, put back at the exponent of
    the input, lies between the truncated input and one unit of the last
    kept place above it. *)
Lemma binary_round_aux_normal (sx : bool) (mx : positive) (ex : Z) (lx : location) :
  let n := Zdigits2 (Z.pos mx) - 53 in
  0 <= n -> -1074 <= ex + n -> ex + n + 1 <= 971 ->
  exists m e,
    binary_round_aux prec emax sx (Z.pos mx) ex lx = S754_finite sx m e /\
    2 ^ 52 <= Z.pos m < 2 ^ 53 /\
    ex + n <= e <= ex + n + 1 /\
    Z.pos mx / 2 ^ n * 2 ^ n <= Z.pos m * 2 ^ (e - ex)
      <= (Z.pos mx / 2 ^ n + 1) * 2 ^ n /\
    (lx = loc_Exact -> n = 0 -> m = mx /\ e = ex).
Proof.
  intros n Hn Hlo Hhi.
  destruct (shr_fexp_normal mx ex lx Hn Hlo) as (mrs1 & Hshr1 & Hm1 & Hexact1).
  fold n in Hshr1, Hm1, Hexact1.
  unfold binary_round_aux. rewrite Hshr1.
  pose proof (Zdigits2_bounds mx) as [Hdlo Hdhi].
  replace (Zdigits2 (Z.pos mx)) with (n + 53) in Hdlo, Hdhi by (unfold n; lia).
  assert (Hpn : 0 < 2 ^ n) by (apply Z.pow_pos_nonneg; lia).
  assert (Hm1lo : 2 ^ 52 <= shr_m mrs1).
  { rewrite Hm1. apply Z.div_le_lower_bound; [assumption |].
    rewrite <- Z.pow_add_r by lia. replace (n + 52) with (n + 53 - 1) by lia. exact Hdlo. }
  assert (Hm1hi : shr_m mrs1 < 2 ^ 53).
  { rewrite Hm1. apply Z.div_lt_upper_bound; [assumption |].
    rewrite <- Z.pow_add_r by lia. exact Hdhi. }
  remember (round_nearest_even (shr_m mrs1) (loc_of_shr_record mrs1)) as m2 eqn:Hp2.
  assert (Hm2 : m2 = shr_m mrs1 \/ m2 = shr_m mrs1 + 1)
    by (rewrite Hp2; apply round_nearest_even_step).
  assert (Hm2pos : 0 < m2) by lia.
  destruct m2 as [|p2|p2]; try lia.
  destruct (Z_lt_le_dec (Z.pos p2) (2 ^ 53)) as [Hlt|Hge].
  - (* no carry *)
    assert (Hd2 : Zdigits2 (Z.pos p2) = 53) by (apply Zdigits2_unique; lia).
    destruct (shr_fexp_normal p2 (ex + n) loc_Exact) as (mrs2 & Hshr2 & Hm2' & Hexact2);
      rewrite ?Hd2; try lia.
    rewrite Hd2 in Hshr2, Hm2', Hexact2. change (53 - 53) with 0 in *.
    rewrite Z.add_0_r in Hshr2. rewrite Hshr2.
    rewrite (Hexact2 eq_refl). cbn [shr_record_of_loc shr_m].
    replace (ex + n <=? emax - prec) with true
      by (symmetry; apply Z.leb_le; change emax with 1024; change prec with 53; lia).
    exists p2, (ex + n). split; [reflexivity |].
    split; [lia |]. split; [lia |].
    replace (ex + n - ex) with n by lia.
    split.
    + rewrite <- Hm1. destruct Hm2 as [-> | ->]; nia.
    + intros -> Hn0. split; [| lia].
      rewrite (Hexact1 Hn0) in Hp2.
      rewrite loc_of_shr_record_of_loc, shr_record_of_loc_m in Hp2.
      cbn in Hp2. congruence.
  - (* the rounding carried into bit 53 *)
    assert (Heq : Z.pos p2 = 2 ^ 53) by lia.
    assert (Hd2 : Zdigits2 (Z.pos p2) = 54).
    { apply Zdigits2_unique. rewrite Heq. change (54 - 1) with 53.
      split; [lia |]. apply Z.pow_lt_mono_r; lia. }
    destruct (shr_fexp_normal p2 (ex + n) loc_Exact) as (mrs2 & Hshr2 & Hm2' & _);
      rewrite ?Hd2; try lia.
    rewrite Hd2 in Hshr2, Hm2'. change (54 - 53) with 1 in *.
    rewrite Hshr2, Hm2', Heq. change (2 ^ 53 / 2 ^ 1) with (2 ^ 52).
    change (2 ^ 52) with (Z.pos (2 ^ 52)%positive) at 1. cbv match.
    replace (ex + n + 1 <=? emax - prec) with true
      by (symmetry; apply Z.leb_le; change emax with 1024; change prec with 53; lia).
    exists (2 ^ 52)%positive, (ex + n + 1). split; [reflexivity |].
    split; [change (Z.pos (2 ^ 52)) with (2 ^ 52); split; [lia | apply Z.pow_lt_mono_r; lia] |].
    split; [lia |].
    replace (ex + n + 1 - ex) with (n + 1) by lia.
    change (Z.pos (2 ^ 52)) with (2 ^ 52).
    rewrite <- Z.pow_add_r by lia. replace (52 + (n + 1)) with (53 + n) by lia.
    rewrite Z.pow_add_r by lia.
    assert (Hs : shr_m mrs1 + 1 = 2 ^ 53) by lia.
    rewrite <- Hm1. split; [| intros ->; intros Hn0].
    + rewrite <- Hs. nia.
    + exfalso. rewrite (Hexact1 Hn0) in Hp2.
      rewrite loc_of_shr_record_of_loc, shr_record_of_loc_m in Hp2.
      cbn in Hp2. rewrite (Hexact1 Hn0), shr_record_of_loc_m in Hm1hi. lia.
Qed.

Lemma Pos_iter_xO (m k : positive) : Z.pos (Pos.iter xO m k) = Z.pos m * 2 ^ Z.pos k.
Proof.
  induction k as [|k IH] using Pos.peano_ind.
  - cbn. lia.
  - rewrite Pos.iter_succ, Pos2Z.inj_xO, IH, Pos2Z.inj_succ, Z.pow_succ_r by lia. ring.
Qed.

Lemma valid_binary_normal (s : bool) (m : positive) (e : Z) :
  2 ^ 52 <= Z.pos m < 2 ^ 53 -> -1074 <= e <= 971 ->
  valid_binary (S754_finite s m e) = true.
Proof.
  intros Hm He. unfold SpecFloat.valid_binary, SpecFloat.bounded, SpecFloat.canonical_mantissa.
  change (Z.pos (digits2_pos m)) with (Zdigits2 (Z.pos m)).
  rewrite (Zdigits2_unique m 53) by (change (53 - 1) with 52; lia).
  rewrite fexp_normal by lia.
  apply andb_true_intro. split; [apply Z.eqb_eq; lia |].
  apply Z.leb_le. change emax with 1024. change prec with 53. lia.
Qed.

(** An integer below [2^53] is a binary64 number: [number_of_Z] is exact
    on it. *)
Lemma Prim2SF_number_of_Z (z : positive) :
  Z.pos z < 2 ^ 53 ->
  exists m e,
    Prim2SF (number_of_Z (Z.pos z)) = S754_finite false m e /\
    2 ^ 52 <= Z.pos m < 2 ^ 53 /\
    -52 <= e <= 0 /\
    Z.pos m = Z.pos z * 2 ^ (- e).
Proof.
  intros Hz. unfold number_of_Z, binary_normalize, binary_round.
  pose proof (Zdigits2_bounds z) as [Hdlo Hdhi].
  change (Z.pos (digits2_pos z)) with (Zdigits2 (Z.pos z)).
  set (d := Zdigits2 (Z.pos z)) in *.
  assert (Hd : 1 <= d <= 53).
  { split; [unfold d; cbn; lia |].
    destruct (Z_le_gt_dec d 53); [assumption | exfalso].
    assert (2 ^ 53 <= 2 ^ (d - 1)) by (apply Z.pow_le_mono_r; lia). lia. }
  rewrite Z.add_0_r, fexp_normal by lia.
  assert (Hshl : exists mz,
             shl_align z 0 (d - 53) = (mz, d - 53) /\
             Z.pos mz = Z.pos z * 2 ^ (53 - d)).
  { unfold shl_align. rewrite Z.sub_0_r.
    destruct (d - 53) as [|p|p] eqn:Hp; [| lia |].
    - exists z. split; [reflexivity |]. replace (53 - d) with 0 by lia. lia.
    - exists (Pos.iter xO z p). split; [reflexivity |].
      rewrite Pos_iter_xO. f_equal. f_equal. lia. }
  destruct Hshl as (mz & -> & Hmz).
  assert (Hmzb : 2 ^ 52 <= Z.pos mz < 2 ^ 53).
  { rewrite Hmz. split.
    - replace 52 with ((d - 1) + (53 - d)) by lia. rewrite Z.pow_add_r by lia.
      apply Z.mul_le_mono_nonneg_r; [apply Z.pow_nonneg; lia | assumption].
    - replace 53 with (d + (53 - d)) at 2 by lia. rewrite Z.pow_add_r by lia.
      apply Z.mul_lt_mono_pos_r; [apply Z.pow_pos_nonneg; lia | assumption]. }
  assert (Hdz : Zdigits2 (Z.pos mz) = 53)
    by (apply Zdigits2_unique; change (53 - 1) with 52; lia).
  destruct (binary_round_aux_normal false mz (d - 53) loc_Exact)
    as (m & e & Hr & Hm & He & _ & Hex); rewrite ?Hdz; try lia.
  rewrite Hdz in Hex. destruct (Hex eq_refl eq_refl) as [-> ->].
  rewrite Hr, Prim2SF_SF2Prim by (apply valid_binary_normal; lia).
  exists mz, (d - 53). split; [reflexivity |]. split; [assumption |].
  split; [lia |]. rewrite Hmz. f_equal. f_equal. lia.
Qed.

(** Division of two normal numbers: the quotient's mantissa, put at the
    exponent [e1 - e2 - 53], is within two units of
    [floor(m1 * 2^53 / m2)]. *)
Lemma SFdiv_normal (m1 m2 : positive) (e1 e2 : Z) :
  2 ^ 52 <= Z.pos m1 < 2 ^ 53 -> 2 ^ 52 <= Z.pos m2 < 2 ^ 53 ->
  -1074 <= e1 - e2 - 53 -> e1 - e2 - 53 + 2 <= 971 ->
  exists m e,
    SF64div (S754_finite false m1 e1) (S754_finite false m2 e2) = S754_finite false m e /\
    2 ^ 52 <= Z.pos m < 2 ^ 53 /\
    e1 - e2 - 53 <= e <= e1 - e2 - 53 + 2 /\
    Z.pos m1 * 2 ^ 53 / Z.pos m2 - 1 <= Z.pos m * 2 ^ (e - (e1 - e2 - 53))
      <= Z.pos m1 * 2 ^ 53 / Z.pos m2 + 2.
Proof.
  intros Hm1 Hm2 Hlo Hhi.
  unfold SF64div, SFdiv, SFdiv_core_binary.
  rewrite !(Zdigits2_unique _ 53) by (change (53 - 1) with 52; lia).
  replace (53 + e1 - (53 + e2)) with (e1 - e2) by lia.
  rewrite fexp_normal by lia.
  rewrite Z.min_l by lia.
  replace (e1 - e2 - (e1 - e2 - 53)) with 53 by lia. cbv match.
  rewrite Z.shiftl_mul_pow2 by lia.
  set (q := Z.pos m1 * 2 ^ 53 / Z.pos m2).
  pose proof (Z.div_eucl_eq (Z.pos m1 * 2 ^ 53) (Z.pos m2) ltac:(lia)) as Heucl.
  pose proof (Z.mod_pos_bound (Z.pos m1 * 2 ^ 53) (Z.pos m2) ltac:(lia)) as Hmod.
  unfold Z.modulo, Z.div in *.
  destruct (Z.div_eucl (Z.pos m1 * 2 ^ 53) (Z.pos m2)) as [q' r] eqn:Hqr.
  cbn [fst snd] in *. subst q.
  assert (Hq : 2 ^ 52 <= q' < 2 ^ 54).
  { change (2 ^ 54) with (2 * 2 ^ 53).
    assert (0 < 2 ^ 53) by lia. assert (0 < 2 ^ 52) by lia. nia. }
  destruct q' as [|qp|qp]; try lia.
  assert (Hn : Zdigits2 (Z.pos qp) = 53 \/ Zdigits2 (Z.pos qp) = 54).
  { destruct (Z_lt_le_dec (Z.pos qp) (2 ^ 53)).
    - left. apply Zdigits2_unique. change (53 - 1) with 52. lia.
    - right. apply Zdigits2_unique. change (54 - 1) with 53. lia. }
  destruct (binary_round_aux_normal false qp (e1 - e2 - 53) (new_location (Z.pos m2) r))
    as (m & e & Hr & Hm & He & Hb & _); try (destruct Hn as [-> | ->]; lia).
  exists m, e. split; [exact Hr |]. split; [exact Hm |].
  destruct Hn as [Hn | Hn]; rewrite Hn in He, Hb.
  - change (53 - 53) with 0 in *. rewrite Z.div_1_r in Hb. lia.
  - change (54 - 53) with 1 in *. split; [lia |].
    pose proof (Z.div_mod (Z.pos qp) 2 ltac:(lia)).
    pose proof (Z.mod_pos_bound (Z.pos qp) 2 ltac:(lia)).
    change (2 ^ 1) with 2 in Hb. lia.
Qed.

(** Multiplication of two normal numbers: the product's mantissa, put
    at the exponent [e1 + e2], is within [2^53] of [m1 * m2]. *)
Lemma SFmul_normal (m1 m2 : positive) (e1 e2 : Z) :
  2 ^ 52 <= Z.pos m1 < 2 ^ 53 -> 2 ^ 52 <= Z.pos m2 < 2 ^ 53 ->
  -1074 <= e1 + e2 + 52 -> e1 + e2 + 54 <= 971 ->
  exists m e,
    SF64mul (S754_finite false m1 e1) (S754_finite false m2 e2) = S754_finite false m e /\
    2 ^ 52 <= Z.pos m < 2 ^ 53 /\
    e1 + e2 + 52 <= e <= e1 + e2 + 54 /\
    Z.pos m1 * Z.pos m2 - 2 ^ 53 <= Z.pos m * 2 ^ (e - (e1 + e2))
      <= Z.pos m1 * Z.pos m2 + 2 ^ 53.
Proof.
  intros Hm1 Hm2 Hlo Hhi.
  unfold SF64mul, SFmul. cbn [xorb].
  assert (HP : 2 ^ 104 <= Z.pos (m1 * m2) < 2 ^ 106).
  { rewrite Pos2Z.inj_mul. change (2 ^ 104) with (2 ^ 52 * 2 ^ 52).
    change (2 ^ 106) with (2 ^ 53 * 2 ^ 53).
    assert (0 < 2 ^ 52) by lia. assert (0 < 2 ^ 53) by lia. nia. }
  assert (Hn : Zdigits2 (Z.pos (m1 * m2)) = 105 \/ Zdigits2 (Z.pos (m1 * m2)) = 106).
  { destruct (Z_lt_le_dec (Z.pos (m1 * m2)) (2 ^ 105)).
    - left. apply Zdigits2_unique. change (105 - 1) with 104. lia.
    - right. apply Zdigits2_unique. change (106 - 1) with 105. lia. }
  destruct (binary_round_aux_normal false (m1 * m2) (e1 + e2) loc_Exact)
    as (m & e & Hr & Hm & He & Hb & _); try (destruct Hn as [-> | ->]; lia).
  exists m, e. split; [exact Hr |]. split; [exact Hm |].
  rewrite Pos2Z.inj_mul in *.
  set (P := Z.pos m1 * Z.pos m2) in *.
  destruct Hn as [Hn | Hn]; rewrite Hn in He, Hb.
  - change (105 - 53) with 52 in *. split; [lia |].
    pose proof (Z.div_mod P (2 ^ 52) ltac:(lia)).
    pose proof (Z.mod_pos_bound P (2 ^ 52) ltac:(lia)).
    assert (2 ^ 52 < 2 ^ 53) by (apply Z.pow_lt_mono_r; lia). lia.
  - change (106 - 53) with 53 in *. split; [lia |].
    pose proof (Z.div_mod P (2 ^ 53) ltac:(lia)).
    pose proof (Z.mod_pos_bound P (2 ^ 53) ltac:(lia)). lia.
Qed.

(** *** Binary64 values as real numbers *)

Lemma bpow_add (a b : Z) : bpow (a + b) = (bpow a * bpow b)%R.
Proof. unfold bpow. apply powerRZ_add. lra. Qed.

Lemma bpow_pos (e : Z) : (0 < bpow e)%R.
Proof. unfold bpow. apply powerRZ_lt. lra. Qed.

Lemma bpow_IZR (k : Z) : 0 <= k -> bpow k = IZR (2 ^ k).
Proof.
  intros Hk. unfold bpow.
  rewrite <- (Z2Nat.id k) by assumption.
  rewrite <- pow_powerRZ, <- pow_IZR. reflexivity.
Qed.

Lemma bpow_opp (e : Z) : (bpow (- e) = / bpow e)%R.
Proof.
  apply (Rmult_eq_reg_l (bpow e)); [| pose proof (bpow_pos e); lra].
  rewrite <- bpow_add, Z.add_opp_diag_r.
  rewrite Rinv_r by (pose proof (bpow_pos e); lra). reflexivity.
Qed.

Lemma rel_err_div (T E s Ms q : R) :
  (0 < E -> 4503599627370496 <= q -> q * E <= T -> T < (q + 1) * E ->
   q - 1 <= Ms <= q + 2 -> s = Ms * E ->
   T * (1 - / 2251799813685248) <= s <= T * (1 + / 2251799813685248))%R.
Proof.
  intros HE Hq Hlo Hhi HMs ->.
  assert (H1 : (4503599627370496 * E <= q * E)%R) by (apply Rmult_le_compat_r; lra).
  assert (H2 : ((q - 1) * E <= Ms * E)%R) by (apply Rmult_le_compat_r; lra).
  assert (H3 : (Ms * E <= (q + 2) * E)%R) by (apply Rmult_le_compat_r; lra).
  lra.
Qed.

Lemma rel_err_mul (X E p Mp P : R) :
  (0 < E -> 20282409603651670423947251286016 <= P ->
   P - 9007199254740992 <= Mp <= P + 9007199254740992 ->
   p = Mp * E -> X = P * E ->
   X * (1 - / 2251799813685248) <= p <= X * (1 + / 2251799813685248))%R.
Proof.
  intros HE HP HMp -> ->.
  assert (H1 : (20282409603651670423947251286016 * E <= P * E)%R)
    by (apply Rmult_le_compat_r; lra).
  assert (H2 : ((P - 9007199254740992) * E <= Mp * E)%R) by (apply Rmult_le_compat_r; lra).
  assert (H3 : (Mp * E <= (P + 9007199254740992) * E)%R) by (apply Rmult_le_compat_r; lra).
  lra.
Qed.

Lemma F2R_shift (m : positive) (e e0 : Z) :
  e0 <= e -> F2R m e = (IZR (Z.pos m * 2 ^ (e - e0)) * bpow e0)%R.
Proof.
  intros He. unfold F2R. rewrite mult_IZR, <- bpow_IZR by lia.
  rewrite Rmult_assoc, <- bpow_add. do 2 f_equal. lia.
Qed.

Lemma F2R_exact (m z : positive) (e : Z) :
  e <= 0 -> Z.pos m = Z.pos z * 2 ^ (- e) -> F2R m e = IZR (Z.pos z).
Proof.
  intros He Hm. unfold F2R. rewrite Hm, mult_IZR, <- bpow_IZR by lia.
  rewrite Rmult_assoc, <- bpow_add, Z.add_opp_diag_l.
  unfold bpow. cbn. lra.
Qed.

(** [Math.round] of a positive finite number is within one half of it. *)
Lemma Math_round_finite (x : float) (m : positive) (e : Z) :
  Prim2SF x = S754_finite false m e ->
  exists r, Math_round x = Finite r /\
            (IZR r <= F2R m e + / 2 < IZR r + 1)%R.
Proof.
  intros Hx. unfold Math_round. rewrite Hx. eexists. split; [reflexivity |].
  destruct (Z.leb_spec 0 e) as [He|He].
  - unfold F2R. rewrite mult_IZR, <- bpow_IZR by assumption. lra.
  - set (k := - e). assert (Hk : 0 < k) by (unfold k; lia).
    replace (- e - 1) with (k - 1) by (unfold k; lia).
    assert (HD : 0 < 2 ^ k) by (apply Z.pow_pos_nonneg; lia).
    assert (Hhalf : 2 ^ k = 2 * 2 ^ (k - 1)).
    { rewrite <- Z.pow_succ_r by lia. f_equal. lia. }
    set (r := (Z.pos m + 2 ^ (k - 1)) / 2 ^ k).
    pose proof (Z.mul_div_le (Z.pos m + 2 ^ (k - 1)) (2 ^ k) HD) as Hlo.
    pose proof (Z.mul_succ_div_gt (Z.pos m + 2 ^ (k - 1)) (2 ^ k) HD) as Hhi.
    fold r in Hlo, Hhi.
    apply IZR_le in Hlo. apply IZR_lt in Hhi.
    rewrite mult_IZR, plus_IZR in Hlo. rewrite mult_IZR, plus_IZR, succ_IZR in Hhi.
    assert (HhalfR : IZR (2 ^ k) = (2 * IZR (2 ^ (k - 1)))%R)
      by (rewrite Hhalf at 1; now rewrite mult_IZR).
    assert (HDR : (0 < IZR (2 ^ k))%R) by (apply IZR_lt; assumption).
    unfold F2R. replace e with (- k) by (unfold k; lia).
    rewrite bpow_opp, bpow_IZR by lia.
    set (D := IZR (2 ^ k)) in *. set (M := IZR (Z.pos m)) in *.
    assert (Hinv : (D * / D = 1)%R) by (apply Rinv_r; lra).
    assert (HinvP : (0 < / D)%R) by (apply Rinv_0_lt_compat; lra).
    split.
    + apply (Rmult_le_reg_l D); [lra |].
      replace (D * (M * / D + / 2))%R with (M * (D * / D) + D / 2)%R by (field; lra).
      rewrite Hinv. lra.
    + apply (Rmult_lt_reg_l D); [lra |].
      replace (D * (M * / D + / 2))%R with (M * (D * / D) + D / 2)%R by (field; lra).
      rewrite Hinv. lra.
Qed.

Lemma bpow_div_exponent (et ew : Z) :
  bpow (et - ew - 53) = (bpow et * / bpow ew * / 9007199254740992)%R.
Proof.
  replace (et - ew - 53) with (et + (- ew + Z.opp 53)) by lia.
  rewrite !bpow_add, !bpow_opp, (bpow_IZR 53) by lia.
  change (2 ^ 53) with 9007199254740992. ring.
Qed.

(** The height asked for is a positive integer within one of the exact
    quotient [h * tw / w], for sizes whose product stays below [2^47]. *)
Lemma targetHeight_of_within_one (w h tw : positive) :
  Z.pos w < 2 ^ 53 -> Z.pos h < 2 ^ 53 -> Z.pos tw < 2 ^ 53 ->
  Z.pos h * Z.pos tw <= 2 ^ 47 ->
  exists H,
    targetHeight_of (Z.pos w) (Z.pos h) (Z.pos tw) = Finite H /\
    1 <= H /\
    Z.pos w * (H - 1) <= Z.pos h * Z.pos tw <= Z.pos w * (H + 1).
Proof.
  intros Hw53 Hh53 Ht53 Hprod47.
  destruct (Prim2SF_number_of_Z tw Ht53) as (mt & et & Ht & Hmt & Het & Hvt).
  destruct (Prim2SF_number_of_Z w Hw53) as (mw & ew & Hw & Hmw & Hew & Hvw).
  destruct (Prim2SF_number_of_Z h Hh53) as (mh & eh & Hh & Hmh & Heh & Hvh).
  destruct (SFdiv_normal mt mw et ew) as (ms & es & Hs & Hms & Hes & HMs); try lia.
  destruct (SFmul_normal mh ms eh es) as (mp & ep & Hp & Hmp & Hep & HMp); try lia.
  assert (Hval : Prim2SF (number_of_Z (Z.pos h) *
                          (number_of_Z (Z.pos tw) / number_of_Z (Z.pos w)))%float =
                 S754_finite false mp ep).
  { rewrite mul_spec, div_spec, Ht, Hw, Hh, Hs. exact Hp. }
  destruct (Math_round_finite _ _ _ Hval) as (r & Hr & Hrb).
  unfold targetHeight_of. rewrite Hr. cbn [Math_max].
  exists (Z.max 1 r). split; [reflexivity |]. split; [lia |].
  (* the inputs are exact *)
  pose proof (F2R_exact mt tw et ltac:(lia) Hvt) as HFt.
  pose proof (F2R_exact mw w ew ltac:(lia) Hvw) as HFw.
  pose proof (F2R_exact mh h eh ltac:(lia) Hvh) as HFh.
  assert (Htw0 : (1 <= IZR (Z.pos tw))%R) by (apply IZR_le; lia).
  assert (Hw0 : (1 <= IZR (Z.pos w))%R) by (apply IZR_le; lia).
  assert (Hh0 : (1 <= IZR (Z.pos h))%R) by (apply IZR_le; lia).
  set (T := (IZR (Z.pos tw) / IZR (Z.pos w))%R).
  (* the quotient *)
  set (q := Z.pos mt * 2 ^ 53 / Z.pos mw) in *.
  set (E := bpow (et - ew - 53)).
  assert (HE : (0 < E)%R) by apply bpow_pos.
  assert (Hmw0 : (0 < IZR (Z.pos mw))%R) by (apply IZR_lt; lia).
  assert (Hq52 : 2 ^ 52 <= q).
  { unfold q. apply Z.div_le_lower_bound; [lia |].
    assert (0 < 2 ^ 52) by lia. assert (2 ^ 53 = 2 * 2 ^ 52) by reflexivity. nia. }
  pose proof (Z.mul_div_le (Z.pos mt * 2 ^ 53) (Z.pos mw) ltac:(lia)) as Hq1.
  pose proof (Z.mul_succ_div_gt (Z.pos mt * 2 ^ 53) (Z.pos mw) ltac:(lia)) as Hq2.
  fold q in Hq1, Hq2.
  apply IZR_le in Hq1. apply IZR_lt in Hq2. apply IZR_le in Hq52.
  rewrite !mult_IZR in Hq1. rewrite !mult_IZR, succ_IZR in Hq2.
  change (IZR (2 ^ 53)) with 9007199254740992%R in Hq1, Hq2.
  change (IZR (2 ^ 52)) with 4503599627370496%R in Hq52.
  set (rho := (IZR (Z.pos mt) * 9007199254740992 / IZR (Z.pos mw))%R).
  assert (HTrho : T = (rho * E)%R).
  { unfold T, rho, E. rewrite <- HFt, <- HFw, bpow_div_exponent. unfold F2R.
    field. split; [| lra]. pose proof (bpow_pos ew). lra. }
  assert (Hrho : (IZR q <= rho < IZR q + 1)%R).
  { unfold rho. split.
    - apply (Rmult_le_reg_l (IZR (Z.pos mw))); [assumption |].
      replace (IZR (Z.pos mw) * (IZR (Z.pos mt) * 9007199254740992 / IZR (Z.pos mw)))%R
        with (IZR (Z.pos mt) * 9007199254740992)%R by (field; lra).
      exact Hq1.
    - apply (Rmult_lt_reg_l (IZR (Z.pos mw))); [assumption |].
      replace (IZR (Z.pos mw) * (IZR (Z.pos mt) * 9007199254740992 / IZR (Z.pos mw)))%R
        with (IZR (Z.pos mt) * 9007199254740992)%R by (field; lra).
      exact Hq2. }
  assert (HTlo : (IZR q * E <= T)%R) by (rewrite HTrho; apply Rmult_le_compat_r; lra).
  assert (HThi : (T < (IZR q + 1) * E)%R) by (rewrite HTrho; apply Rmult_lt_compat_r; lra).
  destruct HMs as [HMs1 HMs2]. apply IZR_le in HMs1, HMs2.
  rewrite minus_IZR in HMs1. rewrite plus_IZR in HMs2.
  pose proof (rel_err_div T E (F2R ms es) _ (IZR q) HE Hq52 HTlo HThi
                (conj HMs1 HMs2) (F2R_shift ms es (et - ew - 53) ltac:(lia))) as Hs_err.
  (* the product *)
  set (Ex := bpow (eh + es)).
  assert (HEx : (0 < Ex)%R) by apply bpow_pos.
  assert (HP : (20282409603651670423947251286016 <= IZR (Z.pos mh * Z.pos ms))%R).
  { apply IZR_le. change 20282409603651670423947251286016 with (2 ^ 52 * 2 ^ 52).
    assert (0 < 2 ^ 52) by lia. nia. }
  destruct HMp as [HMp1 HMp2]. apply IZR_le in HMp1, HMp2.
  rewrite minus_IZR in HMp1. rewrite plus_IZR in HMp2.
  change (IZR (2 ^ 53)) with 9007199254740992%R in HMp1, HMp2.
  assert (HX : (IZR (Z.pos h) * F2R ms es = IZR (Z.pos mh * Z.pos ms) * Ex)%R).
  { rewrite <- HFh. unfold F2R, Ex. rewrite bpow_add, mult_IZR. ring. }
  pose proof (rel_err_mul _ Ex (F2R mp ep) _ _ HEx HP (conj HMp1 HMp2)
                (F2R_shift mp ep (eh + es) ltac:(lia)) HX) as Hp_err.
  (* the exact quotient *)
  set (Q := (IZR (Z.pos h) * T)%R).
  assert (HQw : (Q * IZR (Z.pos w) = IZR (Z.pos h * Z.pos tw))%R).
  { unfold Q, T. rewrite mult_IZR. field. lra. }
  assert (HQ47 : (Q <= 140737488355328)%R).
  { apply IZR_le in Hprod47. change (IZR (2 ^ 47)) with 140737488355328%R in Hprod47.
    rewrite <- HQw in Hprod47.
    assert (HQ0 : (0 <= Q)%R).
    { unfold Q, T. apply Rmult_le_pos; [lra |].
      apply Rmult_le_pos; [lra |]. left. apply Rinv_0_lt_compat. lra. }
    assert (Q * 1 <= Q * IZR (Z.pos w))%R by (apply Rmult_le_compat_l; lra).
    lra. }
  assert (HQ0 : (0 < Q)%R).
  { unfold Q, T. apply Rmult_lt_0_compat; [lra |].
    apply Rmult_lt_0_compat; [lra |]. apply Rinv_0_lt_compat. lra. }
  set (s := F2R ms es) in *. set (p := F2R mp ep) in *.
  assert (HXlo : (Q * (1 - / 2251799813685248) <= IZR (Z.pos h) * s)%R).
  { unfold Q. rewrite Rmult_assoc. apply Rmult_le_compat_l; lra. }
  assert (HXhi : (IZR (Z.pos h) * s <= Q * (1 + / 2251799813685248))%R).
  { unfold Q. rewrite Rmult_assoc. apply Rmult_le_compat_l; lra. }
  assert (Hpq : (Q - / 4 <= p <= Q + / 4)%R) by lra.
  (* back to integers *)
  assert (Hrmax : (IZR (Z.max 1 r) - 1 <= Q <= IZR (Z.max 1 r) + 1)%R).
  { destruct (Z.max_spec 1 r) as [[Hlt ->] | [Hge ->]].
    - lra.
    - assert (IZR r <= 1)%R by (apply IZR_le; lia). lra. }
  destruct Hrmax as [Hlo Hhi].
  assert (Hwpos : (0 < IZR (Z.pos w))%R) by lra.
  split; apply le_IZR; rewrite !mult_IZR.
  - rewrite minus_IZR. rewrite mult_IZR in HQw. rewrite <- HQw.
    rewrite (Rmult_comm Q). apply Rmult_le_compat_l; lra.
  - rewrite plus_IZR. rewrite mult_IZR in HQw. rewrite <- HQw.
    rewrite (Rmult_comm Q). apply Rmult_le_compat_l; lra.
Qed.

(** *** Rasterizer *)

(** C8, counterexample.  Asked for a target width of 0 (or of -5) on a
    10x10 source, [resizeCanvasNearest] returns a canvas: nothing is
    thrown, so the input check of the specification does not hold. *)
Lemma resizeCanvasNearest_accepts_nonpositive_width :
  resizeCanvasNearest html (mkCanvas 10 10) (Finite 0) (Finite 1) = Returns (mkCanvas 0 1)
  /\ resizeCanvasNearest html (mkCanvas 10 10) (Finite (-5)) (Finite 1) = Returns (mkCanvas 300 1)
  /\ ~ resize_validates_input html.
Proof.
  split; [reflexivity |]. split; [reflexivity |].
  intros H. destruct (H (mkCanvas 10 10) 0 1) as [Hthrow _].
  destruct Hthrow as [e He]; [right; lia | discriminate He].
Qed.

(** C8, amended.  [resizeCanvasNearest] checks neither the source width
    nor the target width and raises no error of its own: on every platform
    its outcome is that of [drawImage] onto a fresh canvas set to the
    requested size.  On the HTML canvas it fails exactly when the source
    canvas has a zero width or height, with the [InvalidStateError] of
    [drawImage], and returns a canvas for every target width, zero and
    negative ones included. *)
Theorem resizeCanvasNearest_no_validation :
  (forall (P : CanvasPlatform) (src : canvas P) (targetWidth targetHeight : jsint),
      resizeCanvasNearest P src targetWidth targetHeight =
      drawImage P
        (set_height P (set_width P (createElement_canvas P) targetWidth) targetHeight) src
        (Finite 0) (Finite 0) (Finite (canvas_width P src)) (Finite (canvas_height P src))
        (Finite 0) (Finite 0) targetWidth targetHeight) /\
  (forall (src : html_canvas) (targetWidth targetHeight : jsint),
      resizeCanvasNearest html src targetWidth targetHeight =
      if (width_attr src =? 0) || (height_attr src =? 0)
      then Throws (DOMException "InvalidStateError")
      else Returns (mkCanvas (reflect_dimension targetWidth 300)
                             (reflect_dimension targetHeight 150))).
Proof.
  split; [reflexivity |].
  intros src targetWidth targetHeight.
  unfold resizeCanvasNearest. cbn. unfold html_drawImage.
  destruct ((width_attr src =? 0) || (height_attr src =? 0)); reflexivity.
Qed.

(** C7, counterexample.  A 2816x55 capture printed at 384 dots:
    [384 / 2816] rounds to a number just below 3/22, so [55 * scale] is
    just below 7.5 and the resized canvas is 7 rows high, while
    [round(55 * 384 / 2816) = round(7.5) = 8].  And at sizes far beyond
    any printer, [1 x 1073741825] at [1073741826] dots, the product no
    longer fits 53 bits and the height asked for is 2 below the exact
    quotient. *)
Lemma resize_height_below_exact_rounding :
  printElementToPrinter_resize html (Some 384) (mkCanvas 2816 55) = Returns (mkCanvas 384 7)
  /\ printPaperToThermal_resize html (Some 384) (mkCanvas 2816 55) = Returns (mkCanvas 384 7)
  /\ exact_targetHeight 2816 55 384 = 8
  /\ (number_of_Z 55 * number_of_Z 384 / number_of_Z 2816)%float = 7.5%float
  /\ targetHeight_of 1 1073741825 1073741826 = Finite 1152921507828072448
  /\ 1073741825 * 1073741826 = 1152921507828072448 + 2.
Proof. repeat split; vm_compute; reflexivity. Qed.

Lemma reflect_dimension_in_range (z default : Z) :
  0 <= z <= 2147483647 -> reflect_dimension (Finite z) default = z.
Proof.
  intros Hz. unfold reflect_dimension, to_unsigned_long.
  rewrite Z.mod_small by lia.
  destruct (Z.leb_spec z 2147483647); [reflexivity | lia].
Qed.

(** C7, amended.  For a source of width and height in [1, 2^31 - 1] (the
    range of a canvas dimension) and a target width in [1, 65535], the
    height asked for, [Math.max(1, Math.round(height * scale))] with
    [scale = targetWidth / width] rounded to binary64 first, is an integer
    [H >= 1] within one of the exact quotient [height * targetWidth / width];
    and when [H] fits a canvas dimension the resize step of both print
    functions returns a canvas of the target width and of height [H]. *)
Theorem resize_height_within_one (w h tw : Z) :
  1 <= w <= 2147483647 -> 1 <= h <= 2147483647 -> 1 <= tw <= 65535 ->
  exists H,
    targetHeight_of w h tw = Finite H /\
    1 <= H /\
    w * (H - 1) <= h * tw <= w * (H + 1) /\
    (H <= 2147483647 ->
     printElementToPrinter_resize html (Some tw) (mkCanvas w h) = Returns (mkCanvas tw H) /\
     printPaperToThermal_resize html (Some tw) (mkCanvas w h) = Returns (mkCanvas tw H)).
Proof.
  intros Hw Hh Htw.
  destruct w as [|w|w]; try lia. destruct h as [|h|h]; try lia.
  destruct tw as [|tw|tw]; try lia.
  assert (H31 : 2147483647 < 2 ^ 53) by reflexivity.
  destruct (targetHeight_of_within_one w h tw) as (H & HH & H1 & Hb); try lia.
  { change (2 ^ 47) with (2147483648 * 65536). nia. }
  exists H. split; [exact HH |]. split; [exact H1 |]. split; [exact Hb |].
  intros Hfit.
  unfold printElementToPrinter_resize, printPaperToThermal_resize.
  cbn [widthDots_or_default html canvas_width canvas_height width_attr height_attr].
  cbn [Z.eqb orb]. rewrite HH.
  unfold resizeCanvasNearest.
  cbn [html drawImage set_width set_height createElement_canvas canvas_width canvas_height
       width_attr height_attr].
  unfold html_drawImage. cbn [width_attr height_attr Z.eqb orb].
  rewrite !reflect_dimension_in_range by lia. split; reflexivity.
Qed.

Lemma resize_height_within_one_witness :
  printElementToPrinter_resize html (Some 384) (mkCanvas 800 600) = Returns (mkCanvas 384 288).
Proof.
  destruct (resize_height_within_one 800 600 384 ltac:(lia) ltac:(lia) ltac:(lia))
    as (H & HH & _ & _ & Hres).
  assert (HH288 : H = 288).
  { assert (Hc : targetHeight_of 800 600 384 = Finite 288) by (vm_compute; reflexivity).
    rewrite Hc in HH. congruence. }
  subst H. apply Hres. lia.
Defined.

(* ===================================================================== *)
(** * Further properties of the pipeline and of the code around it *)
(* ===================================================================== *)

(** *** Packer: shape of the output *)

Lemma packBitsMonochrome_bytes (bitArray : list Z) (width height : nat) :
  Forall is_byte (packBitsMonochrome bitArray width height).1.
Proof.
  apply Forall_lookup. intros i b Hi.
  assert (Hlt : (i < Math_ceil_div width 8 * height)%nat).
  { apply lookup_lt_Some in Hi. now rewrite packBitsMonochrome_length in Hi. }
  assert (Hb : (0 < Math_ceil_div width 8)%nat) by (destruct (Math_ceil_div width 8); lia).
  pose proof (Nat.div_mod i (Math_ceil_div width 8) ltac:(lia)) as Hdm.
  pose proof (Nat.mod_upper_bound i (Math_ceil_div width 8) ltac:(lia)) as Hm.
  assert (Hy : (i / Math_ceil_div width 8 < height)%nat).
  { apply Nat.Div0.div_lt_upper_bound. lia. }
  rewrite Hdm in Hi.
  rewrite (Nat.mul_comm (Math_ceil_div width 8)) in Hi.
  rewrite packBitsMonochrome_lookup in Hi by assumption.
  injection Hi as <-. apply pack_byte_spec.
Qed.

(** X1. Whatever array it is given, [packBitsMonochrome] returns exactly
    [ceil(width/8) * height] entries, each a byte; with a width or a
    height of zero the raster is empty. *)
Theorem packBitsMonochrome_shape (bitArray : list Z) (width height : nat) :
  let data := (packBitsMonochrome bitArray width height).1 in
  let bytesPerRow := (packBitsMonochrome bitArray width height).2 in
  bytesPerRow = Math_ceil_div width 8 /\
  length data = (bytesPerRow * height)%nat /\
  Forall is_byte data /\
  (width = 0%nat \/ height = 0%nat -> data = []).
Proof.
  intros data bytesPerRow.
  split; [reflexivity |]. split; [apply packBitsMonochrome_length |].
  split; [apply packBitsMonochrome_bytes |].
  intros Hz. apply length_zero_iff_nil. unfold data.
  rewrite packBitsMonochrome_length. cbn [snd packBitsMonochrome].
  destruct Hz as [-> | ->]; [reflexivity | lia].
Qed.

(** X2. Packing loses nothing: two bitmaps of [width * height] entries,
    each 0 or 1, that pack to the same bytes are the same bitmap. *)
Theorem packBitsMonochrome_injective (bits1 bits2 : list Z) (width height : nat) :
  length bits1 = (width * height)%nat -> length bits2 = (width * height)%nat ->
  Forall is_bit bits1 -> Forall is_bit bits2 ->
  (packBitsMonochrome bits1 width height).1 = (packBitsMonochrome bits2 width height).1 ->
  bits1 = bits2.
Proof.
  intros Hl1 Hl2 Hb1 Hb2 Heq. apply list_eq. intros j.
  destruct (decide (j < width * height)%nat) as [Hj|Hj].
  2:{ rewrite !lookup_ge_None_2 by lia. reflexivity. }
  assert (Hw : (0 < width)%nat) by (destruct width; lia).
  pose proof (Nat.div_mod j width ltac:(lia)) as Hdm.
  pose proof (Nat.mod_upper_bound j width ltac:(lia)) as Hm.
  assert (Hy : (j / width < height)%nat) by (apply Nat.Div0.div_lt_upper_bound; lia).
  pose proof (Math_ceil_div_8 width) as Hceil.
  pose proof (inspect_bit_packed bits1 width height (j mod width) (j / width) Hy ltac:(lia))
    as H1.
  pose proof (inspect_bit_packed bits2 width height (j mod width) (j / width) Hy ltac:(lia))
    as H2.
  rewrite Heq, H2 in H1. injection H1 as H1.
  unfold pixel_on in H1.
  destruct (Nat.ltb_spec (j mod width) width) as [_|?]; [| lia]. cbn [andb] in H1.
  replace (j / width * width + j mod width)%nat with j in H1 by lia.
  destruct (lookup_lt_is_Some_2 bits1 j ltac:(lia)) as [b1 Hj1].
  destruct (lookup_lt_is_Some_2 bits2 j ltac:(lia)) as [b2 Hj2].
  rewrite Hj1, Hj2 in *. cbn [truthy] in H1.
  rewrite Forall_lookup in Hb1, Hb2.
  destruct (Hb1 _ _ Hj1) as [-> | ->], (Hb2 _ _ Hj2) as [-> | ->];
    cbn in H1; congruence.
Qed.

Lemma packBitsMonochrome_injective_witness :
  ([1; 0; 1] : list Z) = [1; 0; 1].
Proof.
  apply (packBitsMonochrome_injective [1; 0; 1] [1; 0; 1] 3 1 eq_refl eq_refl);
    try reflexivity;
    repeat (apply Forall_cons; split; [unfold is_bit; lia |]); apply Forall_nil_2.
Defined.

(** *** The encoding steps as a whole *)

Lemma Uint8Array_set_fits (out src : list Z) (offset : nat) :
  (offset + length src <= length out)%nat ->
  Uint8Array_set out src offset =
  Returns (take offset out ++ (to_uint8 <$> src) ++ drop (offset + length src) out).
Proof.
  intros Hfit. unfold Uint8Array_set.
  destruct (decide _) as [_|Hn]; [reflexivity | contradiction].
Qed.

(** Copying a buffer and then a trailer into a fresh array of their
    joint size gives their concatenation. *)
Lemma concat_by_set (a b : list Z) :
  Forall is_byte a -> Forall is_byte b ->
  bind (Uint8Array_set (new_Uint8Array (length a + length b)) a 0) (fun out =>
  bind (Uint8Array_set out b (length a)) (fun out => Returns out)) =
  Returns (a ++ b).
Proof.
  intros Ha Hb. unfold new_Uint8Array.
  rewrite Uint8Array_set_fits by (rewrite length_replicate; lia).
  cbn [bind]. rewrite take_0, app_nil_l, (fmap_to_uint8_bytes a Ha), drop_replicate.
  replace (length a + length b - (0 + length a))%nat with (length b) by lia.
  rewrite Uint8Array_set_fits by (rewrite length_app, length_replicate; lia).
  cbn [bind]. f_equal.
  rewrite take_app_length, (fmap_to_uint8_bytes b Hb).
  rewrite (drop_app_add' a) by reflexivity.
  rewrite drop_replicate, Nat.sub_diag. cbn [replicate].
  now rewrite app_nil_r.
Qed.

Lemma print_encode_eq (imgData : ImageData) (mode : option Z) :
  let header := gs_header (mode_or_default mode)
                          (Z.of_nat (Math_ceil_div (width imgData) 8))
                          (Z.of_nat (height imgData)) in
  printElementToPrinter_encode imgData mode = Returns (header ++ raster_of imgData) /\
  printPaperToThermal_encode imgData mode =
    Returns (header ++ raster_of imgData ++ [0x0A; 0x0A; 0x0A]).
Proof.
  intros header.
  unfold printElementToPrinter_encode, printPaperToThermal_encode.
  set (g := grayscaleImageData imgData).
  change (gray_width g) with (width imgData). change (gray_height g) with (height imgData).
  change (floydSteinbergDither (gray g) (width imgData) (height imgData)).2
    with (dithered_bits imgData).
  pose proof (packBitsMonochrome_bytes (dithered_bits imgData) (width imgData)
                (height imgData)) as Hbytes.
  fold (raster_of imgData) in Hbytes.
  assert (Hpack : packBitsMonochrome (dithered_bits imgData) (width imgData) (height imgData)
                  = (raster_of imgData, Math_ceil_div (width imgData) 8)) by reflexivity.
  rewrite Hpack.
  assert (Hframe :
    buildGsV0Raster (Z.of_nat (Math_ceil_div (width imgData) 8)) (Z.of_nat (height imgData))
                    (raster_of imgData) (mode_or_default mode) =
    Returns (header ++ raster_of imgData)).
  { rewrite buildGsV0Raster_eq, !band_shr_byte, !band_low_byte.
    unfold Uint8Array_of. cbn [fmap list_fmap].
    rewrite !(to_uint8_byte _ (land_255_byte _)).
    change 0xFF with (Z.ones 8). rewrite !Z.land_ones, !Z.shiftr_div_pow2 by lia.
    rewrite (fmap_to_uint8_bytes _ Hbytes). reflexivity. }
  split; [exact Hframe |].
  rewrite Hframe. cbn [bind].
  assert (Hesc : Forall is_byte (header ++ raster_of imgData)).
  { apply Forall_app. split; [| exact Hbytes]. unfold header, gs_header.
    repeat (apply Forall_cons; split);
      try (unfold is_byte; apply Z.mod_pos_bound; lia); try (unfold is_byte; lia).
    apply Forall_nil_2. }
  change (length (Uint8Array_of [0x0A; 0x0A; 0x0A])) with (length [0x0A; 0x0A; 0x0A]).
  change (Uint8Array_of [0x0A; 0x0A; 0x0A]) with [0x0A; 0x0A; 0x0A].
  rewrite (concat_by_set (header ++ raster_of imgData) [0x0A; 0x0A; 0x0A] Hesc).
  - now rewrite <- app_assoc.
  - repeat constructor; lia.
Qed.

(** X3. The encoding steps never throw, whatever the image data: they
    return the eight header bytes, built from [ceil(width/8)] and [height],
    followed by the [ceil(width/8) * height] raster bytes, and
    [printPaperToThermal] returns the same followed by three line feeds
    [0A 0A 0A]. *)
Theorem print_encode_layout (imgData : ImageData) (mode : option Z) :
  let header := gs_header (mode_or_default mode)
                          (Z.of_nat (Math_ceil_div (width imgData) 8))
                          (Z.of_nat (height imgData)) in
  length (raster_of imgData) = (Math_ceil_div (width imgData) 8 * height imgData)%nat /\
  Forall is_byte (raster_of imgData) /\
  printElementToPrinter_encode imgData mode = Returns (header ++ raster_of imgData) /\
  printPaperToThermal_encode imgData mode =
    Returns (header ++ raster_of imgData ++ [0x0A; 0x0A; 0x0A]).
Proof.
  intros header.
  split; [apply packBitsMonochrome_length |].
  split; [apply packBitsMonochrome_bytes |].
  apply print_encode_eq.
Qed.

Lemma gs_header_declared_size (mode bytesPerRow rows : Z) (payload : list Z) :
  declared_size (gs_header mode bytesPerRow rows ++ payload) =
  Some (bytesPerRow mod 65536, rows mod 65536).
Proof.
  unfold declared_size, gs_header. cbn.
  assert (Hsplit : forall z, z mod 256 + 256 * (z / 256 mod 256) = z mod 65536).
  { intros z. rewrite (Z.mod_eq z 65536) by lia.
    pose proof (Z.div_mod z 256 ltac:(lia)).
    pose proof (Z.div_mod (z / 256) 256 ltac:(lia)).
    rewrite Z.div_div in * by lia. change (256 * 256) with 65536 in *. lia. }
  now rewrite !Hsplit.
Qed.

(** X4. The command always carries the whole raster, [ceil(width/8)]
    bytes for each of the [height] rows, but its header declares both
    sizes modulo 65536: what a printer reads back is the true size when the
    image is at most 524280 dots wide and 65535 rows high, and for an
    image of 65536 rows it is a height of zero. *)
Theorem print_encode_declared_size (imgData : ImageData) (mode : option Z) :
  let bytesPerRow := Z.of_nat (Math_ceil_div (width imgData) 8) in
  let rows := Z.of_nat (height imgData) in
  exists cmd,
    printElementToPrinter_encode imgData mode = Returns cmd /\
    Z.of_nat (length (drop 8 cmd)) = bytesPerRow * rows /\
    declared_size cmd = Some (bytesPerRow mod 65536, rows mod 65536) /\
    (Z.of_nat (width imgData) <= 524280 -> rows <= 65535 ->
     declared_size cmd = Some (bytesPerRow, rows)) /\
    (rows = 65536 -> Z.of_nat (width imgData) <= 524280 ->
     declared_size cmd = Some (bytesPerRow, 0)).
Proof.
  intros bytesPerRow rows.
  eexists. split; [apply print_encode_eq |].
  pose proof (Math_ceil_div_8 (width imgData)) as Hceil.
  split.
  { rewrite (drop_app_length' (gs_header _ _ _)) by reflexivity.
    unfold raster_of. rewrite packBitsMonochrome_length. cbn [snd packBitsMonochrome].
    unfold bytesPerRow, rows. lia. }
  rewrite gs_header_declared_size. split; [reflexivity |].
  split.
  - intros Hw Hh. rewrite !Z.mod_small by (unfold bytesPerRow, rows; lia). reflexivity.
  - intros Hh Hw. rewrite (Z.mod_small bytesPerRow) by (unfold bytesPerRow; lia).
    unfold rows in *. rewrite Hh. reflexivity.
Qed.

Lemma print_encode_declared_size_witness :
  exists cmd,
    printElementToPrinter_encode (mkImageData [0; 0; 0; 255; 255; 255; 255; 255] 2 1) None
      = Returns cmd /\
    declared_size cmd = Some (1, 1).
Proof.
  destruct (print_encode_declared_size
              (mkImageData [0; 0; 0; 255; 255; 255; 255; 255] 2 1) None)
    as (cmd & Hcmd & _ & _ & Hin & _).
  exists cmd. split; [exact Hcmd |].
  apply Hin; cbn; lia.
Defined.

(** *** Disperser: what a pixel can still change *)

(** The two nested loops over rows and columns are one loop over the
    row-major index. *)
Lemma nested_loop_linear {A : Type} (f : A -> nat -> nat -> A) (w h : nat) (st : A) :
  fold_left (fun st y => fold_left (fun st x => f st y x) (seq 0 w) st) (seq 0 h) st =
  fold_left (fun st k => f st (k / w)%nat (k mod w)%nat) (seq 0 (w * h)) st.
Proof.
  induction h as [|h IH].
  - rewrite Nat.mul_0_r. reflexivity.
  - rewrite seq_S, fold_left_app, IH. cbn [fold_left Nat.add].
    rewrite Nat.mul_succ_r, seq_app, fold_left_app. cbn [Nat.add].
    set (st' := fold_left _ (seq 0 (w * h)) st). clearbody st'.
    replace (seq (w * h) w) with (Nat.add (w * h) <$> seq 0 w)
      by (rewrite fmap_add_seq; f_equal; lia).
    rewrite fold_left_fmap.
    symmetry.
    apply (fold_left_inv_ext (fun _ => True)); [exact I |].
    intros a x _ Hx. apply elem_of_seq in Hx. split; [| exact I].
    assert (Hdiv : ((w * h + x) / w = h)%nat).
    { symmetry. apply (Nat.div_unique _ w h x); lia. }
    assert (Hmod : ((w * h + x) mod w = x)%nat).
    { symmetry. apply (Nat.mod_unique _ w h x); lia. }
    now rewrite Hdiv, Hmod.
Qed.

(** A pixel hands its error only to slots after its own: the slots up to
    and including its index keep their value. *)
Lemma dither_pixel_before (width height : nat) (g : list float) (bw : list Z)
      (x y j : nat) :
  (x < width)%nat -> (j <= y * width + x)%nat ->
  (dither_pixel width height (g, bw) y x).1 !! j = g !! j.
Proof.
  intros Hx Hj. unfold dither_pixel. cbn [fst].
  rewrite !guarded_add_lookup.
  destruct (Z.geb_spec (Z.of_nat x - 1) 0) as [Hge|Hlt]; cbn [andb];
    repeat match goal with
           | |- context [bool_decide (j = ?i)] =>
               rewrite (bool_decide_eq_false_2 (j = i)) by lia
           end;
    rewrite ?andb_false_r; reflexivity.
Qed.

Lemma dither_prefix (width height : nat) (g : list float) (n : nat) :
  (n <= width * height)%nat ->
  let st := fold_left
              (fun st k => dither_pixel width height st (k / width)%nat (k mod width)%nat)
              (seq 0 n) (g, new_Uint8Array (width * height)) in
  length st.2 = (width * height)%nat /\
  forall j, (j < n)%nat -> st.2 !! j = Some (threshold_bit (st.1 !! j)).
Proof.
  induction n as [|n IH]; intros Hn; cbn zeta.
  - cbn. split; [unfold new_Uint8Array; apply length_replicate | intros j Hj; lia].
  - rewrite seq_S, fold_left_app. cbn [fold_left Nat.add].
    destruct (IH ltac:(lia)) as [Hlen Hbits]. clear IH.
    set (st := fold_left _ (seq 0 n) _) in *. clearbody st.
    destruct st as [g0 bw0]. cbn [fst snd] in Hlen, Hbits.
    assert (Hw : (0 < width)%nat) by (destruct width; lia).
    pose proof (Nat.div_mod n width ltac:(lia)) as Hdm.
    pose proof (Nat.mod_upper_bound n width ltac:(lia)) as Hm.
    assert (Hidx : (n / width * width + n mod width = n)%nat) by lia.
    split; [rewrite (proj2 (dither_pixel_length _ _ _ _ _)); exact Hlen |].
    intros j Hj.
    rewrite dither_pixel_before by lia.
    unfold dither_pixel. cbn [snd]. rewrite Hidx.
    destruct (decide (j = n)) as [->|Hne].
    + rewrite list_lookup_insert_eq by lia. f_equal. unfold threshold_bit.
      destruct (number_of_slot (g0 !! n) <? 128)%float; reflexivity.
    + rewrite list_lookup_insert_ne by lia. apply Hbits. lia.
Qed.

Lemma fold_left_invariant {A B : Type} (Inv : A -> Prop) (f : A -> B -> A)
      (l : list B) (a : A) :
  Inv a -> (forall a b, Inv a -> b ∈ l -> Inv (f a b)) -> Inv (fold_left f l a).
Proof.
  intros Ha Hstep.
  apply (fold_left_inv_ext Inv f f l a Ha).
  intros a' b Ha' Hb. split; [reflexivity | now apply Hstep].
Qed.

Lemma dither_bits_linear (grayArray : list float) (width height j : nat) :
  (j < width * height)%nat ->
  (floydSteinbergDither grayArray width height).2 !! j =
  Some (threshold_bit ((floydSteinbergDither grayArray width height).1 !! j)).
Proof.
  intros Hj. unfold floydSteinbergDither.
  rewrite (nested_loop_linear (fun st y x => dither_pixel width height st y x)).
  apply (dither_prefix width height grayArray (width * height)); [lia | exact Hj].
Qed.

(** X5. Once [floydSteinbergDither] has thresholded a pixel nothing
    touches it again: in the result, every bit is 1 exactly when the value
    left in the gray buffer at that index is below 128.  The buffer keeps
    its length, and its first value, which no pixel hands an error to, is
    the one it had.  This holds for any buffer, also one shorter than
    [width * height]. *)
Theorem floydSteinbergDither_bits_match_buffer
        (grayArray : list float) (width height : nat) :
  let out := floydSteinbergDither grayArray width height in
  (forall j, (j < width * height)%nat -> out.2 !! j = Some (threshold_bit (out.1 !! j))) /\
  length out.1 = length grayArray /\
  out.1 !! 0%nat = grayArray !! 0%nat.
Proof.
  intros out. split; [intros j Hj; now apply dither_bits_linear |].
  unfold out, floydSteinbergDither.
  apply (fold_left_invariant
           (fun st => length st.1 = length grayArray /\ st.1 !! 0%nat = grayArray !! 0%nat));
    [split; reflexivity |].
  intros st y Hst _.
  apply (fold_left_invariant
           (fun st => length st.1 = length grayArray /\ st.1 !! 0%nat = grayArray !! 0%nat));
    [exact Hst |].
  intros [g bw] x [Hlen H0] Hx. apply elem_of_seq in Hx. cbn [fst] in Hlen, H0.
  split.
  - rewrite (proj1 (dither_pixel_length _ _ _ _ _)). exact Hlen.
  - rewrite dither_pixel_before by lia. exact H0.
Qed.

Lemma floydSteinbergDither_bits_match_buffer_witness :
  (floydSteinbergDither [100; 100; 100; 200; 50; 130]%float 3 2).2 !! 4%nat =
  Some (threshold_bit
          ((floydSteinbergDither [100; 100; 100; 200; 50; 130]%float 3 2).1 !! 4%nat)).
Proof.
  apply (proj1 (floydSteinbergDither_bits_match_buffer
                  [100; 100; 100; 200; 50; 130]%float 3 2) 4%nat). cbn. lia.
Defined.

(** Adding the error of a two-level pixel, which is zero, leaves a
    two-level buffer as it is. *)
Lemma Float32Array_add_zero (g : list float) (i : nat) :
  Forall is_two_level g -> Float32Array_add g i 0%float = g.
Proof.
  intros Hg. unfold Float32Array_add, Float32Array_store.
  destruct (g !! i) as [v|] eqn:Hi.
  - apply list_insert_id. rewrite Hi. f_equal.
    rewrite Forall_lookup in Hg.
    destruct (Hg _ _ Hi) as [-> | ->]; vm_compute; reflexivity.
  - apply list_insert_ge. now apply lookup_ge_None.
Qed.

Lemma dither_pixel_two_level (width height : nat) (g : list float) (bw : list Z)
      (x y : nat) :
  (x < width)%nat -> Forall is_two_level g ->
  (dither_pixel width height (g, bw) y x).1 = g.
Proof.
  intros Hx Hg. unfold dither_pixel. cbn [fst].
  set (idx := (y * width + x)%nat).
  destruct (g !! idx) as [v|] eqn:Hv.
  - assert (Herr : forall k, k = 7%float \/ k = 3%float \/ k = 5%float \/ k = 1%float ->
               (((number_of_slot (Some v) -
                  (if (number_of_slot (Some v) <? 128)%float then 0 else 255)) * k) / 16)%float
               = 0%float).
    { rewrite Forall_lookup in Hg.
      intros k Hk. destruct (Hg _ _ Hv) as [-> | ->];
        destruct Hk as [-> | [-> | [-> | ->]]]; vm_compute; reflexivity. }
    rewrite !Herr by tauto.
    repeat match goal with
           | |- context [if ?c then Float32Array_add ?a ?i 0%float else ?a] =>
               replace (if c then Float32Array_add a i 0%float else a) with g
                 by (destruct c; [rewrite Float32Array_add_zero by assumption |]; reflexivity)
           end.
    reflexivity.
  - (* the pixel lies beyond the buffer, and so do the slots after it *)
    apply lookup_ge_None in Hv.
    assert (Hge : forall i v, (idx <= i)%nat -> Float32Array_add g i v = g).
    { intros i v Hi. unfold Float32Array_add, Float32Array_store.
      apply list_insert_ge. lia. }
    destruct (Z.geb_spec (Z.of_nat x - 1) 0) as [Hx1|Hx0]; cbn [andb];
      repeat match goal with
             | |- context [if ?c then Float32Array_add ?a ?i ?v else ?a] =>
                 replace (if c then Float32Array_add a i v else a) with g
                   by (destruct c; [rewrite Hge by (unfold idx; lia) |]; reflexivity)
             end;
      reflexivity.
Qed.

Lemma dither_two_level_buffer (grayArray : list float) (width height : nat) :
  Forall is_two_level grayArray ->
  (floydSteinbergDither grayArray width height).1 = grayArray.
Proof.
  intros Hg. unfold floydSteinbergDither.
  apply (fold_left_invariant (fun st => st.1 = grayArray)); [reflexivity |].
  intros st y Hst _.
  apply (fold_left_invariant (fun st => st.1 = grayArray)); [exact Hst |].
  intros [g bw] x Hst' Hx. apply elem_of_seq in Hx. cbn [fst] in Hst'. subst g.
  apply dither_pixel_two_level; [lia | assumption].
Qed.

(** X6. An image that is already black and white is not disturbed: when
    every value of the buffer is 0 or 255, [floydSteinbergDither] leaves
    the buffer unchanged (every error it diffuses is zero) and marks
    exactly the slots that hold 0. *)
Theorem floydSteinbergDither_two_level (grayArray : list float) (width height : nat) :
  Forall is_two_level grayArray ->
  (floydSteinbergDither grayArray width height).1 = grayArray /\
  forall j, (j < width * height)%nat ->
    (floydSteinbergDither grayArray width height).2 !! j =
    Some (match grayArray !! j with
          | Some v => if (v =? 0)%float then 1 else 0
          | None => 0
          end).
Proof.
  intros Hg.
  pose proof (dither_two_level_buffer grayArray width height Hg) as Hbuf.
  split; [exact Hbuf |].
  intros j Hj.
  rewrite dither_bits_linear by assumption.
  rewrite Hbuf. f_equal. unfold threshold_bit.
  destruct (grayArray !! j) as [v|] eqn:Hv; [| reflexivity].
  rewrite Forall_lookup in Hg.
  destruct (Hg _ _ Hv) as [-> | ->]; reflexivity.
Qed.

Lemma floydSteinbergDither_two_level_witness :
  floydSteinbergDither [0; 255; 255; 0; 0; 255]%float 3 2 =
  ([0; 255; 255; 0; 0; 255]%float, [1; 0; 0; 1; 1; 0]).
Proof.
  assert (Hg : Forall is_two_level [0; 255; 255; 0; 0; 255]%float).
  { repeat (apply Forall_cons; split; [unfold is_two_level; auto |]).
    apply Forall_nil_2. }
  destruct (floydSteinbergDither_two_level [0; 255; 255; 0; 0; 255]%float 3 2 Hg)
    as [Hbuf _].
  destruct (floydSteinbergDither [0; 255; 255; 0; 0; 255]%float 3 2) as [g bw] eqn:Hd.
  cbn [fst] in Hbuf. subst g. f_equal.
  apply (f_equal snd) in Hd. cbn [snd] in Hd. rewrite <- Hd.
  vm_compute. reflexivity.
Defined.

(** *** Luminance converter: transparent and opaque pixels *)

Lemma byte_cases (f : Z -> bool) :
  forallb f all_bytes = true -> forall z, is_byte z -> f z = true.
Proof.
  intros Hall z Hz. rewrite forallb_forall in Hall. apply Hall.
  unfold all_bytes. apply List.in_map_iff. exists (Z.to_nat z).
  split; [unfold is_byte in Hz; lia |].
  apply List.in_seq. unfold is_byte in Hz. lia.
Qed.

Lemma luminance_composite (r g b a : float) :
  luminance r g b a =
  (0.299 * composite r a + 0.587 * composite g a + 0.114 * composite b a)%float.
Proof. reflexivity. Qed.

(** Over white, a transparent sample of any colour is white and an
    opaque one is itself. *)
Lemma composite_transparent (c : Z) :
  is_byte c -> composite (number_of_Z c) (number_of_Z 0) = 255%float.
Proof.
  intros Hc. apply Leibniz.eqb_spec.
  apply (byte_cases (fun c => Leibniz.eqb (composite (number_of_Z c) (number_of_Z 0)) 255));
    [vm_compute; reflexivity | exact Hc].
Qed.

Lemma composite_opaque (c : Z) :
  is_byte c -> composite (number_of_Z c) (number_of_Z 255) = number_of_Z c.
Proof.
  intros Hc. apply Leibniz.eqb_spec.
  apply (byte_cases
           (fun c => Leibniz.eqb (composite (number_of_Z c) (number_of_Z 255)) (number_of_Z c)));
    [vm_compute; reflexivity | exact Hc].
Qed.

Lemma luminance_gray_stored (v : Z) :
  is_byte v ->
  Math_fround (0.299 * number_of_Z v + 0.587 * number_of_Z v + 0.114 * number_of_Z v)%float
  = number_of_Z v.
Proof.
  intros Hv. apply Leibniz.eqb_spec.
  apply (byte_cases
           (fun v => Leibniz.eqb
                       (Math_fround (0.299 * number_of_Z v + 0.587 * number_of_Z v
                                     + 0.114 * number_of_Z v)%float)
                       (number_of_Z v)));
    [vm_compute; reflexivity | exact Hv].
Qed.

Lemma pixel_at_Some (imgData : ImageData) (p : nat) (R G B A : Z) :
  pixel_at imgData p = Some (R, G, B, A) ->
  data imgData !! (4 * p)%nat = Some R /\
  data imgData !! (4 * p + 1)%nat = Some G /\
  data imgData !! (4 * p + 2)%nat = Some B /\
  data imgData !! (4 * p + 3)%nat = Some A.
Proof.
  unfold pixel_at. intros H.
  destruct (data imgData !! (4 * p)%nat) as [r|]; [| discriminate].
  destruct (data imgData !! (4 * p + 1)%nat) as [g|]; [| discriminate].
  destruct (data imgData !! (4 * p + 2)%nat) as [b|]; [| discriminate].
  destruct (data imgData !! (4 * p + 3)%nat) as [a|]; [| discriminate].
  cbn in H. injection H as -> -> -> ->. auto.
Qed.

(** X7. In an image of [width * height] RGBA samples, a fully
    transparent pixel (A = 0) of any colour gets luminance 255.0, so it
    prints as white; a fully opaque one (A = 255) gets the binary32
    rounding of [0.299*R + 0.587*G + 0.114*B], the compositing leaving
    its channels as they are; and an opaque gray pixel (R = G = B) gets
    exactly its gray level. *)
Theorem grayscaleImageData_transparent_and_opaque
        (imgData : ImageData) (p : nat) (R G B A : Z) :
  length (data imgData) = (4 * (width imgData * height imgData))%nat ->
  pixel_at imgData p = Some (R, G, B, A) ->
  is_byte R -> is_byte G -> is_byte B ->
  (A = 0 -> gray (grayscaleImageData imgData) !! p = Some 255%float) /\
  (A = 255 ->
   gray (grayscaleImageData imgData) !! p =
   Some (Math_fround (0.299 * number_of_Z R + 0.587 * number_of_Z G
                      + 0.114 * number_of_Z B)%float)) /\
  (A = 255 -> R = G -> G = B ->
   gray (grayscaleImageData imgData) !! p = Some (number_of_Z R)).
Proof.
  intros Hlen Hpx HR HG HB.
  destruct (pixel_at_Some _ _ _ _ _ _ Hpx) as (H0 & H1 & H2 & H3).
  assert (Hp : (p < width imgData * height imgData)%nat).
  { apply lookup_lt_Some in H3. lia. }
  rewrite grayscaleImageData_lookup by assumption.
  rewrite H0, H1, H2, H3. cbn [number_of_byte_slot].
  rewrite luminance_composite.
  assert (Hopaque : A = 255 ->
    Some (Math_fround (0.299 * composite (number_of_Z R) (number_of_Z A)
                       + 0.587 * composite (number_of_Z G) (number_of_Z A)
                       + 0.114 * composite (number_of_Z B) (number_of_Z A))%float) =
    Some (Math_fround (0.299 * number_of_Z R + 0.587 * number_of_Z G
                       + 0.114 * number_of_Z B)%float)).
  { intros ->. now rewrite !composite_opaque by assumption. }
  split; [| split].
  - intros ->. rewrite !composite_transparent by assumption.
    vm_compute. reflexivity.
  - exact Hopaque.
  - intros HA <- <-. rewrite (Hopaque HA). f_equal.
    now apply luminance_gray_stored.
Qed.

Lemma grayscaleImageData_transparent_and_opaque_witness :
  gray (grayscaleImageData (mkImageData [12; 200; 7; 0; 90; 90; 90; 255] 2 1)) !! 0%nat
  = Some 255%float
  /\ gray (grayscaleImageData (mkImageData [12; 200; 7; 0; 90; 90; 90; 255] 2 1)) !! 1%nat
     = Some (number_of_Z 90).
Proof.
  split.
  - apply (grayscaleImageData_transparent_and_opaque
             (mkImageData [12; 200; 7; 0; 90; 90; 90; 255] 2 1) 0 12 200 7 0);
      try reflexivity; unfold is_byte; lia.
  - apply (grayscaleImageData_transparent_and_opaque
             (mkImageData [12; 200; 7; 0; 90; 90; 90; 255] 2 1) 1 90 90 90 255);
      try reflexivity; unfold is_byte; lia.
Defined.

(** *** From a black-and-white image to the raster *)

Lemma gray_of_black_or_blank (imgData : ImageData) (p : nat) (px : Z * Z * Z * Z) :
  length (data imgData) = (4 * (width imgData * height imgData))%nat ->
  pixel_at imgData p = Some px ->
  (is_black_sample px -> gray (grayscaleImageData imgData) !! p = Some 0%float) /\
  (is_blank_sample px -> gray (grayscaleImageData imgData) !! p = Some 255%float).
Proof.
  intros Hlen Hpx. destruct px as [[[R G] B] A].
  destruct (pixel_at_Some _ _ _ _ _ _ Hpx) as (H0 & H1 & H2 & H3).
  assert (Hp : (p < width imgData * height imgData)%nat).
  { apply lookup_lt_Some in H3. lia. }
  rewrite grayscaleImageData_lookup by assumption.
  rewrite H0, H1, H2, H3. cbn [number_of_byte_slot].
  split.
  - intros [= -> -> -> ->]. vm_compute. reflexivity.
  - intros (HR & HG & HB & [-> | (-> & -> & -> & ->)]).
    + rewrite luminance_composite, !composite_transparent by assumption.
      vm_compute. reflexivity.
    + vm_compute. reflexivity.
Qed.

(** X8. A black-and-white image prints dot for dot.  When every pixel
    of the image is opaque black, opaque white or fully transparent, the
    encoding steps return a command whose raster has, at row [y] and
    column [x], a 1 bit for an opaque black pixel and a 0 bit for a white
    or transparent one: dithering adds no dot and drops none. *)
Theorem print_black_and_white (imgData : ImageData) (mode : option Z) :
  length (data imgData) = (4 * (width imgData * height imgData))%nat ->
  (forall p, (p < width imgData * height imgData)%nat ->
     exists px, pixel_at imgData p = Some px /\ (is_black_sample px \/ is_blank_sample px)) ->
  exists cmd,
    printElementToPrinter_encode imgData mode = Returns cmd /\
    forall x y px,
      (x < width imgData)%nat -> (y < height imgData)%nat ->
      pixel_at imgData (y * width imgData + x) = Some px ->
      (is_black_sample px ->
       inspect_bit (drop 8 cmd) (Math_ceil_div (width imgData) 8) x y = Some 1) /\
      (is_blank_sample px ->
       inspect_bit (drop 8 cmd) (Math_ceil_div (width imgData) 8) x y = Some 0).
Proof.
  intros Hlen Hbw.
  eexists. split; [apply print_encode_eq |].
  rewrite (drop_app_length' (gs_header _ _ _)) by reflexivity.
  set (g := gray (grayscaleImageData imgData)).
  assert (Htwo : Forall is_two_level g).
  { apply Forall_lookup. intros p v Hv.
    assert (Hp : (p < width imgData * height imgData)%nat).
    { apply lookup_lt_Some in Hv. unfold g in Hv.
      now rewrite grayscaleImageData_length in Hv. }
    destruct (Hbw p Hp) as (px & Hpx & Hcase).
    destruct (gray_of_black_or_blank imgData p px Hlen Hpx) as [Hblack Hblank].
    fold g in Hblack, Hblank.
    destruct Hcase as [Hc | Hc]; [left; specialize (Hblack Hc) | right; specialize (Hblank Hc)];
      congruence. }
  intros x y px Hx Hy Hpx.
  assert (Hidx : (y * width imgData + x < width imgData * height imgData)%nat) by nia.
  pose proof (Math_ceil_div_8 (width imgData)) as Hceil.
  destruct (gray_of_black_or_blank imgData _ px Hlen Hpx) as [Hblack Hblank].
  fold g in Hblack, Hblank.
  assert (Hbits : dithered_bits imgData !! (y * width imgData + x)%nat =
                  Some (threshold_bit (g !! (y * width imgData + x)%nat))).
  { unfold dithered_bits. cbn zeta.
    change (gray_width (grayscaleImageData imgData)) with (width imgData).
    change (gray_height (grayscaleImageData imgData)) with (height imgData).
    fold g. rewrite dither_bits_linear by assumption.
    now rewrite (dither_two_level_buffer g _ _ Htwo). }
  unfold raster_of.
  rewrite inspect_bit_packed by (try assumption; lia).
  unfold pixel_on.
  destruct (Nat.ltb_spec x (width imgData)) as [_|?]; [| lia]. cbn [andb].
  rewrite Hbits.
  split; intros Hc.
  - rewrite (Hblack Hc). reflexivity.
  - rewrite (Hblank Hc). reflexivity.
Qed.

Lemma print_black_and_white_witness :
  exists cmd,
    printElementToPrinter_encode
      (mkImageData [0; 0; 0; 255; 9; 9; 9; 0; 255; 255; 255; 255] 3 1) None = Returns cmd /\
    inspect_bit (drop 8 cmd) 1 0 0 = Some 1 /\
    inspect_bit (drop 8 cmd) 1 1 0 = Some 0.
Proof.
  destruct (print_black_and_white
              (mkImageData [0; 0; 0; 255; 9; 9; 9; 0; 255; 255; 255; 255] 3 1) None eq_refl)
    as (cmd & Hcmd & Hbits).
  - intros p Hp. cbn in Hp.
    destruct p as [|[|[|p]]]; [| | | lia]; eexists; (split; [reflexivity |]).
    + left. reflexivity.
    + right. unfold is_blank_sample, is_byte. lia.
    + right. unfold is_blank_sample, is_byte. lia.
  - exists cmd. split; [exact Hcmd |]. split.
    + apply (proj1 (Hbits 0%nat 0%nat (0, 0, 0, 255) ltac:(cbn; lia) ltac:(cbn; lia) eq_refl)).
      reflexivity.
    + apply (proj2 (Hbits 1%nat 0%nat (9, 9, 9, 0) ltac:(cbn; lia) ltac:(cbn; lia) eq_refl)).
      unfold is_blank_sample, is_byte. lia.
Defined.

(** ** The poster text *)

Lemma trimStart_tight (s : jsstring) (c : Z) :
  head s = Some c -> is_space c = false -> trimStart s = s.
Proof. destruct s as [|c' s']; [discriminate |]. intros [= ->] Hc. cbn. now rewrite Hc. Qed.

Lemma trim_tight (s : jsstring) : is_tight s -> trim s = s.
Proof.
  intros [(c & Hc & Hcs) (d & Hd & Hds)]. unfold trim, trimEnd.
  rewrite (trimStart_tight s c Hc Hcs).
  rewrite (trimStart_tight (reverse s) d) by (rewrite ?head_reverse; assumption).
  apply reverse_involutive.
Qed.

Lemma trim_space_tight (s : jsstring) : is_tight s -> trim (SPACE :: s) = s.
Proof. intros Hs. unfold trim. cbn [trimStart]. change (is_space SPACE) with true. apply (trim_tight s Hs). Qed.

Lemma is_word_tight (w : jsstring) : is_word w -> is_tight w.
Proof.
  intros [Hne Hw]. split.
  - destruct w as [|c w']; [done |]. exists c. split; [reflexivity |].
    now apply Forall_cons in Hw.
  - destruct (last w) as [d|] eqn:Hd; [| apply last_None in Hd; done].
    exists d. split; [reflexivity |].
    apply last_Some in Hd as [l' ->]. apply Forall_app in Hw as [_ Hw].
    now apply Forall_cons in Hw.
Qed.

Lemma is_tight_app (a mid b : jsstring) : is_tight a -> is_tight b -> is_tight (a ++ mid ++ b).
Proof.
  intros [(c & Hc & Hcs) _] [_ (d & Hd & Hds)]. split.
  - exists c. split; [| assumption]. rewrite head_app, Hc. reflexivity.
  - exists d. split; [| assumption]. rewrite !last_app, Hd. reflexivity.
Qed.

Lemma join_spaces_snoc (cur : list jsstring) (w : jsstring) :
  cur <> [] -> join_spaces (cur ++ [w]) = join_spaces cur ++ [SPACE] ++ w.
Proof.
  destruct cur as [|a cur']; [done |]. intros _. cbn [join_spaces app].
  rewrite bind_app. cbn. rewrite app_nil_r, <- app_assoc. reflexivity.
Qed.

Lemma join_spaces_tight (cur : list jsstring) :
  cur <> [] -> Forall is_word cur -> is_tight (join_spaces cur).
Proof.
  induction cur as [|w cur' IH] using rev_ind; [done |]. intros _ Hws.
  apply Forall_app in Hws as [Hcur Hw]. apply Forall_cons in Hw as [Hw _].
  destruct cur' as [|a cur''].
  - cbn. rewrite app_nil_r. now apply is_word_tight.
  - rewrite join_spaces_snoc by done.
    apply is_tight_app; [apply IH; [done | assumption] | now apply is_word_tight].
Qed.

Lemma is_tight_length (s : jsstring) : is_tight s -> s <> [].
Proof. intros [(c & Hc & _) _] ->. discriminate. Qed.

(** The loop of [generate] from a line that already holds words: the
    lines pushed are the closed groups of words, the line being filled is
    the open group, with or without the space the first turn puts in
    front. *)
Lemma wrap_fold_groups (ws : list jsstring) (pre : list jsstring) :
  Forall is_word ws ->
  forall (groups : list (list jsstring)) (cur : list jsstring) (line : jsstring),
    cur <> [] -> Forall is_word cur -> Forall is_line_group groups ->
    (line = join_spaces cur \/ line = SPACE :: join_spaces cur) ->
    ((length line < 20)%nat \/ exists w, cur = [w] /\ line = w) ->
    exists groups' cur' line',
      fold_left wrap_step ws (pre ++ (join_spaces <$> groups), line) =
        (pre ++ (join_spaces <$> groups'), line') /\
      cur' <> [] /\ Forall is_word cur' /\ Forall is_line_group groups' /\
      (line' = join_spaces cur' \/ line' = SPACE :: join_spaces cur') /\
      ((length line' < 20)%nat \/ exists w, cur' = [w] /\ line' = w) /\
      concat groups' ++ cur' = concat groups ++ cur ++ ws.
Proof.
  induction ws as [|w ws IH]; intros Hws groups cur line Hcur Hwords Hgroups Hline Hlen.
  - exists groups, cur, line. rewrite app_nil_r. cbn.
    repeat (split; [first [assumption | reflexivity] |]). reflexivity.
  - apply Forall_cons in Hws as [Hw Hws]. cbn [fold_left wrap_step].
    pose proof (join_spaces_tight cur Hcur Hwords) as Htight.
    destruct (Nat.ltb_spec (length (line ++ [SPACE] ++ w)) 20) as [Hfit | Hfull].
    + destruct (IH Hws groups (cur ++ [w]) (line ++ [SPACE] ++ w))
        as (groups' & cur' & line' & Hrun & H1 & H2 & H3 & H4 & H5 & H6).
      * intros Heq. now apply app_eq_nil in Heq as [_ ?].
      * apply Forall_app. split; [assumption | now apply Forall_cons].
      * assumption.
      * rewrite join_spaces_snoc by assumption.
        destruct Hline as [-> | ->]; [left | right]; reflexivity.
      * now left.
      * exists groups', cur', line'. rewrite <- !app_assoc in H6.
        repeat (split; [assumption |]). exact H6.
    + assert (Htrim : trim line = join_spaces cur).
      { destruct Hline as [-> | ->]; [now apply trim_tight | now apply trim_space_tight]. }
      assert (Hgroup : is_line_group cur).
      { split; [assumption |].
        destruct Hlen as [Hlen | (w0 & -> & _)]; [left | right; now exists w0].
        destruct Hline as [-> | ->]; cbn [length] in Hlen; lia. }
      destruct (IH Hws (groups ++ [cur]) [w] w)
        as (groups' & cur' & line' & Hrun & H1 & H2 & H3 & H4 & H5 & H6).
      * done.
      * now apply Forall_cons.
      * apply Forall_app. split; [assumption | now apply Forall_cons].
      * left. cbn. now rewrite app_nil_r.
      * right. now exists w.
      * exists groups', cur', line'.
        rewrite fmap_app, app_assoc in Hrun. cbn [fmap list_fmap] in Hrun.
        rewrite <- Htrim in Hrun.
        rewrite concat_app in H6. cbn [concat] in H6.
        rewrite app_nil_r, <- !app_assoc in H6.
        repeat (split; [assumption |]). exact H6.
Qed.

(** What [generate] makes of a list of words: the words in their order,
    cut into groups that each fill one line. *)
Lemma wrap_lines_groups (words : list jsstring) :
  Forall is_word words ->
  exists groups,
    wrap_lines words = leading_lines words ++ (join_spaces <$> groups) /\
    concat groups = words /\
    Forall is_line_group groups.
Proof.
  intros Hwords. destruct words as [|w ws].
  - exists []. repeat split. constructor.
  - apply Forall_cons in Hwords as [Hw Hws].
    unfold wrap_lines. cbn [fold_left wrap_step].
    match goal with |- context [fold_left wrap_step ws ?st0] => set (st := st0) end.
    assert (Hstart : exists line,
               st = (leading_lines (w :: ws) ++ (join_spaces <$> []), line) /\
               (line = join_spaces [w] \/ line = SPACE :: join_spaces [w]) /\
               ((length line < 20)%nat \/ exists w0, [w] = [w0] /\ line = w0)).
    { unfold st. cbn [leading_lines app length join_spaces mbind list_bind fmap list_fmap].
      rewrite !app_nil_r.
      destruct (Nat.ltb_spec (S (length w)) 20) as [Hfit | Hfull].
      - destruct (Nat.leb_spec 19 (length w)) as [? | _]; [lia |].
        exists (SPACE :: w). cbn [length]. auto.
      - destruct (Nat.leb_spec 19 (length w)) as [_ | ?]; [| lia].
        exists w. split; [reflexivity |]. split; [now left |]. right. now exists w. }
    destruct Hstart as (line & Hst & Hline & Hlen).
    destruct (wrap_fold_groups ws (leading_lines (w :: ws)) Hws [] [w] line)
      as (groups' & cur' & line' & Hrun & H1 & H2 & H3 & H4 & H5 & H6);
      [done | now apply Forall_cons | constructor | assumption | assumption |].
    pose proof (join_spaces_tight cur' H1 H2) as Htight.
    assert (Htrim : trim line' = join_spaces cur').
    { destruct H4 as [-> | ->]; [now apply trim_tight | now apply trim_space_tight]. }
    assert (Hne : line' <> []).
    { destruct H4 as [-> | ->]; [now apply is_tight_length | discriminate]. }
    assert (Hgroup : is_line_group cur').
    { split; [assumption |].
      destruct H5 as [Hlen' | (w0 & -> & _)]; [left | right; now exists w0].
      destruct H4 as [-> | ->]; cbn [length] in Hlen'; lia. }
    exists (groups' ++ [cur']). rewrite Hst, Hrun.
    destruct line' as [|c line'']; [done |].
    rewrite Htrim, fmap_app, concat_app, app_assoc. cbn [fmap list_fmap concat].
    rewrite app_nil_r. split; [reflexivity |]. split; [exact H6 |].
    apply Forall_app. split; [assumption | now apply Forall_cons].
Qed.

Lemma trimStart_spec (s : jsstring) :
  exists sp,
    s = sp ++ trimStart s /\
    is_blank sp /\
    (trimStart s = [] \/ exists c, head (trimStart s) = Some c /\ is_space c = false).
Proof.
  induction s as [|c s IH].
  - exists []. split; [reflexivity |]. split; [constructor | now left].
  - cbn [trimStart]. destruct (is_space c) eqn:Hc.
    + destruct IH as (sp & Hsp & Hblank & Hhead). exists (c :: sp).
      split; [cbn; now rewrite <- Hsp |]. split; [now apply Forall_cons | exact Hhead].
    + exists []. split; [reflexivity |]. split; [constructor |]. right. now exists c.
Qed.

(** What [trim] leaves is empty or has no white space at either end. *)
Lemma trim_is_tight (s : jsstring) : trim s <> [] -> is_tight (trim s).
Proof.
  unfold trim, trimEnd. set (t := trimStart s).
  destruct (trimStart_spec s) as (_ & _ & _ & Ht). fold t in Ht.
  destruct (trimStart_spec (reverse t)) as (sp & Hsp & _ & Hr).
  set (r := trimStart (reverse t)) in *.
  intros Hne.
  assert (Hr0 : r <> []).
  { intros Heq. apply Hne. rewrite Heq. reflexivity. }
  destruct Hr as [? | (d & Hd & Hds)]; [done |].
  assert (Hrev : t = reverse r ++ reverse sp).
  { rewrite <- reverse_app, <- Hsp. symmetry. apply reverse_involutive. }
  split.
  - destruct Ht as [Ht | (c & Hc & Hcs)].
    + rewrite Ht in Hrev. symmetry in Hrev. apply app_eq_nil in Hrev as [Hrev _]. done.
    + exists c. split; [| assumption].
      rewrite Hrev, head_app in Hc.
      destruct (head (reverse r)) eqn:Hh; [assumption |].
      apply head_None in Hh. done.
  - exists d. split; [| assumption]. now rewrite last_reverse.
Qed.

(** The pieces [split] returns hold no white space; the first is empty
    only when the string is empty or begins with white space, and the
    others are not empty unless the string ends with white space. *)
Lemma split_spaces_spec (s : jsstring) :
  exists p ps,
    split_spaces s = p :: ps /\
    Forall (Forall (fun c => is_space c = false)) (p :: ps) /\
    ((exists c, head s = Some c /\ is_space c = false) -> p <> []) /\
    ((exists d, last s = Some d /\ is_space d = false) -> Forall (fun q => q <> []) ps).
Proof.
  induction s as [|c s IH].
  - exists [], []. split; [reflexivity |]. split; [repeat constructor |].
    split; [intros (c & Hc & _); discriminate | constructor].
  - destruct IH as (p & ps & Hsplit & Hclean & Hhead & Hlast).
    apply Forall_cons in Hclean as [Hp Hps].
    cbn [split_spaces]. rewrite Hsplit.
    destruct (is_space c) eqn:Hc.
    + destruct s as [|c' s'].
      * exists [], [[]]. cbn in Hsplit. injection Hsplit as <- <-.
        split; [reflexivity |]. split; [repeat constructor |].
        split; [intros (c0 & [= <-] & Hc0); congruence |].
        intros (d & [= <-] & Hd). congruence.
      * destruct (is_space c') eqn:Hc'.
        -- exists p, ps. split; [reflexivity |]. split; [now apply Forall_cons |].
           split; [intros (c0 & [= <-] & Hc0); congruence |].
           intros Hd. apply Hlast. exact Hd.
        -- exists [], (p :: ps). split; [reflexivity |].
           split; [repeat (apply Forall_cons; split; try assumption); constructor |].
           split; [intros (c0 & [= <-] & Hc0); congruence |].
           intros Hd. apply Forall_cons. split.
           ++ apply Hhead. now exists c'.
           ++ apply Hlast. exact Hd.
    + exists (c :: p), ps. split; [reflexivity |].
      split; [apply Forall_cons; split; [now apply Forall_cons | assumption] |].
      split; [done |].
      intros (d & Hd & Hds). destruct s as [|c' s'].
      * cbn in Hsplit. injection Hsplit as <- <-. constructor.
      * apply Hlast. exists d. split; [exact Hd | assumption].
Qed.

Lemma split_spaces_words (txt : jsstring) :
  is_tight txt -> split_spaces txt <> [] /\ Forall is_word (split_spaces txt).
Proof.
  intros [Hhead Hlast].
  destruct (split_spaces_spec txt) as (p & ps & -> & Hclean & Hp & Hps).
  split; [done |].
  specialize (Hp Hhead). specialize (Hps Hlast).
  apply Forall_cons in Hclean as [Hcp Hcps].
  apply Forall_cons. split; [now split |].
  apply Forall_forall. intros q Hq. split.
  - now apply (proj1 (Forall_forall _ _) Hps).
  - now apply (proj1 (Forall_forall _ _) Hcps).
Qed.

(** [trim] takes white space off both ends and nothing else. *)
Lemma trim_decompose (value : jsstring) :
  exists lead trail,
    value = lead ++ trim value ++ trail /\ is_blank lead /\ is_blank trail.
Proof.
  unfold trim, trimEnd.
  destruct (trimStart_spec value) as (lead & Hlead & Hblank & _).
  set (t := trimStart value) in *.
  destruct (trimStart_spec (reverse t)) as (sp & Hsp & Hblank' & _).
  exists lead, (reverse sp). split; [| split; [assumption | now apply Forall_reverse]].
  rewrite <- reverse_app, <- Hsp, reverse_involutive. exact Hlead.
Qed.

Lemma trim_blank (value : jsstring) : is_blank value <-> trim value = [].
Proof.
  destruct (trim_decompose value) as (lead & trail & Hv & Hlead & Htrail). split.
  - intros Hblank. destruct (trim value) as [|c txt] eqn:Htxt; [reflexivity | exfalso].
    assert (Htight : is_tight (c :: txt)) by (rewrite <- Htxt; apply trim_is_tight; congruence).
    destruct Htight as [(c0 & [= <-] & Hc) _].
    rewrite Hv in Hblank. apply Forall_app in Hblank as [_ Hblank].
    apply Forall_app in Hblank as [Hblank _]. apply Forall_cons in Hblank as [Hblank _].
    congruence.
  - intros Hempty. rewrite Hv, Hempty. apply Forall_app. split; assumption.
Qed.

(** The pieces [split] returns, woven with the runs of white space it
    cut at, are the string. *)
Lemma split_spaces_weave (s : jsstring) :
  exists first rest,
    split_spaces s = first :: rest.*2 /\
    s = weave first rest /\
    Forall (fun gp => is_gap gp.1) rest.
Proof.
  induction s as [|c s IH].
  - exists [], []. split; [reflexivity |]. split; [reflexivity | constructor].
  - destruct IH as (first & rest & Hsplit & Hs & Hgaps).
    cbn [split_spaces]. rewrite Hsplit.
    assert (Hfresh : exists first' rest',
               [] :: first :: rest.*2 = first' :: rest'.*2 /\
               c :: s = weave first' rest' /\
               (is_space c = true -> Forall (fun gp => is_gap gp.1) rest')).
    { exists [], (([c], first) :: rest). split; [reflexivity |].
      split; [cbn; now rewrite Hs |].
      intros Hc. apply Forall_cons. split; [| assumption].
      split; [discriminate | now apply Forall_cons]. }
    destruct (is_space c) eqn:Hc.
    + destruct s as [|c' s'].
      { destruct Hfresh as (f & r & H1 & H2 & H3). exists f, r. auto. }
      destruct (is_space c') eqn:Hc'.
      2:{ destruct Hfresh as (f & r & H1 & H2 & H3). exists f, r. auto. }
      destruct (split_spaces_spec (c' :: s')) as (p & ps & Hp & Hclean & _ & _).
      rewrite Hsplit in Hp. injection Hp as <- <-.
      apply Forall_cons in Hclean as [Hfirst _].
      destruct first as [|x first'].
      2:{ cbn in Hs. injection Hs as <- _. apply Forall_cons in Hfirst as [Hx _]. congruence. }
      destruct rest as [|[g q] rest']; [discriminate Hs |].
      apply Forall_cons in Hgaps as [[Hg Hblank] Hgaps].
      exists [], ((c :: g, q) :: rest'). split; [reflexivity |].
      split; [cbn; cbn in Hs; now rewrite Hs |].
      apply Forall_cons. split; [| assumption].
      split; [discriminate | now apply Forall_cons].
    + exists (c :: first), rest. split; [reflexivity |].
      split; [cbn; now rewrite Hs | assumption].
Qed.

(** The words [generate] splits the input into are the words of the
    input. *)
Lemma split_trim_are_words (value : jsstring) :
  trim value <> [] -> are_words_of value (split_spaces (trim value)).
Proof.
  intros Hne.
  destruct (trim_decompose value) as (lead & trail & Hv & Hlead & Htrail).
  destruct (split_spaces_weave (trim value)) as (first & rest & Hsplit & Hs & Hgaps).
  destruct (split_spaces_words _ (trim_is_tight value Hne)) as [_ Hwords].
  exists lead, trail, first, rest.
  split; [now rewrite <- Hs |]. split; [assumption |]. split; [assumption |].
  split; [assumption |]. split; assumption.
Qed.

(** A run of characters of one kind, followed by nothing or by a
    character of the other kind, is determined by the string. *)
Lemma run_unique (A B : Z -> Prop) (a1 a2 r1 r2 : jsstring) :
  (forall c, A c -> B c -> False) ->
  Forall A a1 -> Forall A a2 ->
  (forall c, head r1 = Some c -> B c) -> (forall c, head r2 = Some c -> B c) ->
  a1 ++ r1 = a2 ++ r2 -> a1 = a2 /\ r1 = r2.
Proof.
  intros Hdis. revert a2. induction a1 as [|x a1 IH]; intros a2 Ha1 Ha2 Hr1 Hr2 Heq.
  - destruct a2 as [|y a2]; [auto | exfalso]. cbn in Heq. subst r1.
    apply Forall_cons in Ha2 as [Hy _]. apply (Hdis y Hy). now apply Hr1.
  - apply Forall_cons in Ha1 as [Hx Ha1]. destruct a2 as [|y a2].
    + exfalso. cbn in Heq. subst r2. apply (Hdis x Hx). now apply Hr2.
    + apply Forall_cons in Ha2 as [_ Ha2]. injection Heq as -> Heq.
      destruct (IH a2 Ha1 Ha2 Hr1 Hr2 Heq) as [-> ->]. auto.
Qed.

Lemma space_or_not (c : Z) : is_space c = false -> is_space c = true -> False.
Proof. congruence. Qed.

Lemma head_after_word (w rest : jsstring) (c : Z) :
  is_word w -> head (w ++ rest) = Some c -> is_space c = false.
Proof.
  intros [Hne Hw] Hc. destruct w as [|x w]; [done |]. cbn in Hc. injection Hc as <-.
  now apply Forall_cons in Hw.
Qed.

Lemma head_of_gaps (rest : list (jsstring * jsstring)) (trail : jsstring) (c : Z) :
  Forall (fun gp => is_gap gp.1) rest -> is_blank trail ->
  head ((rest ≫= fun gp => gp.1 ++ gp.2) ++ trail) = Some c -> is_space c = true.
Proof.
  intros Hgaps Htrail Hc. destruct rest as [|[g p] rest].
  - destruct trail as [|x trail]; [discriminate |]. cbn in Hc. injection Hc as <-.
    now apply Forall_cons in Htrail.
  - apply Forall_cons in Hgaps as [[Hg Hblank] _]. cbn in Hg, Hblank.
    destruct g as [|x g]; [done |]. cbn in Hc. injection Hc as <-.
    now apply Forall_cons in Hblank.
Qed.

(** A text has one list of words. *)
Lemma weave_unique (rest1 : list (jsstring * jsstring)) :
  forall (rest2 : list (jsstring * jsstring)) (first1 first2 trail1 trail2 : jsstring),
    weave first1 rest1 ++ trail1 = weave first2 rest2 ++ trail2 ->
    Forall (fun gp => is_gap gp.1) rest1 -> Forall (fun gp => is_gap gp.1) rest2 ->
    Forall is_word (first1 :: rest1.*2) -> Forall is_word (first2 :: rest2.*2) ->
    is_blank trail1 -> is_blank trail2 ->
    first1 :: rest1.*2 = first2 :: rest2.*2.
Proof.
  induction rest1 as [|[g1 p1] rest1 IH];
    intros rest2 first1 first2 trail1 trail2 Heq Hg1 Hg2 Hw1 Hw2 Ht1 Ht2;
    apply Forall_cons in Hw1 as [Hf1 Hw1]; apply Forall_cons in Hw2 as [Hf2 Hw2];
    unfold weave in Heq; rewrite <- !app_assoc in Heq;
    destruct (run_unique (fun c => is_space c = false) (fun c => is_space c = true)
                _ _ _ _ space_or_not (proj2 Hf1) (proj2 Hf2)
                (fun c => head_of_gaps _ _ c Hg1 Ht1)
                (fun c => head_of_gaps _ _ c Hg2 Ht2) Heq) as [-> Htail].
  - destruct rest2 as [|[g2 p2] rest2]; [reflexivity | exfalso].
    cbn in Htail. subst trail1. apply Forall_cons in Hw2 as [[Hne Hp2] _].
    rewrite <- !app_assoc in Ht1.
    apply Forall_app in Ht1 as [_ Ht1]. apply Forall_app in Ht1 as [Ht1 _].
    destruct p2 as [|x p2]; [done |].
    apply Forall_cons in Ht1 as [Ht1 _]. apply Forall_cons in Hp2 as [Hp2 _]. congruence.
  - destruct rest2 as [|[g2 p2] rest2].
    + exfalso. cbn in Htail. subst trail2. apply Forall_cons in Hw1 as [[Hne Hp1] _].
      rewrite <- !app_assoc in Ht2.
      apply Forall_app in Ht2 as [_ Ht2]. apply Forall_app in Ht2 as [Ht2 _].
      destruct p1 as [|x p1]; [done |].
      apply Forall_cons in Ht2 as [Ht2 _]. apply Forall_cons in Hp1 as [Hp1 _]. congruence.
    + apply Forall_cons in Hg1 as [[_ Hb1] Hg1]. apply Forall_cons in Hg2 as [[_ Hb2] Hg2].
      cbn in Hb1, Hb2, Htail. rewrite <- !app_assoc in Htail.
      pose proof Hw1 as Hw1'. pose proof Hw2 as Hw2'.
      apply Forall_cons in Hw1' as [Hp1 _]. apply Forall_cons in Hw2' as [Hp2 _].
      destruct (run_unique (fun c => is_space c = true) (fun c => is_space c = false)
                  _ _ _ _ (fun c H1 H2 => space_or_not c H2 H1) Hb1 Hb2
                  (fun c => head_after_word _ _ c Hp1)
                  (fun c => head_after_word _ _ c Hp2) Htail) as [_ Htail'].
      f_equal. cbn [fmap list_fmap snd].
      apply (IH rest2 p1 p2 trail1 trail2); try assumption.
      unfold weave. now rewrite <- !app_assoc.
Qed.

Lemma are_words_of_unique (value : jsstring) (pieces1 pieces2 : list jsstring) :
  are_words_of value pieces1 -> are_words_of value pieces2 -> pieces1 = pieces2.
Proof.
  intros (l1 & t1 & f1 & r1 & Hv1 & Hl1 & Ht1 & Hg1 & -> & Hw1)
         (l2 & t2 & f2 & r2 & Hv2 & Hl2 & Ht2 & Hg2 & -> & Hw2).
  rewrite Hv1 in Hv2.
  pose proof Hw1 as Hw1'. pose proof Hw2 as Hw2'.
  apply Forall_cons in Hw1' as [Hf1 _]. apply Forall_cons in Hw2' as [Hf2 _].
  unfold weave in Hv2. rewrite <- !app_assoc in Hv2.
  destruct (run_unique (fun c => is_space c = true) (fun c => is_space c = false)
              _ _ _ _ (fun c H1 H2 => space_or_not c H2 H1) Hl1 Hl2
              (fun c => head_after_word _ _ c Hf1)
              (fun c => head_after_word _ _ c Hf2) Hv2) as [_ Htail].
  apply (weave_unique r1 r2 f1 f2 t1 t2); try assumption.
  unfold weave. now rewrite <- !app_assoc.
Qed.

(** X9. [generate] keeps every word of the input, in order.  An input
    that is not blank is white space, then words with a gap of white
    space between each two, then white space, in one way only;
    [generate] upper-cases the words its rule selects, cuts them into
    groups, each a single word or words that joined by single spaces
    take fewer than 20 code units, and the lines are these groups joined
    by single spaces, after one empty line when the first word has 19
    code units or more.  A blank input gives no lines. *)
Theorem generate_lines_are_the_words
    (toUpperCase : jsstring -> jsstring) (draw : nat -> Z) (value : jsstring) :
  (forall w, is_word w -> is_word (toUpperCase w)) ->
  (is_blank value -> generate_lines toUpperCase draw value = None) /\
  (~ is_blank value ->
   exists pieces words groups,
     are_words_of value pieces /\
     (forall others, are_words_of value others -> others = pieces) /\
     words = imap (fun i p => if is_upper_cased draw (length pieces) i
                              then toUpperCase p else p) pieces /\
     generate_words toUpperCase draw value = Some words /\
     Forall is_word words /\
     concat groups = words /\ Forall is_line_group groups /\
     generate_lines toUpperCase draw value =
       Some (leading_lines words ++ (join_spaces <$> groups))).
Proof.
  intros Hupper. unfold generate_lines, generate_words. split.
  - intros Hblank%trim_blank. now rewrite Hblank.
  - intros Hne. assert (Htrim : trim value <> []) by (now rewrite <- trim_blank).
    pose proof (split_trim_are_words value Htrim) as Hpieces.
    destruct (split_spaces_words _ (trim_is_tight value Htrim)) as [_ Hwords].
    destruct (trim value) as [|c txt] eqn:Htxt; [done |].
    set (pieces := split_spaces (c :: txt)) in *.
    set (words := imap (fun i p => if is_upper_cased draw (length pieces) i
                                   then toUpperCase p else p) pieces).
    assert (Hrule : (if (rnd (draw 0%nat) <? 0.35)%float && (3 <? length pieces)%nat
                     then imap (fun i w => if (rnd (draw (S i)) <? 0.3)%float
                                           then toUpperCase w else w) pieces
                     else pieces) = words).
    { unfold words, is_upper_cased.
      destruct ((rnd (draw 0%nat) <? 0.35)%float && (3 <? length pieces)%nat).
      - reflexivity.
      - transitivity (imap (const (fun p : jsstring => p)) pieces).
        + rewrite imap_const. symmetry. apply list_fmap_id.
        + apply imap_ext. intros i p _. reflexivity. }
    rewrite Hrule.
    assert (Hclean : Forall is_word words).
    { apply Forall_lookup. intros i w Hw.
      apply list_lookup_imap_Some in Hw as (w0 & Hw0 & ->).
      pose proof (proj1 (Forall_lookup _ _) Hwords i w0 Hw0) as Hw0'.
      destruct (is_upper_cased _ _ _); [now apply Hupper | assumption]. }
    destruct (wrap_lines_groups words Hclean) as (groups & Hlines & Hcat & Hgroups).
    exists pieces, words, groups.
    split; [assumption |].
    split; [intros others Hothers; now apply (are_words_of_unique value) |].
    split; [reflexivity |]. split; [reflexivity |].
    split; [assumption |]. split; [assumption |]. split; [assumption |].
    cbn [fmap option_fmap option_map]. now rewrite Hlines.
Qed.

Lemma generate_lines_are_the_words_witness :
  exists pieces words groups,
    are_words_of [0x20; 0x61; 0x62; 0x20; 0x9; 0x63; 0xA] pieces /\
    (forall others,
       are_words_of [0x20; 0x61; 0x62; 0x20; 0x9; 0x63; 0xA] others -> others = pieces) /\
    words = imap (fun i p => if is_upper_cased (fun _ => 0) (length pieces) i
                             then p else p) pieces /\
    generate_words (fun w => w) (fun _ => 0) [0x20; 0x61; 0x62; 0x20; 0x9; 0x63; 0xA] =
      Some words /\
    Forall is_word words /\
    concat groups = words /\ Forall is_line_group groups /\
    generate_lines (fun w => w) (fun _ => 0) [0x20; 0x61; 0x62; 0x20; 0x9; 0x63; 0xA] =
      Some (leading_lines words ++ (join_spaces <$> groups)).
Proof.
  apply (generate_lines_are_the_words (fun w => w) (fun _ => 0)
           [0x20; 0x61; 0x62; 0x20; 0x9; 0x63; 0xA] (fun w H => H)).
  intros Hblank. apply Forall_cons in Hblank as [_ Hblank].
  apply Forall_cons in Hblank as [Hblank _]. vm_compute in Hblank. discriminate Hblank.
Defined.

Example generate_lines_two_words :
  generate_lines (fun w => w) (fun _ => 0) [0x20; 0x61; 0x62; 0x20; 0x9; 0x63; 0xA] =
  Some [[0x61; 0x62; 0x20; 0x63]].
Proof. vm_compute. reflexivity. Qed.

Example generate_lines_long_first_word :
  generate_lines (fun w => w) (fun _ => 0) (replicate 19 0x61 ++ [0x20; 0x62]) =
  Some [[]; replicate 19 0x61; [0x62]].
Proof. vm_compute. reflexivity. Qed.

(** ** Random choices *)

(** [Math.floor] of a positive finite number. *)
Lemma Math_floor_finite (x : float) (m : positive) (e : Z) :
  Prim2SF x = S754_finite false m e ->
  exists r, Math_floor x = Finite r /\ (IZR r <= F2R m e < IZR r + 1)%R.
Proof.
  intros Hx. unfold Math_floor. rewrite Hx. eexists. split; [reflexivity |].
  destruct (Z.leb_spec 0 e) as [He|He].
  - unfold F2R. rewrite mult_IZR, <- bpow_IZR by assumption. lra.
  - set (k := - e). assert (Hk : 0 < k) by (unfold k; lia).
    assert (HD : 0 < 2 ^ k) by (apply Z.pow_pos_nonneg; lia).
    set (r := Z.pos m / 2 ^ k).
    pose proof (Z.mul_div_le (Z.pos m) (2 ^ k) HD) as Hlo.
    pose proof (Z.mul_succ_div_gt (Z.pos m) (2 ^ k) HD) as Hhi.
    fold r in Hlo, Hhi.
    apply IZR_le in Hlo. apply IZR_lt in Hhi.
    rewrite mult_IZR in Hlo. rewrite mult_IZR, succ_IZR in Hhi.
    assert (HDR : (0 < IZR (2 ^ k))%R) by (apply IZR_lt; assumption).
    unfold F2R. replace e with (- k) by (unfold k; lia).
    rewrite bpow_opp, bpow_IZR by lia.
    set (D := IZR (2 ^ k)) in *. set (M := IZR (Z.pos m)) in *.
    assert (Hinv : (D * / D = 1)%R) by (apply Rinv_r; lra).
    split.
    + apply (Rmult_le_reg_l D); [lra |].
      replace (D * (M * / D))%R with (M * (D * / D))%R by ring.
      rewrite Hinv. lra.
    + apply (Rmult_lt_reg_l D); [lra |].
      replace (D * (M * / D))%R with (M * (D * / D))%R by ring.
      rewrite Hinv. lra.
Qed.

(** [rnd() * n] for a random word that is not 0: a positive number, at
    most the exact product [word / 4294967295 * n] with two roundings on
    top. *)
Lemma rnd_scaled_bound (u n : positive) :
  Z.pos u < 2 ^ 53 -> Z.pos n < 2 ^ 53 ->
  exists mp ep,
    Prim2SF (rnd (Z.pos u) * number_of_Z (Z.pos n)) = S754_finite false mp ep /\
    (F2R mp ep <=
     IZR (Z.pos u) / 4294967295 * (1 + / 2251799813685248) * IZR (Z.pos n)
       * (1 + / 2251799813685248))%R.
Proof.
  intros Hu53 Hn53.
  assert (HMlit : 4294967295%float = number_of_Z 4294967295) by (vm_compute; reflexivity).
  unfold rnd. rewrite HMlit.
  destruct (Prim2SF_number_of_Z u Hu53) as (mu & eu & Hu & Hmu & Heu & Hvu).
  destruct (Prim2SF_number_of_Z 4294967295 ltac:(reflexivity))
    as (mw & ew & Hw & Hmw & Hew & Hvw).
  destruct (Prim2SF_number_of_Z n Hn53) as (mn & en & Hn & Hmn & Hen & Hvn).
  destruct (SFdiv_normal mu mw eu ew) as (ms & es & Hs & Hms & Hes & HMs); try lia.
  destruct (SFmul_normal ms mn es en) as (mp & ep & Hp & Hmp & Hep & HMp); try lia.
  exists mp, ep. split.
  { rewrite mul_spec, div_spec, Hu, Hw, Hn, Hs. exact Hp. }
  pose proof (F2R_exact mu u eu ltac:(lia) Hvu) as HFu.
  pose proof (F2R_exact mw 4294967295 ew ltac:(lia) Hvw) as HFw.
  pose proof (F2R_exact mn n en ltac:(lia) Hvn) as HFn.
  assert (Hu0 : (1 <= IZR (Z.pos u))%R) by (apply IZR_le; lia).
  assert (Hn0 : (1 <= IZR (Z.pos n))%R) by (apply IZR_le; lia).
  set (T := (IZR (Z.pos u) / 4294967295)%R).
  (* the quotient *)
  set (q := Z.pos mu * 2 ^ 53 / Z.pos mw) in *.
  set (E := bpow (eu - ew - 53)).
  assert (HE : (0 < E)%R) by apply bpow_pos.
  assert (Hmw0 : (0 < IZR (Z.pos mw))%R) by (apply IZR_lt; lia).
  assert (Hq52 : 2 ^ 52 <= q).
  { unfold q. apply Z.div_le_lower_bound; [lia |].
    assert (0 < 2 ^ 52) by lia. assert (2 ^ 53 = 2 * 2 ^ 52) by reflexivity. nia. }
  pose proof (Z.mul_div_le (Z.pos mu * 2 ^ 53) (Z.pos mw) ltac:(lia)) as Hq1.
  pose proof (Z.mul_succ_div_gt (Z.pos mu * 2 ^ 53) (Z.pos mw) ltac:(lia)) as Hq2.
  fold q in Hq1, Hq2.
  apply IZR_le in Hq1. apply IZR_lt in Hq2. apply IZR_le in Hq52.
  rewrite !mult_IZR in Hq1. rewrite !mult_IZR, succ_IZR in Hq2.
  change (IZR (2 ^ 53)) with 9007199254740992%R in Hq1, Hq2.
  change (IZR (2 ^ 52)) with 4503599627370496%R in Hq52.
  set (rho := (IZR (Z.pos mu) * 9007199254740992 / IZR (Z.pos mw))%R).
  assert (HTrho : T = (rho * E)%R).
  { unfold T, rho, E. rewrite <- HFu, <- HFw, bpow_div_exponent. unfold F2R.
    field. split; [| lra]. pose proof (bpow_pos ew). lra. }
  assert (Hrho : (IZR q <= rho < IZR q + 1)%R).
  { unfold rho. split.
    - apply (Rmult_le_reg_l (IZR (Z.pos mw))); [assumption |].
      replace (IZR (Z.pos mw) * (IZR (Z.pos mu) * 9007199254740992 / IZR (Z.pos mw)))%R
        with (IZR (Z.pos mu) * 9007199254740992)%R by (field; lra).
      exact Hq1.
    - apply (Rmult_lt_reg_l (IZR (Z.pos mw))); [assumption |].
      replace (IZR (Z.pos mw) * (IZR (Z.pos mu) * 9007199254740992 / IZR (Z.pos mw)))%R
        with (IZR (Z.pos mu) * 9007199254740992)%R by (field; lra).
      exact Hq2. }
  assert (HTlo : (IZR q * E <= T)%R) by (rewrite HTrho; apply Rmult_le_compat_r; lra).
  assert (HThi : (T < (IZR q + 1) * E)%R) by (rewrite HTrho; apply Rmult_lt_compat_r; lra).
  destruct HMs as [HMs1 HMs2]. apply IZR_le in HMs1, HMs2.
  rewrite minus_IZR in HMs1. rewrite plus_IZR in HMs2.
  pose proof (rel_err_div T E (F2R ms es) _ (IZR q) HE Hq52 HTlo HThi
                (conj HMs1 HMs2) (F2R_shift ms es (eu - ew - 53) ltac:(lia))) as Hs_err.
  (* the product *)
  set (Ex := bpow (es + en)).
  assert (HEx : (0 < Ex)%R) by apply bpow_pos.
  assert (HP : (20282409603651670423947251286016 <= IZR (Z.pos ms * Z.pos mn))%R).
  { apply IZR_le. change 20282409603651670423947251286016 with (2 ^ 52 * 2 ^ 52).
    assert (0 < 2 ^ 52) by lia. nia. }
  destruct HMp as [HMp1 HMp2]. apply IZR_le in HMp1, HMp2.
  rewrite minus_IZR in HMp1. rewrite plus_IZR in HMp2.
  change (IZR (2 ^ 53)) with 9007199254740992%R in HMp1, HMp2.
  assert (HX : (F2R ms es * IZR (Z.pos n) = IZR (Z.pos ms * Z.pos mn) * Ex)%R).
  { rewrite <- HFn. unfold F2R, Ex. rewrite bpow_add, mult_IZR. ring. }
  pose proof (rel_err_mul _ Ex (F2R mp ep) _ _ HEx HP (conj HMp1 HMp2)
                (F2R_shift mp ep (es + en) ltac:(lia)) HX) as Hp_err.
  set (s := F2R ms es) in *. set (p := F2R mp ep) in *.
  assert (Hsn : (s * IZR (Z.pos n) <= T * (1 + / 2251799813685248) * IZR (Z.pos n))%R).
  { apply Rmult_le_compat_r; lra. }
  assert (H0 : (0 <= T * (1 + / 2251799813685248) * IZR (Z.pos n))%R).
  { apply Rmult_le_pos; [| lra]. apply Rmult_le_pos; [unfold T |]; lra. }
  apply (Rle_trans _ _ _ (proj2 Hp_err)).
  apply Rmult_le_compat_r; lra.
Qed.

(** [1 * n] is at least [n] and less than [n + 1]. *)
Lemma one_times_bounds (n : positive) :
  Z.pos n < 2 ^ 32 ->
  exists mp ep,
    Prim2SF (1 * number_of_Z (Z.pos n)) = S754_finite false mp ep /\
    (IZR (Z.pos n) <= F2R mp ep <= IZR (Z.pos n) + / 2)%R.
Proof.
  intros Hn32.
  destruct (Prim2SF_number_of_Z n ltac:(lia)) as (mn & en & Hn & Hmn & Hen & Hvn).
  assert (Hen1 : en <= -1).
  { destruct (Z.eq_dec en 0) as [-> | ?]; [| lia]. cbn in Hvn. lia. }
  assert (H1 : Prim2SF 1 = S754_finite false 4503599627370496 (-52))
    by (vm_compute; reflexivity).
  assert (Hdigits : Zdigits2 (Z.pos (4503599627370496 * mn)) = 105).
  { apply Zdigits2_unique. rewrite Pos2Z.inj_mul.
    change (Z.pos 4503599627370496) with (2 ^ 52).
    change (2 ^ (105 - 1)) with (2 ^ 52 * 2 ^ 52). change (2 ^ 105) with (2 ^ 52 * 2 ^ 53).
    assert (0 < 2 ^ 52) by lia. nia. }
  destruct (binary_round_aux_normal false (4503599627370496 * mn) (-52 + en) loc_Exact)
    as (m & e & Hr & Hm & He & Hb & _); rewrite ?Hdigits; try lia.
  rewrite Hdigits in He, Hb. change (105 - 53) with 52 in He, Hb.
  exists m, e. split.
  { rewrite mul_spec, H1, Hn. exact Hr. }
  rewrite Pos2Z.inj_mul in Hb. change (Z.pos 4503599627370496) with (2 ^ 52) in Hb.
  rewrite (Z.mul_comm (2 ^ 52)), Z.div_mul in Hb by lia.
  set (K := Z.pos m * 2 ^ (e - (-52 + en))) in *.
  destruct Hb as [Hb1 Hb2]. apply IZR_le in Hb1, Hb2.
  rewrite mult_IZR in Hb1. rewrite mult_IZR, plus_IZR in Hb2.
  change (IZR (2 ^ 52)) with 4503599627370496%R in Hb1, Hb2.
  pose proof (F2R_exact mn n en ltac:(lia) Hvn) as HFn. unfold F2R in HFn.
  rewrite (F2R_shift m e (-52 + en)) by lia. fold K.
  replace (-52 + en) with (Z.opp 52 + en) by lia.
  rewrite bpow_add, bpow_opp, (bpow_IZR 52) by lia.
  change (IZR (2 ^ 52)) with 4503599627370496%R.
  set (B := bpow en) in *.
  assert (HB : (0 < B)%R) by apply bpow_pos.
  assert (HBhalf : (B <= / 2)%R).
  { unfold B. replace en with (- (- en)) by lia. rewrite bpow_opp, bpow_IZR by lia.
    assert (H2 : (2 <= IZR (2 ^ (- en)))%R).
    { apply IZR_le. change 2 with (2 ^ 1) at 1. apply Z.pow_le_mono_r; lia. }
    apply Rinv_le_contravar; lra. }
  set (k := (IZR K * / 4503599627370496)%R).
  assert (Hk : (IZR (Z.pos mn) <= k <= IZR (Z.pos mn) + 1)%R) by (unfold k; lra).
  replace (IZR K * (/ 4503599627370496 * B))%R with (k * B)%R by (unfold k; ring).
  rewrite <- HFn. split.
  - apply Rmult_le_compat_r; lra.
  - apply (Rle_trans _ ((IZR (Z.pos mn) + 1) * B)); [apply Rmult_le_compat_r; lra | lra].
Qed.

(** X10. [pick] returns an element of the array for every random word
    but the last one: on the word 4294967295, for which [rnd()] is 1, the
    index computed is the length of the array and [pick] returns
    [undefined]. *)
Theorem pick_element_unless_last_word {A : Type} (a : list A) (word : Z) :
  a <> [] -> Z.of_nat (length a) < 2 ^ 32 -> 0 <= word < 2 ^ 32 ->
  (word < 4294967295 ->
   exists i x, (i < length a)%nat /\ a !! i = Some x /\ pick a word = Some x) /\
  (word = 4294967295 -> pick a word = None).
Proof.
  intros Ha Hlen Hword.
  assert (Hn : exists n, Z.of_nat (length a) = Z.pos n).
  { destruct a as [|x a']; [done |]. cbn [length]. rewrite Nat2Z.inj_succ.
    destruct (Z.succ (Z.of_nat (length a'))) eqn:Hs; [lia | now eexists | lia]. }
  destruct Hn as (n & Hn). unfold pick. rewrite Hn. rewrite Hn in Hlen. split.
  - intros Hlt. destruct word as [|u|u]; [| | lia].
    + assert (Hz : Math_floor (rnd 0 * number_of_Z (Z.pos n)) = Finite 0).
      { destruct (Prim2SF_number_of_Z n ltac:(lia)) as (mn & en & Hmn & _).
        unfold Math_floor. rewrite mul_spec, Hmn.
        assert (H0 : Prim2SF (rnd 0) = S754_zero false) by (vm_compute; reflexivity).
        rewrite H0. reflexivity. }
      rewrite Hz. cbn [element_at Z.leb Z.compare Z.to_nat].
      destruct a as [|x a']; [done |]. exists 0%nat, x. cbn. split; [lia | auto].
    + destruct (rnd_scaled_bound u n ltac:(lia) ltac:(lia)) as (mp & ep & Hp & Hup).
      destruct (Math_floor_finite _ _ _ Hp) as (r & Hr & Hrb).
      rewrite Hr.
      assert (Hpos : (0 < F2R mp ep)%R).
      { unfold F2R. apply Rmult_lt_0_compat; [apply IZR_lt; lia | apply bpow_pos]. }
      assert (Hu : (1 <= IZR (Z.pos u) <= 4294967294)%R).
      { split; apply IZR_le; lia. }
      assert (Hn0 : (1 <= IZR (Z.pos n))%R) by (apply IZR_le; lia).
      assert (Hbelow : (F2R mp ep < IZR (Z.pos n))%R).
      { apply (Rle_lt_trans _ _ _ Hup).
        set (c := (IZR (Z.pos u) / 4294967295 * (1 + / 2251799813685248))%R).
        assert (Hc : (0 <= c <= 4294967294 / 4294967295 * (1 + / 2251799813685248))%R).
        { unfold c. split.
          - apply Rmult_le_pos; lra.
          - apply Rmult_le_compat_r; lra. }
        replace (c * IZR (Z.pos n) * (1 + / 2251799813685248))%R
          with ((c * (1 + / 2251799813685248)) * IZR (Z.pos n))%R by ring.
        rewrite <- (Rmult_1_l (IZR (Z.pos n))) at 2.
        apply Rmult_lt_compat_r; [lra |].
        apply (Rle_lt_trans _ (4294967294 / 4294967295 * (1 + / 2251799813685248)
                               * (1 + / 2251799813685248))); [| lra].
        apply Rmult_le_compat_r; lra. }
      assert (Hr0 : 0 <= r).
      { assert (H : (IZR (-1) < IZR r)%R) by (cbn; lra). apply lt_IZR in H. lia. }
      assert (Hrn : r < Z.pos n).
      { apply lt_IZR. lra. }
      cbn [element_at]. destruct (Z.leb_spec 0 r) as [_ | ?]; [| lia].
      destruct (lookup_lt_is_Some_2 a (Z.to_nat r) ltac:(lia)) as (x & Hx).
      exists (Z.to_nat r), x. split; [lia | auto].
  - intros ->.
    assert (Hone : rnd 4294967295 = 1%float) by (vm_compute; reflexivity).
    rewrite Hone.
    destruct (one_times_bounds n Hlen) as (mp & ep & Hp & Hpb).
    destruct (Math_floor_finite _ _ _ Hp) as (r & Hr & Hrb).
    rewrite Hr.
    assert (Hrn : r = Z.pos n).
    { assert (H1 : r < Z.pos n + 1) by (apply lt_IZR; rewrite plus_IZR; lra).
      assert (H2 : Z.pos n < r + 1) by (apply lt_IZR; rewrite plus_IZR; lra).
      lia. }
    rewrite Hrn. cbn [element_at Z.leb Z.compare].
    apply lookup_ge_None. lia.
Qed.

Lemma pick_element_unless_last_word_witness :
  (exists i x, (i < 4)%nat /\ [0; 90; -90; 180] !! i = Some x /\
               pick [0; 90; -90; 180] 4294967294 = Some x) /\
  pick [0; 90; -90; 180] 4294967295 = None.
Proof.
  destruct (pick_element_unless_last_word [0; 90; -90; 180] 4294967294
              ltac:(discriminate) ltac:(cbn; lia) ltac:(lia)) as [Hin _].
  destruct (pick_element_unless_last_word [0; 90; -90; 180] 4294967295
              ltac:(discriminate) ltac:(cbn; lia) ltac:(lia)) as [_ Hout].
  split; [apply Hin; lia | apply Hout; reflexivity].
Defined.

Example pick_last_word : pick [0; 90; -90; 180] 4294967295 = None.
Proof. vm_compute. reflexivity. Qed.

Example pick_next_to_last_word : pick [0; 90; -90; 180] 4294967294 = Some 180.
Proof. vm_compute. reflexivity. Qed.

(** ** Relay socket: every order of events *)

Lemma deliver_sent (data : list Z) (st : relay) (ev : ws_event) :
  sent (deliver data st ev) = sent st ++ (if is_open_event ev then [data] else []).
Proof.
  destruct st as [rs p s]. destruct ev, rs, p; cbn; rewrite ?app_nil_r; reflexivity.
Qed.

Lemma deliver_outcome (data : list Z) (st : relay) (ev : ws_event) :
  match settled (deliver data st ev) with
  | Pending => settled st = Pending /\ ev <> EvError /\ ev <> EvClose
  | Resolved =>
      settled st = Resolved \/ ev = EvClose \/ (ev = EvTimeout /\ readyState st = OPEN)
  | Rejected e => settled st = Rejected e \/ (ev = EvError /\ e = EvError)
  end.
Proof.
  destruct st as [rs p s]. destruct ev, rs, p; cbn; auto; repeat split; auto; discriminate.
Qed.

Lemma deliver_open (data : list Z) (st : relay) (ev : ws_event) :
  readyState (deliver data st ev) = OPEN -> ev = EvOpen \/ readyState st = OPEN.
Proof.
  destruct st as [rs p s]. destruct ev, rs, p; cbn; auto; discriminate.
Qed.

Lemma sendViaWebSocket_snoc (data : list Z) (evs : list ws_event) (ev : ws_event) :
  sendViaWebSocket data (evs ++ [ev]) = deliver data (sendViaWebSocket data evs) ev.
Proof. unfold sendViaWebSocket. now rewrite fold_left_app. Qed.

Lemma sendViaWebSocket_open_seen (data : list Z) (evs : list ws_event) :
  readyState (sendViaWebSocket data evs) = OPEN -> EvOpen ∈ evs.
Proof.
  induction evs as [|ev evs IH] using rev_ind; [discriminate |].
  rewrite sendViaWebSocket_snoc. intros H%deliver_open.
  apply elem_of_app. destruct H as [-> | H]; [right; apply list_elem_of_singleton; reflexivity |].
  left. now apply IH.
Qed.

(** X11. Whatever events arrive and in whatever order, the relay socket
    is handed the print job once for each [open] event and nothing else;
    the promise is rejected only by an [error] event, is resolved only by
    a [close] event or by the timer expiring after the socket has opened,
    and is pending only as long as no [error] and no [close] event has
    arrived. *)
Theorem sendViaWebSocket_every_order (data : list Z) (evs : list ws_event) :
  sent (sendViaWebSocket data evs) = replicate (opens evs) data /\
  match settled (sendViaWebSocket data evs) with
  | Pending => (EvError ∉ evs) /\ (EvClose ∉ evs)
  | Resolved =>
      EvClose ∈ evs \/
      exists before after, evs = before ++ EvTimeout :: after /\ EvOpen ∈ before
  | Rejected e => e = EvError /\ EvError ∈ evs
  end.
Proof.
  induction evs as [|ev evs [IHsent IHout]] using rev_ind.
  - split; [reflexivity |]. cbn. split; apply not_elem_of_nil.
  - rewrite sendViaWebSocket_snoc. split.
    + rewrite deliver_sent, IHsent. unfold opens.
      rewrite List.filter_app, length_app. cbn [List.filter].
      destruct (is_open_event ev); cbn [length].
      * rewrite Nat.add_1_r. now rewrite replicate_S_end.
      * now rewrite Nat.add_0_r, app_nil_r.
    + pose proof (deliver_outcome data (sendViaWebSocket data evs) ev) as Hstep.
      destruct (settled (deliver data (sendViaWebSocket data evs) ev)) as [| |e].
      * destruct Hstep as (Hp & Herr & Hclose). rewrite Hp in IHout.
        destruct IHout as [IH1 IH2].
        split; intros [H | H%list_elem_of_singleton]%elem_of_app; congruence.
      * destruct Hstep as [Hr | [-> | [-> Hopen]]].
        -- rewrite Hr in IHout. destruct IHout as [H | (before & after & -> & H)].
           ++ left. apply elem_of_app. now left.
           ++ right. exists before, (after ++ [ev]). split; [| assumption].
              now rewrite <- app_assoc.
        -- left. apply elem_of_app. right. now apply list_elem_of_singleton.
        -- right. exists evs, []. split; [reflexivity |].
           now apply (sendViaWebSocket_open_seen data).
      * destruct Hstep as [Hr | [-> ->]].
        -- rewrite Hr in IHout. destruct IHout as [-> H]. split; [reflexivity |].
           apply elem_of_app. now left.
        -- split; [reflexivity |]. apply elem_of_app. right. now apply list_elem_of_singleton.
Qed.

(** ** Serial transport: one port, several print jobs *)

(** [sendToSerial] on a port whose writer is free: the port is opened if
    it was closed, the job is written, the writer is released. *)
Lemma sendToSerial_web (data : list Z) (p : web_port) :
  writer_locked p = false ->
  sendToSerial web_serial data p = (mkWebPort true false (received p ++ [data]), Done tt).
Proof.
  destruct p as [[|] lk rcv]; cbn; intros ->; reflexivity.
Qed.

(** X12. Print jobs sent one after the other through [sendToSerial] to
    the same port all reach the printer, in their order, whether the
    port was open or closed at first: each job returns, and the port is
    left open with its writer free. *)
Theorem sendToSerial_prints_every_job (jobs : list (list Z)) (p : web_port) :
  writer_locked p = false ->
  run_jobs (sendToSerial web_serial) jobs p =
    (match jobs with
     | [] => p
     | _ :: _ => mkWebPort true false (received p ++ jobs)
     end,
     replicate (length jobs) (Done tt)).
Proof.
  revert p. induction jobs as [|job jobs IH]; intros p Hfree; [reflexivity |].
  cbn [run_jobs]. rewrite sendToSerial_web by assumption.
  rewrite (IH (mkWebPort true false (received p ++ [job])) eq_refl).
  cbn [received length replicate]. f_equal.
  destruct jobs as [|job' jobs']; [reflexivity |].
  now rewrite <- app_assoc.
Qed.

Lemma sendToSerial_prints_every_job_witness :
  run_jobs (sendToSerial web_serial) [[0x1D; 0x76]; [0x0A]] (mkWebPort false false []) =
    (mkWebPort true false [[0x1D; 0x76]; [0x0A]], [Done tt; Done tt]).
Proof.
  apply (sendToSerial_prints_every_job [[0x1D; 0x76]; [0x0A]] (mkWebPort false false [])).
  reflexivity.
Defined.

(** [printElementToPrinter] on a closed port. *)
Lemma printElementToPrinter_serial_closed
    (serialOptions : option Z) (close : bool) (data : list Z) (p : web_port) :
  port_opened p = false -> default 19200 serialOptions <> 0 ->
  printElementToPrinter_serial web_serial serialOptions close data p =
    (mkWebPort (negb close) false (received p ++ [data]), Done tt).
Proof.
  destruct p as [op lk rcv]. cbn. intros -> Hbaud.
  unfold printElementToPrinter_serial, io_bind. cbn.
  destruct (Z.eqb_spec (default 19200 serialOptions) 0) as [? | _]; [done |].
  destruct close; reflexivity.
Qed.

(** [printElementToPrinter] on an open port: [open] rejects, nothing is
    written. *)
Lemma printElementToPrinter_serial_opened
    (serialOptions : option Z) (close : bool) (data : list Z) (p : web_port) :
  port_opened p = true ->
  printElementToPrinter_serial web_serial serialOptions close data p =
    (p, Failed (DomError "InvalidStateError")).
Proof.
  destruct p as [op lk rcv]. cbn. intros ->. reflexivity.
Qed.

(** X13. Print jobs sent one after the other through the serial branch
    of [printElementToPrinter] to the same port, closed at first.
    Without [closeSerialAfterPrint] only the first job reaches the
    printer: it leaves the port open, and every later job is rejected
    with [InvalidStateError] by the [open] call the branch always makes.
    With [closeSerialAfterPrint] every job reaches the printer. *)
Theorem printElementToPrinter_serial_jobs
    (serialOptions : option Z) (job : list Z) (jobs : list (list Z)) (p : web_port) :
  port_opened p = false -> default 19200 serialOptions <> 0 ->
  run_jobs (printElementToPrinter_serial web_serial serialOptions false) (job :: jobs) p =
    (mkWebPort true false (received p ++ [job]),
     Done tt :: replicate (length jobs) (Failed (DomError "InvalidStateError"))) /\
  run_jobs (printElementToPrinter_serial web_serial serialOptions true) (job :: jobs) p =
    (mkWebPort false false (received p ++ job :: jobs),
     replicate (S (length jobs)) (Done tt)).
Proof.
  intros Hclosed Hbaud. split.
  - cbn [run_jobs]. rewrite printElementToPrinter_serial_closed by assumption.
    cbn [negb]. generalize (received p ++ [job]). intros rcv.
    assert (Hrest : run_jobs (printElementToPrinter_serial web_serial serialOptions false)
                      jobs (mkWebPort true false rcv) =
                    (mkWebPort true false rcv,
                     replicate (length jobs) (Failed (DomError "InvalidStateError")))).
    { induction jobs as [|j jobs IH]; [reflexivity |].
      cbn [run_jobs]. rewrite printElementToPrinter_serial_opened by reflexivity.
      now rewrite IH. }
    now rewrite Hrest.
  - revert job p Hclosed. induction jobs as [|j jobs IH]; intros job p Hclosed.
    + cbn [run_jobs]. now rewrite printElementToPrinter_serial_closed by assumption.
    + cbn [run_jobs] in *. rewrite printElementToPrinter_serial_closed by assumption.
      cbn [negb].
      specialize (IH j (mkWebPort false false (received p ++ [job])) eq_refl).
      destruct (printElementToPrinter_serial web_serial serialOptions true j _) as [s1 r].
      destruct (run_jobs _ jobs s1) as [s2 rs].
      injection IH as -> -> ->. cbn [received length replicate].
      now rewrite <- app_assoc.
Qed.

Lemma printElementToPrinter_serial_jobs_witness :
  run_jobs (printElementToPrinter_serial web_serial None false)
           [[0x1D; 0x76]; [0x0A]] (mkWebPort false false []) =
    (mkWebPort true false [[0x1D; 0x76]],
     [Done tt; Failed (DomError "InvalidStateError")]) /\
  run_jobs (printElementToPrinter_serial web_serial None true)
           [[0x1D; 0x76]; [0x0A]] (mkWebPort false false []) =
    (mkWebPort false false [[0x1D; 0x76]; [0x0A]], [Done tt; Done tt]).
Proof.
  apply (printElementToPrinter_serial_jobs None [0x1D; 0x76] [[0x0A]]
           (mkWebPort false false [])); [reflexivity | discriminate].
Defined.
